(** * AirMessage web client: the TCP data proxy and the manual configuration dialog

  A shallow embedding of
    - [electron-renderer/connection/dataProxy.ts]
      (address parsing, frame writer, frame reader, connection life cycle,
      ordered send pipeline), and
    - [electron-renderer/components/private/ConnectionConfigDialog.tsx]
      (the calls the dialog makes on the connection manager),
  with the properties the specification states about them. *)

From Stdlib Require Import ZArith List String Ascii Bool Lia.
From Stdlib.Strings Require Import Byte.
From stdpp Require Import base list.
Import ListNotations.

Local Open Scope string_scope.
Local Open Scope list_scope.
Local Open Scope Z_scope.

(* ===================================================================== *)
(** * 1. Regular expressions as JavaScript's [RegExp.prototype.test] uses them *)
(* ===================================================================== *)

Module Regex.

(** The fragment of the regular expression syntax that [regexPort] is written in. *)
Inductive regex : Type :=
| Lit (c : ascii)                (* a literal character *)
| Class (lo hi : ascii)          (* [lo-hi] *)
| Seq (r1 r2 : regex)            (* r1 r2 *)
| Alt (r1 r2 : regex)            (* r1|r2 *)
| Opt (r : regex)                (* r? *)
| Rep (lo hi : nat) (r : regex)  (* r{lo,hi} *)
| Eos.                           (* $ (no multiline flag) *)

Definition in_class (lo hi c : ascii) : bool :=
  ((N_of_ascii lo <=? N_of_ascii c) && (N_of_ascii c <=? N_of_ascii hi))%N.

(** [iter f n s]: every string left after applying [f] exactly [n] times. *)
Definition iter (f : string -> list string) : nat -> string -> list string :=
  fix go (n : nat) (s : string) : list string :=
    match n with
    | O => [s]
    | S k => flat_map (go k) (f s)
    end.

(** [residuals r s]: what can remain of [s] once [r] has matched a prefix
    of it, over every way the backtracking matcher can match. *)
Fixpoint residuals (r : regex) (s : string) : list string :=
  match r with
  | Lit c =>
      match s with
      | String c' t => if Ascii.eqb c c' then [t] else []
      | EmptyString => []
      end
  | Class lo hi =>
      match s with
      | String c t => if in_class lo hi c then [t] else []
      | EmptyString => []
      end
  | Seq r1 r2 => flat_map (residuals r2) (residuals r1 s)
  | Alt r1 r2 => residuals r1 s ++ residuals r2 s
  | Opt r1 => residuals r1 s ++ [s]
  | Rep lo hi r1 =>
      flat_map (fun k => iter (residuals r1) k s) (seq lo (S hi - lo))
  | Eos =>
      match s with
      | EmptyString => [s]
      | String _ _ => []
      end
  end.

Definition matches_at (r : regex) (s : string) : bool :=
  match residuals r s with
  | [] => false
  | _ :: _ => true
  end.

(** [test r s]: the pattern is not anchored at the start, so a match is
    tried at every position of [s], the end included. *)
Fixpoint test (r : regex) (s : string) : bool :=
  matches_at r s ||
  match s with
  | EmptyString => false
  | String _ t => test r t
  end.

End Regex.

(* ===================================================================== *)
(** * 2. Strings and numbers of the JavaScript runtime *)
(* ===================================================================== *)

(** Strings are sequences of code units below 256 ([ascii]); the sources
    only look at colons, digits and white space. *)
Module JS.

(** A JavaScript number as [parseInt] can return it.  The model keeps the
    mathematical integer; a digit string above 2^53 is rounded by the
    runtime and is out of the model's reach, and [-0] is [0]. *)
Inductive number : Type :=
| Num (z : Z)
| NaN.

(** [String.prototype.split] with a one-character separator. *)
Fixpoint split (sep : ascii) (s : string) : list string :=
  match s with
  | EmptyString => [EmptyString]
  | String c t =>
      if Ascii.eqb c sep then EmptyString :: split sep t
      else match split sep t with
           | h :: r => String c h :: r
           | [] => [String c EmptyString]
           end
  end.

(** White space that [parseInt] skips, among the code units below 256. *)
Definition is_whitespace (c : ascii) : bool :=
  let n := N_of_ascii c in
  ((n =? 9) || (n =? 10) || (n =? 11) || (n =? 12) || (n =? 13)
   || (n =? 32) || (n =? 160))%N.

Fixpoint trim_start (s : string) : string :=
  match s with
  | String c t => if is_whitespace c then trim_start t else s
  | EmptyString => s
  end.

(** The value of [c] as a digit, in any radix up to 16. *)
Definition digit_value (c : ascii) : option Z :=
  let n := Z.of_N (N_of_ascii c) in
  if (48 <=? n) && (n <=? 57) then Some (n - 48)
  else if (97 <=? n) && (n <=? 102) then Some (n - 87)
  else if (65 <=? n) && (n <=? 70) then Some (n - 55)
  else None.

Definition radix_digit (radix : Z) (c : ascii) : option Z :=
  match digit_value c with
  | Some d => if d <? radix then Some d else None
  | None => None
  end.

(** The longest prefix of [s] made of digits of [radix], as digit values. *)
Fixpoint digits_prefix (radix : Z) (s : string) : list Z :=
  match s with
  | String c t =>
      match radix_digit radix c with
      | Some d => d :: digits_prefix radix t
      | None => []
      end
  | EmptyString => []
  end.

Definition digits_to_Z (radix : Z) (ds : list Z) : Z :=
  fold_left (fun acc d => acc * radix + d) ds 0.

(** [parseInt(s)] with no radix argument: leading white space, an optional
    sign, an optional [0x]/[0X] prefix, then the longest run of digits. *)
Definition parseInt (s : string) : number :=
  let s1 := trim_start s in
  let '(sign, s2) :=
    match s1 with
    | String "-" t => (-1, t)
    | String "+" t => (1, t)
    | _ => (1, s1)
    end in
  let '(radix, s3) :=
    match s2 with
    | String "0" (String "x" t) => (16, t)
    | String "0" (String "X" t) => (16, t)
    | _ => (10, s2)
    end in
  match digits_prefix radix s3 with
  | [] => NaN
  | ds => Num (sign * digits_to_Z radix ds)
  end.

(** [parseInt(a[i])]: an index out of range reads [undefined], which
    [parseInt] turns into the string "undefined" and then into [NaN]. *)
Definition parseInt_at (a : list string) (i : nat) : number :=
  match nth_error a i with
  | Some s => parseInt s
  | None => NaN
  end.

End JS.

(* ===================================================================== *)
(** * 3. [parseAddress] *)
(* ===================================================================== *)

Module Address.
Import Regex JS.

Record AddressData : Type := { host : string; port : number }.

Definition digit : regex := Class "0" "9".

(** [([0-9]{1,4}|[1-5][0-9]{4}|6[0-4][0-9]{3}|65[0-4][0-9]{2}|655[0-2][0-9]|6553[0-5]?)] *)
Definition port_number : regex :=
  Alt (Rep 1 4 digit)
  (Alt (Seq (Class "1" "5") (Rep 4 4 digit))
  (Alt (Seq (Lit "6") (Seq (Class "0" "4") (Rep 3 3 digit)))
  (Alt (Seq (Lit "6") (Seq (Lit "5") (Seq (Class "0" "4") (Rep 2 2 digit))))
  (Alt (Seq (Lit "6") (Seq (Lit "5") (Seq (Lit "5") (Seq (Class "0" "2") digit))))
       (Seq (Lit "6") (Seq (Lit "5") (Seq (Lit "5") (Seq (Lit "3")
          (Opt (Class "0" "5")))))))))).

(** [/(:(...))$/], the regular expression "that determines if an address
    contains a valid port". *)
Definition regexPort : regex :=
  Seq (Seq (Lit ":") port_number) Eos.

(** [split[0]] is always there; [split[1]] is there when [address] has a
    colon, which a match of [regexPort] needs. *)
Definition parseAddress (address : string) : AddressData :=
  if test regexPort address then
    let split := JS.split ":" address in
    {| host := nth 0 split EmptyString; port := parseInt_at split 1 |}
  else
    {| host := address; port := Num 1359 |}.

(** The port invariant of the data model. *)
Definition valid_port (p : number) : Prop :=
  match p with
  | Num z => 0 <= z <= 65535
  | NaN => False
  end.

(** The same, as a test. *)
Definition valid_portb (p : number) : bool :=
  match p with
  | Num z => (0 <=? z) && (z <=? 65535)
  | NaN => false
  end.

End Address.

(** What the proofs about [regexPort] are stated with. *)
Module PortSyntax.
Import Regex JS Address.

Fixpoint has_colon (s : string) : bool :=
  match s with
  | EmptyString => false
  | String c t => Ascii.eqb c ":" || has_colon t
  end.

Fixpoint all_in_class (lo hi : ascii) (s : string) : bool :=
  match s with
  | EmptyString => true
  | String c t => in_class lo hi c && all_in_class lo hi t
  end.

(** Every character [r] can take lies in [lo-hi]. *)
Fixpoint only_class (lo hi : ascii) (r : regex) : bool :=
  match r with
  | Lit c => in_class lo hi c
  | Class a b => in_class lo hi a && in_class lo hi b
  | Seq r1 r2 | Alt r1 r2 => only_class lo hi r1 && only_class lo hi r2
  | Opt r1 | Rep _ _ r1 => only_class lo hi r1
  | Eos => true
  end.

(** The value of a decimal digit. *)
Definition digit_of (c : ascii) : Z := Z.of_N (N_of_ascii c) - 48.

(** A string of decimal digits, read as a number. *)
Definition decimal (d : string) : Z :=
  fold_left (fun acc c => 10 * acc + digit_of c) (list_ascii_of_string d) 0.

Definition digit_chars : list ascii :=
  ["0"; "1"; "2"; "3"; "4"; "5"; "6"; "7"; "8"; "9"]%char.

(** Lengths and values of one match followed by another. *)
Definition seq_bounds (b1 b2 : list (nat * Z)) : list (nat * Z) :=
  flat_map (fun '(l1, v1) =>
              map (fun '(l2, v2) => ((l1 + l2)%nat, v1 * 10 ^ Z.of_nat l2 + v2)) b2)
           b1.

Fixpoint iter_bounds (b : list (nat * Z)) (n : nat) : list (nat * Z) :=
  match n with
  | O => [(0%nat, 0)]
  | S k => seq_bounds b (iter_bounds b k)
  end.

(** For a regular expression over digits: the lengths its matches can
    have, each with a number no match of that length exceeds. *)
Fixpoint bounds (r : regex) : list (nat * Z) :=
  match r with
  | Lit c => [(1%nat, digit_of c)]
  | Class _ hi => [(1%nat, digit_of hi)]
  | Seq r1 r2 => seq_bounds (bounds r1) (bounds r2)
  | Alt r1 r2 => bounds r1 ++ bounds r2
  | Opt r1 => bounds r1 ++ [(0%nat, 0)]
  | Rep lo hi r1 => flat_map (iter_bounds (bounds r1)) (seq lo (S hi - lo))
  | Eos => [(0%nat, 0)]
  end.

(** A port number has one to five digits and is at most 65535. *)
Definition port_bound (b : nat * Z) : bool :=
  ((1 <=? fst b) && (fst b <=? 5))%nat && (snd b <=? 65535).

End PortSyntax.



(* ===================================================================== *)
(** * 4. Bytes, the [bytebuffer] writer and Node's [Buffer] reader *)
(* ===================================================================== *)

Module Bytes.

Definition Z_of_byte (b : byte) : Z := Z.of_N (Byte.to_N b).

(** Storing a number in a [Uint8Array] keeps its low eight bits. *)
Definition byte_of_Z (z : Z) : byte :=
  match Byte.of_N (Z.to_N (z mod 256)) with
  | Some b => b
  | None => x00
  end.

(** [value |= 0]: the number as a signed 32-bit integer. *)
Definition toInt32 (v : Z) : Z := (v + 2 ^ 31) mod 2 ^ 32 - 2 ^ 31.

(** [value >>> n] on a 32-bit integer: the shift of its unsigned reading. *)
Definition ushr (v : Z) (n : Z) : Z := Z.shiftr (v mod 2 ^ 32) n.

(** The four bytes [writeInt32] stores, high byte first. *)
Definition int32_bytes_BE (value : Z) : list byte :=
  [ byte_of_Z (Z.land (ushr value 24) 255);
    byte_of_Z (Z.land (ushr value 16) 255);
    byte_of_Z (Z.land (ushr value 8) 255);
    byte_of_Z (Z.land value 255) ].

(** The unsigned 32-bit reading of four bytes, high byte first. *)
Definition uint32_of_bytes_BE (b0 b1 b2 b3 : byte) : Z :=
  Z_of_byte b0 * 2 ^ 24 + Z_of_byte b1 * 2 ^ 16 + Z_of_byte b2 * 2 ^ 8 + Z_of_byte b3.

(** [Buffer.prototype.readInt32BE(offset)]:
    [(first << 24) + this[++offset] * 2 ** 16 + this[++offset] * 2 ** 8 + last];
    the callers below only read buffers that hold the four bytes. *)
Definition readInt32BE (data : list byte) (offset : nat) : Z :=
  match drop offset data with
  | first :: b1 :: b2 :: last :: _ =>
      toInt32 (Z.shiftl (Z_of_byte first) 24)
      + Z_of_byte b1 * 2 ^ 16 + Z_of_byte b2 * 2 ^ 8 + Z_of_byte last
  | _ => 0
  end.

(** [data[i]] on a buffer, as a number; [None] is [undefined]. *)
Definition byte_at (data : list byte) (i : nat) : option Z :=
  Z_of_byte <$> data !! i.

End Bytes.

Module ByteBuffer.
Import Bytes.

(** A [ByteBuffer]: its backing array and the relative write offset.
    Capacities are natural numbers here; the library itself keeps them in
    32 bits. *)
Record t : Type := { buffer : list byte; offset : nat }.

Definition allocate (capacity : nat) : t :=
  {| buffer := repeat x00 capacity; offset := 0%nat |}.

(** The backing array once it can hold [need] bytes: a write past the
    capacity doubles it, or grows it to [need] when that is more. *)
Definition ensure (bb : t) (need : nat) : list byte :=
  let capacity := length (buffer bb) in
  if (need <=? capacity)%nat then buffer bb
  else buffer bb ++ repeat x00 (Nat.max (2 * capacity) need - capacity).

(** A relative write of [bs] at the offset. *)
Definition put (bs : list byte) (bb : t) : t :=
  let stop := (offset bb + length bs)%nat in
  let buf := ensure bb stop in
  {| buffer := take (offset bb) buf ++ bs ++ drop stop buf; offset := stop |}.

Definition writeInt (value : Z) (bb : t) : t := put (int32_bytes_BE (toInt32 value)) bb.
Definition writeByte (value : Z) (bb : t) : t := put [byte_of_Z (toInt32 value)] bb.
Definition append (source : list byte) (bb : t) : t := put source bb.

End ByteBuffer.

(* ===================================================================== *)
(** * 5. The socket, as [DataProxyTCP] uses it *)
(* ===================================================================== *)

Module Socket.

(** What the proxy does to its socket, in order. *)
Inductive call : Type :=
| SockConnect (port : JS.number) (host : string)
| SockSetTimeout (milliseconds : Z)
| SockWrite (chunk : list byte)
| SockEnd
| SockDestroy.

(** [socket.read(n)] on a stream that has not ended, over the bytes
    [buf] received and not yet read: [n] bytes when [n] is positive and
    that many are there, and [null] otherwise.  [read(0)] never returns
    data (Node documents it as a refresh that always returns [null]), and
    a negative size is read as 0. *)
Definition read (n : Z) (buf : list byte) : option (list byte) * list byte :=
  if (0 <? n) && (n <=? Z.of_nat (length buf))
  then (Some (take (Z.to_nat n) buf), drop (Z.to_nat n) buf)
  else (None, buf).

End Socket.

(* ===================================================================== *)
(** * 6. Framing: [writeSync] and the [readable] handler *)
(* ===================================================================== *)

Module Framing.
Import Bytes.

(** The bytes [writeSync(data, isEncrypted)] hands to [socket.write]. *)
Definition frame (data : list byte) (isEncrypted : bool) : list byte :=
  ByteBuffer.buffer
    (ByteBuffer.append data
       (ByteBuffer.writeByte (if isEncrypted then 1 else 0)
          (ByteBuffer.writeInt (Z.of_nat (length data))
             (ByteBuffer.allocate (4 + 1 + length data))))).

(** [writeSync]: one [socket.write] call with the whole frame. *)
Definition writeSync (data : list byte) (isEncrypted : bool)
    (socket : list Socket.call) : list Socket.call :=
  socket ++ [Socket.SockWrite (frame data isEncrypted)].

Record MessageData : Type := { size : Z; isEncrypted : bool }.

(** A message body taken off the wire, as it is submitted to the
    decryption stage: the bytes, and whether they are to be decrypted
    before [notifyMessage]. *)
Definition submission : Type := (list byte * bool)%type.

(** The header the handler builds from the five bytes it read. *)
Definition parse_header (data : list byte) : MessageData :=
  {| size := readInt32BE data 0;
     isEncrypted := match byte_at data 4 with
                    | Some v => negb (v =? 0)
                    | None => true
                    end |}.

(** The state of the read side between two [readable] events: the
    [messageData] variable of [start], and the bytes the socket holds. *)
Record reader : Type := {
  messageData : option MessageData;
  input : list byte
}.

(** The [while(true)] loop of the handler; [fuel] bounds its iterations
    and [None] is the loop cut short.  A body read off the socket is
    handed to the decryption stage and the loop goes on: the one [await]
    of the handler, on the first encrypted message, is taken as immediate,
    which is exact as long as no other [readable] event comes during it. *)
Fixpoint readable_loop (fuel : nat) (r : reader) (out : list submission)
    : option (reader * list submission) :=
  match fuel with
  | O => None
  | S fuel' =>
      match messageData r with
      | None =>
          match Socket.read (4 + 1) (input r) with
          | (None, _) => Some (r, out)
          | (Some data, rest) =>
              readable_loop fuel'
                {| messageData := Some (parse_header data); input := rest |} out
          end
      | Some md =>
          match Socket.read (size md) (input r) with
          | (None, _) => Some (r, out)
          | (Some data, rest) =>
              readable_loop fuel'
                {| messageData := None; input := rest |}
                (out ++ [(data, isEncrypted md)])
          end
      end
  end.

(** Every iteration that does not leave the loop takes at least one byte
    off the socket, so this much fuel is never used up. *)
Definition readable_fuel (r : reader) : nat := S (length (input r)).

(** One [readable] event: [chunk] has arrived on the socket. *)
Definition readable (chunk : list byte) (r : reader)
    : option (reader * list submission) :=
  let r' := {| messageData := messageData r; input := input r ++ chunk |} in
  readable_loop (readable_fuel r') r' [].

Definition initial : reader := {| messageData := None; input := [] |}.

(** The flag byte [writeSync] stores. *)
Definition flag_byte (isEncrypted : bool) : byte := if isEncrypted then x01 else x00.

(** The result of a handler run, after [out] was submitted before it. *)
Definition prepend (out : list submission) (res : option (reader * list submission))
    : option (reader * list submission) :=
  match res with
  | Some (r, new) => Some (r, out ++ new)
  | None => None
  end.

(** A run of [readable] events, one per chunk, with everything submitted. *)
Fixpoint feed (chunks : list (list byte)) (r : reader)
    : option (reader * list submission) :=
  match chunks with
  | [] => Some (r, [])
  | chunk :: chunks' =>
      match readable chunk r with
      | Some (r', out) =>
          match feed chunks' r' with
          | Some (r'', out') => Some (r'', out ++ out')
          | None => None
          end
      | None => None
      end
  end.

End Framing.

(* ===================================================================== *)
(** * 7. [DataProxyTCP]: construction, [start], [stop] and the socket's events *)
(* ===================================================================== *)

Module DataProxyTCP.
Import Address.

Record AddressOverride : Type := {
  primary : string;
  fallback : option string
}.

(** The one member of [ConnectionErrorCode] the proxy uses. *)
Inductive ConnectionErrorCode : Type :=
| Connection.

(** The keys of the secure storage that [start] reads and the
    configuration dialog writes. *)
Inductive SecureStorageKey : Type :=
| ServerAddress
| ServerAddressFallback
| ServerPassword.

(** [getSecureLS]: the stored string, or [None] for [undefined]. *)
Definition storage : Type := SecureStorageKey -> option string.

(** What the proxy tells its owner through [notifyOpen], [notifyClose]
    and [notifyMessage]. *)
Inductive notification : Type :=
| NotifyOpen
| NotifyClose (reason : ConnectionErrorCode)
| NotifyMessage (data : list byte) (isEncrypted : bool).

(** An instance of the class.  [listeners] holds, for every run of [start]
    that got as far as registering its handlers, the [addressSecondary]
    its "close" handler captured; [socket] and [notified] are the calls
    made on the socket and on the owner so far. *)
Record proxy : Type := {
  override : option AddressOverride;
  isStopping : bool;
  listeners : list (option AddressData);
  socket : list Socket.call;
  notified : list notification
}.

(** [new DataProxyTCP(override)] *)
Definition new (override : option AddressOverride) : proxy :=
  {| override := override;
     isStopping := false;
     listeners := [];
     socket := [Socket.SockSetTimeout (10 * 1000)];
     notified := [] |}.

Definition set_isStopping (v : bool) (p : proxy) : proxy :=
  {| override := override p; isStopping := v; listeners := listeners p;
     socket := socket p; notified := notified p |}.

Definition socket_call (c : Socket.call) (p : proxy) : proxy :=
  {| override := override p; isStopping := isStopping p; listeners := listeners p;
     socket := socket p ++ [c]; notified := notified p |}.

Definition notify (n : notification) (p : proxy) : proxy :=
  {| override := override p; isStopping := isStopping p; listeners := listeners p;
     socket := socket p; notified := notified p ++ [n] |}.

Definition add_listeners (addressSecondary : option AddressData) (p : proxy) : proxy :=
  {| override := override p; isStopping := isStopping p;
     listeners := listeners p ++ [addressSecondary];
     socket := socket p; notified := notified p |}.

(** [this.socket.connect(address.port, address.host)] *)
Definition connect (a : AddressData) (p : proxy) : proxy :=
  socket_call (Socket.SockConnect (port a) (host a)) p.

(** [this.override.fallback ? parseAddress(this.override.fallback) : undefined]:
    a missing fallback and the empty string are both falsy. *)
Definition override_secondary (fallback : option string) : option AddressData :=
  match fallback with
  | Some s => if String.eqb s EmptyString then None else Some (parseAddress s)
  | None => None
  end.

(** [start()], with the secure storage it reads.  Its first statement
    assigns [true] to [isStopping] (under the comment "Resetting the
    isStopping flag"). *)
Definition start (ls : storage) (p : proxy) : proxy :=
  let p := set_isStopping true p in
  let open (addressPrimary : AddressData) (addressSecondary : option AddressData) :=
    add_listeners addressSecondary (connect addressPrimary p) in
  match override p with
  | Some o =>
      open (parseAddress (primary o)) (override_secondary (fallback o))
  | None =>
      match ls ServerAddress with
      | None => notify (NotifyClose Connection) p
      | Some addressPrimaryStr =>
          open (parseAddress addressPrimaryStr)
               (parseAddress <$> ls ServerAddressFallback)
      end
  end.

(** One "close" handler, with the [addressSecondary] of its closure. *)
Definition on_close (addressSecondary : option AddressData) (p : proxy) : proxy :=
  match negb (isStopping p), addressSecondary with
  | true, Some a => connect a p
  | _, _ => notify (NotifyClose Connection) p
  end.

(** The socket emits "close": every registered handler runs, in the order
    of registration. *)
Definition socket_closed (p : proxy) : proxy :=
  fold_left (fun q a => on_close a q) (listeners p) p.

(** The socket emits "connect". *)
Definition socket_connected (p : proxy) : proxy :=
  fold_left (fun q _ => notify NotifyOpen q) (listeners p) p.

(** [stop()]: the flag, then [socket.end(callback)]. *)
Definition stop (p : proxy) : proxy :=
  socket_call Socket.SockEnd (set_isStopping true p).

(** The callback of [socket.end]: [socket.destroy()]. *)
Definition socket_ended (p : proxy) : proxy :=
  socket_call Socket.SockDestroy p.

(** What can happen to an instance. *)
Inductive event : Type :=
| Start (ls : storage)
| Stop
| SocketConnected
| SocketClosed
| SocketEnded.

Definition step (p : proxy) (e : event) : proxy :=
  match e with
  | Start ls => start ls p
  | Stop => stop p
  | SocketConnected => socket_connected p
  | SocketClosed => socket_closed p
  | SocketEnded => socket_ended p
  end.

Definition run (es : list event) (p : proxy) : proxy := fold_left step es p.

(** The connection attempts among the calls made on the socket. *)
Definition connects (calls : list Socket.call) : list (JS.number * string) :=
  flat_map (fun c => match c with
                     | Socket.SockConnect port host => [(port, host)]
                     | _ => []
                     end) calls.

End DataProxyTCP.

(* ===================================================================== *)
(** * 8. [ConnectionConfigDialog]: what the dialog asks of the connection manager *)
(* ===================================================================== *)

Module ConnectionConfigDialog.
Import DataProxyTCP.

(** The calls the dialog makes on its collaborators, in order. *)
Inductive call : Type :=
| SetDataProxy (o : AddressOverride)
| SetDisableAutomaticReconnections (v : bool)
| SetCryptoPassword (password : string)
| SetSecureLS (key : SecureStorageKey) (value : option string)
| ManagerConnect
| OnApplyConfig.

Inductive ConnectionState : Type :=
| Connecting
| Connected
| Disconnected (reason : option ConnectionErrorCode).

(** The component's state, the [then] callbacks of [submitForm] that have
    not run yet, the calls made so far, and the connection manager's flag. *)
Record dialog : Type := {
  connectionState : ConnectionState;
  address : string;
  fallbackAddress : string;
  password : string;
  awaitingStorage : nat;
  calls : list call;
  disableAutomaticReconnections : bool
}.

Definition initial : dialog :=
  {| connectionState := Disconnected None;
     address := EmptyString; fallbackAddress := EmptyString; password := EmptyString;
     awaitingStorage := 0%nat; calls := [];
     disableAutomaticReconnections := false |}.

Definition update (d : dialog) (state : ConnectionState) (a f pw : string) : dialog :=
  {| connectionState := state; address := a; fallbackAddress := f; password := pw;
     awaitingStorage := awaitingStorage d; calls := calls d;
     disableAutomaticReconnections := disableAutomaticReconnections d |}.

Definition called (c : call) (d : dialog) : dialog :=
  {| connectionState := connectionState d; address := address d;
     fallbackAddress := fallbackAddress d; password := password d;
     awaitingStorage := awaitingStorage d; calls := calls d ++ [c];
     disableAutomaticReconnections := disableAutomaticReconnections d |}.

(** Modelled from the spec: [ConnectionManager.setDisableAutomaticReconnections]
    is not among the sources; the specification calls it a settable flag
    that suppresses automatic reconnection, so the call stores its argument. *)
Definition setDisableAutomaticReconnections (v : bool) (d : dialog) : dialog :=
  let d := called (SetDisableAutomaticReconnections v) d in
  {| connectionState := connectionState d; address := address d;
     fallbackAddress := fallbackAddress d; password := password d;
     awaitingStorage := awaitingStorage d; calls := calls d;
     disableAutomaticReconnections := v |}.

(** The argument of the latest [setDisableAutomaticReconnections] call
    among [cs], if there is one. *)
Definition last_setting (cs : list call) : option bool :=
  fold_left (fun acc c => match c with
                          | SetDisableAutomaticReconnections v => Some v
                          | _ => acc
                          end) cs None.

Definition set_awaitingStorage (n : nat) (d : dialog) : dialog :=
  {| connectionState := connectionState d; address := address d;
     fallbackAddress := fallbackAddress d; password := password d;
     awaitingStorage := n; calls := calls d;
     disableAutomaticReconnections := disableAutomaticReconnections d |}.

Section Dialog.

(** [s.match(regexInternetAddress)] finds a match. *)
Variable matchesInternetAddress : string -> bool.

Definition inputValid (d : dialog) : bool :=
  matchesInternetAddress (address d)
  && ((String.length (fallbackAddress d) =? 0)%nat
      || matchesInternetAddress (fallbackAddress d))
  && (0 <? String.length (password d))%nat.

(** [submitForm]: up to and including the four calls inside [Promise.all];
    the [then] callback is left waiting. *)
Definition submitForm (d : dialog) : dialog :=
  if negb (inputValid d) then d
  else
    let addressClean := address d in
    let addressFallbackClean :=
      if (0 <? String.length (fallbackAddress d))%nat
      then Some (fallbackAddress d) else None in
    let d := called (SetDataProxy {| primary := addressClean;
                                     fallback := addressFallbackClean |}) d in
    let d := setDisableAutomaticReconnections true d in
    let d := called (SetCryptoPassword (password d)) d in
    let d := called (SetSecureLS ServerAddress (Some addressClean)) d in
    let d := called (SetSecureLS ServerAddressFallback addressFallbackClean) d in
    let d := called (SetSecureLS ServerPassword (Some (password d))) d in
    set_awaitingStorage (S (awaitingStorage d)) d.

(** The [then] callback of [submitForm]: [ConnectionManager.connect()]. *)
Definition storageDone (d : dialog) : dialog :=
  match awaitingStorage d with
  | O => d
  | S n => called ManagerConnect (set_awaitingStorage n d)
  end.

(** One of the four promises was rejected: the callback never runs. *)
Definition storageFailed (d : dialog) : dialog :=
  set_awaitingStorage (Nat.pred (awaitingStorage d)) d.

(** [finish], the handler of the Done button. *)
Definition finish (d : dialog) : dialog :=
  called OnApplyConfig (setDisableAutomaticReconnections false d).

Inductive event : Type :=
| EditAddress (s : string)
| EditFallbackAddress (s : string)
| EditPassword (s : string)
| SubmitForm
| StorageDone
| StorageFailed
| Finish
| OnConnecting
| OnOpen
| OnClose (reason : ConnectionErrorCode).

Definition is_finish (e : event) : bool :=
  match e with
  | Finish => true
  | _ => false
  end.

Definition is_submit (e : event) : bool :=
  match e with
  | SubmitForm => true
  | _ => false
  end.

Definition step (d : dialog) (e : event) : dialog :=
  match e with
  | EditAddress s => update d (connectionState d) s (fallbackAddress d) (password d)
  | EditFallbackAddress s => update d (connectionState d) (address d) s (password d)
  | EditPassword s => update d (connectionState d) (address d) (fallbackAddress d) s
  | SubmitForm => submitForm d
  | StorageDone => storageDone d
  | StorageFailed => storageFailed d
  | Finish => finish d
  | OnConnecting => update d Connecting (address d) (fallbackAddress d) (password d)
  | OnOpen => update d Connected (address d) (fallbackAddress d) (password d)
  | OnClose reason =>
      update d (Disconnected (Some reason)) (address d) (fallbackAddress d) (password d)
  end.

Definition run (es : list event) (d : dialog) : dialog := fold_left step es d.

End Dialog.

End ConnectionConfigDialog.

(* ===================================================================== *)
(** * 9. [send]: promises, the microtask queue and the chain on [previousEncrypt] *)
(* ===================================================================== *)

Module SendPipeline.

(** A promise is named by its place in the store. *)
Abbreviation pid := nat.

(** What the promises of [send] are fulfilled with. *)
Inductive value : Type :=
| Undefined
| Buffer (data : list byte).

(** What waits on a promise.  The continuations are those of [send]:
    - [ResumeSend]: line 61 after its [await], [writeSync(<value>, true)];
    - [ThenCallback data encrypt derived]: the callback given to [then] on
      line 50, with the arguments of its [send] call and the promise
      [then] returned;
    - [ResumeCallback result]: line 53 after its [await], inside the
      callback whose own promise is [result];
    - [ResolveDerived derived]: the resolving function of [derived], which
      [then] hands to the promise its callback returned. *)
Inductive reaction : Type :=
| ResumeSend
| ThenCallback (data : list byte) (encrypt : bool) (derived : pid)
| ResumeCallback (result : pid)
| ResolveDerived (derived : pid).

(** The jobs of the microtask queue: a reaction with the value its promise
    was fulfilled with, and the job that makes [derived] follow [result]
    (a promise resolved with a promise). *)
Inductive job : Type :=
| Reaction (k : reaction) (v : value)
| Thenable (derived result : pid).

Inductive promise : Type :=
| Pending (reactions : list reaction)
| Fulfilled (v : value).

(** The instance and the part of the runtime it lives in: the promises,
    the encryptions under way (promise and plaintext), the microtask
    queue, the [previousEncrypt] field, and the calls made on the socket. *)
Record runtime : Type := {
  heap : list promise;
  encrypting : list (pid * list byte);
  microtasks : list job;
  previousEncrypt : option pid;
  socket : list Socket.call
}.

Definition initial : runtime :=
  {| heap := []; encrypting := []; microtasks := [];
     previousEncrypt := None; socket := [] |}.

Definition set_heap (h : list promise) (st : runtime) : runtime :=
  {| heap := h; encrypting := encrypting st; microtasks := microtasks st;
     previousEncrypt := previousEncrypt st; socket := socket st |}.

Definition set_encrypting (e : list (pid * list byte)) (st : runtime) : runtime :=
  {| heap := heap st; encrypting := e; microtasks := microtasks st;
     previousEncrypt := previousEncrypt st; socket := socket st |}.

Definition set_microtasks (m : list job) (st : runtime) : runtime :=
  {| heap := heap st; encrypting := encrypting st; microtasks := m;
     previousEncrypt := previousEncrypt st; socket := socket st |}.

Definition set_previousEncrypt (p : option pid) (st : runtime) : runtime :=
  {| heap := heap st; encrypting := encrypting st; microtasks := microtasks st;
     previousEncrypt := p; socket := socket st |}.

Definition set_socket (s : list Socket.call) (st : runtime) : runtime :=
  {| heap := heap st; encrypting := encrypting st; microtasks := microtasks st;
     previousEncrypt := previousEncrypt st; socket := s |}.

(** A new promise. *)
Definition alloc (s : promise) (st : runtime) : pid * runtime :=
  (length (heap st), set_heap (heap st ++ [s]) st).

Definition enqueue (j : job) (st : runtime) : runtime :=
  set_microtasks (microtasks st ++ [j]) st.

(** [await p] and [p.then(...)]: the reaction joins those waiting on a
    pending promise, after them; on a fulfilled one it is queued at once. *)
Definition register (p : pid) (k : reaction) (st : runtime) : runtime :=
  match heap st !! p with
  | Some (Pending ks) => set_heap (<[p := Pending (ks ++ [k])]> (heap st)) st
  | Some (Fulfilled v) => enqueue (Reaction k v) st
  | None => st
  end.

(** Fulfilling a promise queues its reactions in the order they were
    registered. *)
Definition fulfil (p : pid) (v : value) (st : runtime) : runtime :=
  match heap st !! p with
  | Some (Pending ks) =>
      set_microtasks (microtasks st ++ map (fun k => Reaction k v) ks)
        (set_heap (<[p := Fulfilled v]> (heap st)) st)
  | _ => st
  end.

(** [this.writeSync(data, isEncrypted)] *)
Definition writeSync (v : value) (isEncrypted : bool) (st : runtime) : runtime :=
  match v with
  | Buffer data => set_socket (Framing.writeSync data isEncrypted (socket st)) st
  | Undefined => st
  end.

(** [encryptData(data)] returns a promise at once; the ciphertext comes later. *)
Definition call_encryptData (data : list byte) (st : runtime) : pid * runtime :=
  let '(p, st) := alloc (Pending []) st in
  (p, set_encrypting (encrypting st ++ [(p, data)]) st).

(** [send(data, encrypt)], up to its first [await] or its return. *)
Definition send (data : list byte) (encrypt : bool) (st : runtime) : runtime :=
  match previousEncrypt st with
  | Some previous =>
      let '(derived, st) := alloc (Pending []) st in
      set_previousEncrypt (Some derived)
        (register previous (ThenCallback data encrypt derived) st)
  | None =>
      if encrypt then
        let '(p, st) := call_encryptData data st in
        register p ResumeSend (set_previousEncrypt (Some p) st)
      else
        writeSync (Buffer data) false st
  end.

(** One job of the microtask queue. *)
Definition run_job (j : job) (st : runtime) : runtime :=
  match j with
  | Reaction ResumeSend v => writeSync v true st
  | Reaction (ThenCallback data encrypt derived) _ =>
      if encrypt then
        let '(result, st) := alloc (Pending []) st in
        let '(p, st) := call_encryptData data st in
        let st := register p (ResumeCallback result) st in
        enqueue (Thenable derived result) st
      else
        let st := writeSync (Buffer data) false st in
        let '(result, st) := alloc (Fulfilled Undefined) st in
        enqueue (Thenable derived result) st
  | Reaction (ResumeCallback result) v =>
      fulfil result Undefined (writeSync v true st)
  | Reaction (ResolveDerived derived) v => fulfil derived v st
  | Thenable derived result => register result (ResolveDerived derived) st
  end.

Definition tick (st : runtime) : option runtime :=
  match microtasks st with
  | [] => None
  | j :: rest => Some (run_job j (set_microtasks rest st))
  end.

(** The encryption behind [p], taken out of those under way. *)
Fixpoint take_encrypting (p : pid) (l : list (pid * list byte))
    : option (list byte * list (pid * list byte)) :=
  match l with
  | [] => None
  | (p', data) :: l' =>
      if Nat.eqb p p' then Some (data, l')
      else match take_encrypting p l' with
           | Some (d, rest) => Some (d, (p', data) :: rest)
           | None => None
           end
  end.

Section Encryption.

(** The ciphertext [encryptData] produces; when it produces it is up to
    the environment.  Encryptions are taken to succeed: a rejected promise
    runs none of the continuations below, so it writes nothing. *)
Variable encryptData : list byte -> list byte.

Definition encrypted (p : pid) (st : runtime) : option runtime :=
  match take_encrypting p (encrypting st) with
  | Some (data, rest) =>
      Some (fulfil p (Buffer (encryptData data)) (set_encrypting rest st))
  | None => None
  end.

(** What can happen: a call of [send], an encryption completing, and the
    next microtask running.  A step that cannot happen gives [None]. *)
Inductive label : Type :=
| Send (data : list byte) (encrypt : bool)
| Encrypted (p : pid)
| Tick.

Definition step (st : runtime) (l : label) : option runtime :=
  match l with
  | Send data encrypt => Some (send data encrypt st)
  | Encrypted p => encrypted p st
  | Tick => tick st
  end.

Fixpoint run (ls : list label) (st : runtime) : option runtime :=
  match ls with
  | [] => Some st
  | l :: ls' =>
      match step st l with
      | Some st' => run ls' st'
      | None => None
      end
  end.

Definition is_send (l : label) : bool :=
  match l with
  | Send _ _ => true
  | _ => false
  end.

(** What the runtime does next when no [send] call comes in: the first
    microtask if there is one, else the completion of an encryption. *)
Definition next_label (st : runtime) : option label :=
  match microtasks st, encrypting st with
  | _ :: _, _ => Some Tick
  | [], (p, _) :: _ => Some (Encrypted p)
  | [], [] => None
  end.

(** The frame a [send] call is to put on the wire. *)
Definition frame_of (data : list byte) (encrypt : bool) : Socket.call :=
  Socket.SockWrite
    (Framing.frame (if encrypt then encryptData data else data) encrypt).

(** The frames of the [send] calls of a history, in the order of the calls. *)
Definition submitted (ls : list label) : list Socket.call :=
  flat_map (fun l => match l with
                     | Send data encrypt => [frame_of data encrypt]
                     | _ => []
                     end) ls.

End Encryption.

End SendPipeline.

(** A stand-in for the cipher, to run the pipeline on examples. *)
Module Samples.

Definition rot (data : list byte) : list byte := rev data.

End Samples.

(* ===================================================================== *)
(** * 10. The shape of the runtime between two steps of [send]'s pipeline *)
(* ===================================================================== *)

(** Once [previousEncrypt] is set, the promises of the pipeline form a
    chain: a promise [x] at the front, with the work still tied to it
    (the [head]), and behind it one [cell] per [send] call whose callback
    has not started, each waiting on the promise before it. *)
Module SendShape.
Import SendPipeline.

Record cell : Type := {
  c_data : list byte;
  c_encrypt : bool;
  c_derived : pid
}.

Definition callback (c : cell) : reaction :=
  ThenCallback (c_data c) (c_encrypt c) (c_derived c).

(** What waits on the promise in front of the cells [cs]; [e] waits on the
    last promise. *)
Definition next_or (cs : list cell) (e : list reaction) : list reaction :=
  match cs with
  | [] => e
  | c :: _ => [callback c]
  end.

Definition next (cs : list cell) : list reaction := next_or cs [].

(** Each cell's promise is pending, with the next cell's callback waiting
    on it. *)
Fixpoint linked_to (h : list promise) (cs : list cell) (e : list reaction) : Prop :=
  match cs with
  | [] => True
  | c :: cs' =>
      h !! c_derived c = Some (Pending (next_or cs' e)) /\ linked_to h cs' e
  end.

Definition linked (h : list promise) (cs : list cell) : Prop := linked_to h cs [].

Definition deriveds (cs : list cell) : list pid := map c_derived cs.

(** The promise [previousEncrypt] holds: the last of the chain. *)
Definition tail_of (x : pid) (cs : list cell) : pid := List.last (deriveds cs) x.

(** What the front of the chain is doing. *)
Inductive head : Type :=
| RootEncrypting (data : list byte)          (* the first encrypted send awaits its ciphertext *)
| RootResume (w : list byte)                 (* ... and is queued to resume with it *)
| Ready (v : value)                          (* [x] is fulfilled *)
| PlainThenable (r : pid) (v : value)        (* a callback wrote and returned [r], fulfilled *)
| Resolving (v : value)                      (* [x] is queued to be fulfilled *)
| EncThenable (r p : pid) (data : list byte) (* a callback awaits ciphertext [p]; [x] not yet tied to [r] *)
| EncWaiting (r p : pid) (data : list byte)  (* ... [x] tied to [r] *)
| EncDoneThenable (r : pid) (w : list byte)  (* ciphertext there, callback queued; [x] not yet tied to [r] *)
| EncDone (r : pid) (w : list byte).         (* ... [x] tied to [r] *)

(** The reactions registered on a pending [x] ahead of the cells, or
    [None] when [x] is fulfilled. *)
Definition head_pre (h : head) : option (list reaction) :=
  match h with
  | RootEncrypting _ => Some [ResumeSend]
  | RootResume _ | Ready _ => None
  | _ => Some []
  end.

Definition head_value (h : head) : value :=
  match h with
  | RootResume w => Buffer w
  | Ready v => v
  | _ => Undefined
  end.

Definition x_state (h : head) (nx : list reaction) : promise :=
  match head_pre h with
  | Some pre => Pending (pre ++ nx)
  | None => Fulfilled (head_value h)
  end.

(** The head's own jobs in the microtask queue. *)
Definition head_jobs (x : pid) (h : head) : list job :=
  match h with
  | RootResume w => [Reaction ResumeSend (Buffer w)]
  | PlainThenable r _ => [Thenable x r]
  | Resolving v => [Reaction (ResolveDerived x) v]
  | EncThenable r _ _ => [Thenable x r]
  | EncDoneThenable r w => [Thenable x r; Reaction (ResumeCallback r) (Buffer w)]
  | EncDone r w => [Reaction (ResumeCallback r) (Buffer w)]
  | _ => []
  end.

(** The whole queue: the head's jobs, then the first cell's callback if
    [x] is fulfilled. *)
Definition head_tasks (x : pid) (h : head) (nx : list reaction) : list job :=
  head_jobs x h
  ++ match head_pre h with
     | Some _ => []
     | None => map (fun k => Reaction k (head_value h)) nx
     end.

Definition head_encrypting (x : pid) (h : head) : list (pid * list byte) :=
  match h with
  | RootEncrypting data => [(x, data)]
  | EncThenable _ p data | EncWaiting _ p data => [(p, data)]
  | _ => []
  end.

(** The promises the head holds besides [x]. *)
Definition head_owns (h : head) : list pid :=
  match h with
  | PlainThenable r _ => [r]
  | EncThenable r p _ | EncWaiting r p _ => [r; p]
  | EncDoneThenable r _ | EncDone r _ => [r]
  | _ => []
  end.

Definition head_extra (hp : list promise) (x : pid) (h : head) : Prop :=
  match h with
  | PlainThenable r v => hp !! r = Some (Fulfilled v)
  | EncThenable r p _ =>
      hp !! r = Some (Pending []) /\ hp !! p = Some (Pending [ResumeCallback r])
  | EncWaiting r p _ =>
      hp !! r = Some (Pending [ResolveDerived x])
      /\ hp !! p = Some (Pending [ResumeCallback r])
  | EncDoneThenable r _ => hp !! r = Some (Pending [])
  | EncDone r _ => hp !! r = Some (Pending [ResolveDerived x])
  | _ => True
  end.

(** How far the chain is from having written everything: the microtasks
    and encryptions the head still needs, and those of a whole cell. *)
Definition head_weight (h : head) : nat :=
  match h with
  | Ready _ => 0
  | Resolving _ | RootResume _ => 1
  | PlainThenable _ _ | EncDone _ _ | RootEncrypting _ => 2
  | EncDoneThenable _ _ | EncWaiting _ _ _ => 3
  | EncThenable _ _ _ => 4
  end.

Definition weight (h : head) (cs : list cell) : nat :=
  head_weight h + 5 * length cs.

Section Shape.
Variable encryptData : list byte -> list byte.

(** The frame the head has still to write. *)
Definition head_frames (h : head) : list Socket.call :=
  match h with
  | RootEncrypting data | EncThenable _ _ data | EncWaiting _ _ data =>
      [frame_of encryptData data true]
  | RootResume w | EncDoneThenable _ w | EncDone _ w =>
      [Socket.SockWrite (Framing.frame w true)]
  | _ => []
  end.

Definition frames (cs : list cell) : list Socket.call :=
  map (fun c => frame_of encryptData (c_data c) (c_encrypt c)) cs.

Record chained (st : runtime) (x : pid) (h : head) (cs : list cell) : Prop := {
  ch_previous : previousEncrypt st = Some (tail_of x cs);
  ch_front : heap st !! x = Some (x_state h (next cs));
  ch_linked : linked (heap st) cs;
  ch_distinct : NoDup (head_owns h ++ x :: deriveds cs);
  ch_extra : head_extra (heap st) x h;
  ch_tasks : microtasks st = head_tasks x h (next cs);
  ch_encrypting : encrypting st = head_encrypting x h
}.

(** [shape st todo]: the runtime is between two steps, and [todo] are the
    frames of the [send] calls made so far that are not written yet, in
    the order of the calls. *)
Inductive shape (st : runtime) : list Socket.call -> Prop :=
| shape_fresh :
    previousEncrypt st = None -> microtasks st = [] -> encrypting st = [] ->
    shape st []
| shape_chained (x : pid) (h : head) (cs : list cell) :
    chained st x h cs -> shape st (head_frames h ++ frames cs).

End Shape.

End SendShape.

(* ===================================================================== *)
(** * 11. More on the read side: streams of frames and a handler at rest *)
(* ===================================================================== *)

Module FramingMore.
Import Bytes Framing.

(** Messages written one after the other with [writeSync], as the bytes
    the peer receives. *)
Definition stream (msgs : list submission) : list byte :=
  concat (map (fun m => frame (fst m) (snd m)) msgs).

(** A payload the handler can read back: not empty, and short enough for
    a signed 32-bit size. *)
Definition readable_payload (m : submission) : Prop :=
  (0 < length (fst m))%nat /\ Z.of_nat (length (fst m)) < 2 ^ 31.

(** The handler has nothing left it could read: fewer than five bytes
    while it waits for a header, fewer than the announced size while it
    waits for a body (or a size [socket.read] never serves). *)
Definition at_rest (r : reader) : Prop :=
  match messageData r with
  | None => (length (input r) < 5)%nat
  | Some md => size md <= 0 \/ Z.of_nat (length (input r)) < size md
  end.

(** The bytes the read side holds: those in the socket's buffer, and the
    five of a header it has read and not yet used. *)
Definition held (r : reader) : nat :=
  (length (input r) + match messageData r with
                      | Some _ => 5
                      | None => 0
                      end)%nat.

(** The bytes a list of messages takes on the wire. *)
Definition wire_size (out : list submission) : nat :=
  list_sum (map (fun m => (5 + length (fst m))%nat) out).

End FramingMore.

(* ===================================================================== *)
(** * 12. More on the life cycle: which [start()] calls open a connection *)
(* ===================================================================== *)

Module LifeCycleMore.
Import Address DataProxyTCP.

(** [start()] finds an address: an override was given to the constructor,
    or the secure storage holds a primary address. *)
Definition finds_address (override : option AddressOverride) (ls : storage) : bool :=
  match override, ls ServerAddress with
  | None, None => false
  | _, _ => true
  end.

(** The [start()] calls of a history that find an address. *)
Definition opening_starts (override : option AddressOverride) (es : list event) : nat :=
  length (List.filter (fun e => match e with
                           | Start ls => finds_address override ls
                           | _ => false
                           end) es).

(** The address whose port and host [start()] passes to [socket.connect]
    at line 105, when it finds one. *)
Definition primary_address (override : option AddressOverride) (ls : storage)
    : option AddressData :=
  match override with
  | Some o => Some (parseAddress (primary o))
  | None => parseAddress <$> ls ServerAddress
  end.

(** [socket.connect] takes the port of a [start()] call: an integer from 0
    to 65535.  For any other port it throws before a handler is
    registered, and [start] above is not that call. *)
Definition connect_accepted (override : option AddressOverride) (e : event) : bool :=
  match e with
  | Start ls =>
      match primary_address override ls with
      | Some a => valid_portb (port a)
      | None => true
      end
  | _ => true
  end.

(** What holds of an instance from its construction on: no handler is
    registered before the flag is set. *)
Definition guarded (p : proxy) : Prop :=
  listeners p = [] \/ isStopping p = true.

End LifeCycleMore.

(* ===================================================================== *)
(** * 13. More on [send]: histories with and without encrypted messages *)
(* ===================================================================== *)

Module SendMore.
Import SendPipeline.

(** A [send(data, true)] call is part of the history. *)
Definition has_encrypted_send (ls : list label) : bool :=
  existsb (fun l => match l with
                    | Send _ true => true
                    | _ => false
                    end) ls.

End SendMore.

(* ===================================================================== *)
(** * 14. [regexInternetAddress], the pattern the dialog checks addresses with *)
(* ===================================================================== *)

(** [ConnectionConfigDialog.tsx] keeps the pattern in a string and gives
    it to [String.prototype.match], which compiles it with no flag.  Its
    port and IPv4 parts are written in the fragment of module [Regex];
    the rest needs character sets, unbounded repetition, [^] and [\b]. *)
Module AddressPattern.
Import Regex JS Address.

(** A member of a character set [[...]]. *)
Inductive item : Type :=
| Range (lo hi : ascii)   (* lo-hi *)
| One (c : ascii)         (* a character, escaped or not *)
| WhiteSpace.             (* \s *)

Inductive pattern : Type :=
| Sub (r : regex)                  (* a part written in the fragment of [Regex] *)
| Chars (items : list item)        (* [...] *)
| Cat (p q : pattern)              (* p q *)
| Or (p q : pattern)               (* p|q *)
| Maybe (p : pattern)              (* p? *)
| Star (p : pattern)               (* p* *)
| Plus (p : pattern)               (* p+ *)
| AtLeast (n : nat) (p : pattern)  (* p{n,} *)
| Bos                              (* ^ (no multiline flag) *)
| WordBoundary.                    (* \b *)

Definition in_item (c : ascii) (i : item) : bool :=
  match i with
  | Range lo hi => in_class lo hi c
  | One c' => Ascii.eqb c' c
  | WhiteSpace => is_whitespace c
  end.

(** [\w]: the characters [\b] tells apart from the others. *)
Definition is_word (c : ascii) : bool :=
  in_class "a" "z" c || in_class "A" "Z" c || in_class "0" "9" c || Ascii.eqb c "_".

Definition is_word_at (i : nat) (s : string) : bool :=
  match String.get i s with
  | Some c => is_word c
  | None => false
  end.

(** [\b] at the position where [rest] starts in [full]: the characters on
    the two sides are not both word characters and not both others; past
    either end of the input counts as no word character. *)
Definition at_word_boundary (full rest : string) : bool :=
  let i := (String.length full - String.length rest)%nat in
  let a := match i with
           | O => false
           | S k => is_word_at k full
           end in
  let b := is_word_at 0 rest in
  xorb a b.

(** [star f fuel s]: every string left after applying [f] any number of
    times.  A round that takes nothing off is given up by the matcher, so
    every round shortens the string and [fuel] rounds, the length of [s],
    are all there can be. *)
Definition star (f : string -> list string) : nat -> string -> list string :=
  fix go (fuel : nat) (s : string) : list string :=
    match fuel with
    | O => [s]
    | S k =>
        flat_map (go k)
          (List.filter (fun s' => (String.length s' <? String.length s)%nat) (f s))
        ++ [s]
    end.

(** [residuals p full rest]: what can remain of [rest], a suffix of the
    input [full], once [p] has matched a prefix of it. *)
Fixpoint residuals (p : pattern) (full rest : string) : list string :=
  match p with
  | Sub r => Regex.residuals r rest
  | Chars items =>
      match rest with
      | String c t => if existsb (in_item c) items then [t] else []
      | EmptyString => []
      end
  | Cat p1 p2 => flat_map (residuals p2 full) (residuals p1 full rest)
  | Or p1 p2 => residuals p1 full rest ++ residuals p2 full rest
  | Maybe p1 => residuals p1 full rest ++ [rest]
  | Star p1 => star (residuals p1 full) (String.length rest) rest
  | Plus p1 =>
      flat_map (fun s => star (residuals p1 full) (String.length s) s)
               (residuals p1 full rest)
  | AtLeast n p1 =>
      flat_map (fun s => star (residuals p1 full) (String.length s) s)
               (iter (residuals p1 full) n rest)
  | Bos => if (String.length rest =? String.length full)%nat then [rest] else []
  | WordBoundary => if at_word_boundary full rest then [rest] else []
  end.

Definition matches_from (p : pattern) (full rest : string) : bool :=
  match residuals p full rest with
  | [] => false
  | _ :: _ => true
  end.

(** A match is tried from every position of the input, the end included. *)
Fixpoint search (p : pattern) (full rest : string) : bool :=
  matches_from p full rest ||
  match rest with
  | EmptyString => false
  | String _ t => search p full t
  end.

(** [s.match(p)] is not [null]. *)
Definition matches (p : pattern) (s : string) : bool := search p s s.

(** [[a-zA-Z0-9.\-_]] *)
Definition host_chars : pattern :=
  Chars [Range "a" "z"; Range "A" "Z"; Range "0" "9"; One "."; One "-"; One "_"].

(** [[a-zA-Z]] *)
Definition letter : pattern := Chars [Range "a" "z"; Range "A" "Z"].

(** [((www\.)?[a-zA-Z0-9.\-_]+(\.[a-zA-Z]{2,})+)] *)
Definition domain_name : pattern :=
  Cat (Sub (Opt (Seq (Lit "w") (Seq (Lit "w") (Seq (Lit "w") (Lit "."))))))
  (Cat (Plus host_chars)
       (Plus (Cat (Sub (Lit ".")) (AtLeast 2 letter)))).

(** [(?:25[0-5]|2[0-4][0-9]|[01]?[0-9][0-9]?)] *)
Definition octet : regex :=
  Alt (Seq (Lit "2") (Seq (Lit "5") (Class "0" "5")))
  (Alt (Seq (Lit "2") (Seq (Class "0" "4") digit))
       (Seq (Opt (Class "0" "1")) (Seq digit (Opt digit)))).

(** [(\b(?:(?:octet)\.){3}(?:octet)\b)] *)
Definition ipv4 : pattern :=
  Cat WordBoundary
  (Cat (Sub (Seq (Rep 3 3 (Seq octet (Lit "."))) octet))
       WordBoundary).

(** The optional group after the host: any number of characters of
    [[a-zA-Z0-9_\-\s./?%#&=]]. *)
Definition path : pattern :=
  Maybe (Star (Chars [Range "a" "z"; Range "A" "Z"; Range "0" "9"; One "_"; One "-";
                      WhiteSpace; One "."; One "/"; One "?"; One "%"; One "#";
                      One "&"; One "="])).

(** [(:(port number))?], with the port number of [regexPort] *)
Definition port_suffix : pattern := Sub (Opt (Seq (Lit ":") port_number)).

Definition regexInternetAddress : pattern :=
  Cat Bos (Cat (Or domain_name ipv4) (Cat path (Cat port_suffix (Sub Eos)))).

(** [checkAddressError(input)] *)
Definition checkAddressError (input : string) : bool :=
  (0 <? String.length input)%nat && negb (matches regexInternetAddress input).

(** Characters a pattern never takes. *)
Fixpoint regex_avoids (c : ascii) (r : regex) : bool :=
  match r with
  | Lit c' => negb (Ascii.eqb c' c)
  | Class lo hi => negb (in_class lo hi c)
  | Seq r1 r2 | Alt r1 r2 => regex_avoids c r1 && regex_avoids c r2
  | Opt r1 | Rep _ _ r1 => regex_avoids c r1
  | Eos => true
  end.

Fixpoint avoids (c : ascii) (p : pattern) : bool :=
  match p with
  | Sub r => regex_avoids c r
  | Chars items => negb (existsb (in_item c) items)
  | Cat p1 p2 | Or p1 p2 => avoids c p1 && avoids c p2
  | Maybe p1 | Star p1 | Plus p1 | AtLeast _ p1 => avoids c p1
  | Bos | WordBoundary => true
  end.

(** [pre] is what a match took off [s] to leave [s'], and holds no colon. *)
Definition span (s s' : string) : Prop :=
  exists pre, s = (pre ++ s')%string /\ PortSyntax.has_colon pre = false.

End AddressPattern.

(** The dialog with its pattern, and the proxy it creates. *)
Module DialogMore.
Import DataProxyTCP ConnectionConfigDialog AddressPattern.

Definition matchesInternetAddress : string -> bool := matches regexInternetAddress.

(** The addresses of an override passed the dialog's check. *)
Definition checked (o : AddressOverride) : Prop :=
  matchesInternetAddress (primary o) = true
  /\ match fallback o with
     | Some f => matchesInternetAddress f = true
     | None => True
     end.

(** The proxies handed to [ConnectionManager.setDataProxy], in order. *)
Definition proxies (cs : list call) : list proxy :=
  flat_map (fun c => match c with
                     | SetDataProxy o => [new (Some o)]
                     | _ => []
                     end) cs.

Definition is_connect (c : call) : bool :=
  match c with
  | ManagerConnect => true
  | _ => false
  end.

Definition is_setDataProxy (c : call) : bool :=
  match c with
  | SetDataProxy _ => true
  | _ => false
  end.

(** How many of the calls made so far satisfy [f]. *)
Definition count (f : call -> bool) (cs : list call) : nat :=
  length (List.filter f cs).

End DialogMore.

(* ===================================================================== *)
(** * 15. The [readable] handler with its decryption stage *)
(* ===================================================================== *)

(** The handler of section 6 with what it does to a body it has read
    (lines 135-154 of [dataProxy.ts]): plain bodies are notified at once
    as long as [previousDecrypt] is unset; the first encrypted body starts
    [decryptData] and leaves the handler waiting at its [await], inside
    the loop and before [messageData] is cleared; every body after that
    is chained on [previousDecrypt].  Promises and microtasks are those of
    section 9. *)
Module Inbound.
Import Bytes Framing.

Abbreviation pid := nat.

Inductive value : Type :=
| Undefined
| Buffer (data : list byte).

(** What waits on a promise:
    - [ResumeHandler]: the handler after the [await] of line 150,
      [notifyMessage(<value>, true)], then [messageData = undefined] and
      the loop again;
    - [ThenCallback data isEncrypted derived]: the callback given to
      [then] on line 139, with the body and the flag it captured and the
      promise [then] returned;
    - [ResumeCallback result]: line 142 after its [await], inside the
      callback whose own promise is [result];
    - [ResolveDerived derived]: the resolving function of [derived]. *)
Inductive reaction : Type :=
| ResumeHandler
| ThenCallback (data : list byte) (isEncrypted : bool) (derived : pid)
| ResumeCallback (result : pid)
| ResolveDerived (derived : pid).

Inductive job : Type :=
| Reaction (k : reaction) (v : value)
| Thenable (derived result : pid).

Inductive promise : Type :=
| Pending (reactions : list reaction)
| Fulfilled (v : value).

(** The read side of an instance after [start()]: the [messageData]
    variable and the socket's buffer, the [previousDecrypt] field, the
    promises, the decryptions under way (promise and ciphertext), the
    microtask queue, and the [notifyMessage] calls made so far.  [taken]
    is a record of the bodies "submitted" so far, each with the flag of
    its header, in the order they were read off the socket; the code
    keeps no such record, and nothing in the model reads it. *)
Record runtime : Type := {
  reader : Framing.reader;
  previousDecrypt : option pid;
  heap : list promise;
  decrypting : list (pid * list byte);
  microtasks : list job;
  notified : list (value * bool);
  taken : list submission
}.

Definition initial : runtime :=
  {| reader := Framing.initial; previousDecrypt := None; heap := [];
     decrypting := []; microtasks := []; notified := []; taken := [] |}.

Definition set_reader (r : Framing.reader) (st : runtime) : runtime :=
  {| reader := r; previousDecrypt := previousDecrypt st; heap := heap st;
     decrypting := decrypting st; microtasks := microtasks st;
     notified := notified st; taken := taken st |}.

Definition set_previousDecrypt (p : option pid) (st : runtime) : runtime :=
  {| reader := reader st; previousDecrypt := p; heap := heap st;
     decrypting := decrypting st; microtasks := microtasks st;
     notified := notified st; taken := taken st |}.

Definition set_heap (h : list promise) (st : runtime) : runtime :=
  {| reader := reader st; previousDecrypt := previousDecrypt st; heap := h;
     decrypting := decrypting st; microtasks := microtasks st;
     notified := notified st; taken := taken st |}.

Definition set_decrypting (d : list (pid * list byte)) (st : runtime) : runtime :=
  {| reader := reader st; previousDecrypt := previousDecrypt st; heap := heap st;
     decrypting := d; microtasks := microtasks st; notified := notified st;
     taken := taken st |}.

Definition set_microtasks (m : list job) (st : runtime) : runtime :=
  {| reader := reader st; previousDecrypt := previousDecrypt st; heap := heap st;
     decrypting := decrypting st; microtasks := m; notified := notified st;
     taken := taken st |}.

(** [this.notifyMessage(data, isEncrypted)] *)
Definition notifyMessage (v : value) (isEncrypted : bool) (st : runtime) : runtime :=
  {| reader := reader st; previousDecrypt := previousDecrypt st; heap := heap st;
     decrypting := decrypting st; microtasks := microtasks st;
     notified := notified st ++ [(v, isEncrypted)]; taken := taken st |}.

Definition record_taken (m : submission) (st : runtime) : runtime :=
  {| reader := reader st; previousDecrypt := previousDecrypt st; heap := heap st;
     decrypting := decrypting st; microtasks := microtasks st;
     notified := notified st; taken := taken st ++ [m] |}.

(** [messageData = ...] *)
Definition set_messageData (md : option MessageData) (st : runtime) : runtime :=
  set_reader {| messageData := md; input := input (reader st) |} st.

Definition set_input (buf : list byte) (st : runtime) : runtime :=
  set_reader {| messageData := messageData (reader st); input := buf |} st.

Definition alloc (s : promise) (st : runtime) : pid * runtime :=
  (length (heap st), set_heap (heap st ++ [s]) st).

Definition enqueue (j : job) (st : runtime) : runtime :=
  set_microtasks (microtasks st ++ [j]) st.

(** [await p] and [p.then(...)] *)
Definition register (p : pid) (k : reaction) (st : runtime) : runtime :=
  match heap st !! p with
  | Some (Pending ks) => set_heap (<[p := Pending (ks ++ [k])]> (heap st)) st
  | Some (Fulfilled v) => enqueue (Reaction k v) st
  | None => st
  end.

Definition fulfil (p : pid) (v : value) (st : runtime) : runtime :=
  match heap st !! p with
  | Some (Pending ks) =>
      set_microtasks (microtasks st ++ map (fun k => Reaction k v) ks)
        (set_heap (<[p := Fulfilled v]> (heap st)) st)
  | _ => st
  end.

(** [decryptData(data)] returns a promise at once; the plaintext comes later. *)
Definition call_decryptData (data : list byte) (st : runtime) : pid * runtime :=
  let '(p, st) := alloc (Pending []) st in
  (p, set_decrypting (decrypting st ++ [(p, data)]) st).

(** "Submitting the message" (lines 135-154), with the body [data] and
    the flag of [messageData]; the boolean tells that the handler is left
    waiting at its [await]. *)
Definition submit (data : list byte) (isEncrypted : bool) (st : runtime)
    : runtime * bool :=
  let st := record_taken (data, isEncrypted) st in
  match previousDecrypt st with
  | Some previous =>
      let '(derived, st) := alloc (Pending []) st in
      (set_previousDecrypt (Some derived)
         (register previous (ThenCallback data isEncrypted derived) st), false)
  | None =>
      if isEncrypted then
        let '(p, st) := call_decryptData data st in
        (register p ResumeHandler (set_previousDecrypt (Some p) st), true)
      else
        (notifyMessage (Buffer data) false st, false)
  end.

(** The [while(true)] loop, from its top, until it breaks or waits. *)
Fixpoint handler_loop (fuel : nat) (st : runtime) : option runtime :=
  match fuel with
  | O => None
  | S fuel' =>
      match messageData (reader st) with
      | None =>
          match Socket.read (4 + 1) (input (reader st)) with
          | (None, _) => Some st
          | (Some data, rest) =>
              handler_loop fuel'
                (set_messageData (Some (parse_header data)) (set_input rest st))
          end
      | Some md =>
          match Socket.read (size md) (input (reader st)) with
          | (None, _) => Some st
          | (Some data, rest) =>
              let '(st, waiting) := submit data (isEncrypted md) (set_input rest st) in
              if waiting then Some st
              else handler_loop fuel' (set_messageData None st)
          end
      end
  end.

(** Every round that goes on takes at least one byte off the socket. *)
Definition handler_fuel (st : runtime) : nat := S (length (input (reader st))).

(** One [readable] event: [chunk] has arrived on the socket. *)
Definition readable (chunk : list byte) (st : runtime) : option runtime :=
  let st := set_input (input (reader st) ++ chunk) st in
  handler_loop (handler_fuel st) st.

(** One job of the microtask queue. *)
Definition run_job (j : job) (st : runtime) : option runtime :=
  match j with
  | Reaction ResumeHandler v =>
      let st := set_messageData None (notifyMessage v true st) in
      handler_loop (handler_fuel st) st
  | Reaction (ThenCallback data isEncrypted derived) _ =>
      if isEncrypted then
        let '(result, st) := alloc (Pending []) st in
        let '(p, st) := call_decryptData data st in
        let st := register p (ResumeCallback result) st in
        Some (enqueue (Thenable derived result) st)
      else
        let st := notifyMessage (Buffer data) false st in
        let '(result, st) := alloc (Fulfilled Undefined) st in
        Some (enqueue (Thenable derived result) st)
  | Reaction (ResumeCallback result) v =>
      Some (fulfil result Undefined (notifyMessage v true st))
  | Reaction (ResolveDerived derived) v => Some (fulfil derived v st)
  | Thenable derived result => Some (register result (ResolveDerived derived) st)
  end.

Definition tick (st : runtime) : option runtime :=
  match microtasks st with
  | [] => None
  | j :: rest => run_job j (set_microtasks rest st)
  end.

Fixpoint take_decrypting (p : pid) (l : list (pid * list byte))
    : option (list byte * list (pid * list byte)) :=
  match l with
  | [] => None
  | (p', data) :: l' =>
      if Nat.eqb p p' then Some (data, l')
      else match take_decrypting p l' with
           | Some (d, rest) => Some (d, (p', data) :: rest)
           | None => None
           end
  end.

Section Decryption.

(** The plaintext [decryptData] produces; when it produces it is up to
    the environment.  Decryptions are taken to succeed. *)
Variable decryptData : list byte -> list byte.

Definition decrypted (p : pid) (st : runtime) : option runtime :=
  match take_decrypting p (decrypting st) with
  | Some (data, rest) =>
      Some (fulfil p (Buffer (decryptData data)) (set_decrypting rest st))
  | None => None
  end.

(** What can happen: bytes arriving, a decryption completing, and the
    next microtask running.  A step that cannot happen gives [None]. *)
Inductive label : Type :=
| Readable (chunk : list byte)
| Decrypted (p : pid)
| Tick.

Definition step (st : runtime) (l : label) : option runtime :=
  match l with
  | Readable chunk => readable chunk st
  | Decrypted p => decrypted p st
  | Tick => tick st
  end.

Fixpoint run (ls : list label) (st : runtime) : option runtime :=
  match ls with
  | [] => Some st
  | l :: ls' =>
      match step st l with
      | Some st' => run ls' st'
      | None => None
      end
  end.

End Decryption.

(** The state after the handler has read [r] and notified the plain
    bodies [out]. *)
Definition delivered (r : Framing.reader) (out : list submission) (st : runtime)
    : runtime :=
  {| reader := r; previousDecrypt := previousDecrypt st; heap := heap st;
     decrypting := decrypting st; microtasks := microtasks st;
     notified := notified st ++ map (fun m => (Buffer (fst m), false)) out;
     taken := taken st ++ out |}.

(** The state in which the handler waits for its first decryption, of
    the body [data] read under the header [md]. *)
Definition waiting (md : MessageData) (rest data : list byte) (st : runtime)
    : runtime :=
  {| reader := {| messageData := Some md; input := rest |};
     previousDecrypt := Some (length (heap st));
     heap := heap st ++ [Pending [ResumeHandler]];
     decrypting := decrypting st ++ [(length (heap st), data)];
     microtasks := microtasks st;
     notified := notified st;
     taken := taken st ++ [(data, true)] |}.

Definition is_plain (m : submission) : bool := negb (snd m).

End Inbound.

(* ===================================================================== *)
(** * 16. The decryption stage read as the pipeline of [send] *)
(* ===================================================================== *)

(** The decryption stage is written like [send]: the same chain on a
    [previous...] field, with [notifyMessage] where [send] has
    [writeSync] and [decryptData] where it has [encryptData], and with
    the handler's loop going on where [send] returns.  The proofs about
    the order of the notifications go through this reading: the state of
    the read side is mapped to a state of the pipeline of section 9, a
    notification to the frame [writeSync] would write for it, and a body
    taken off the socket to a [send] call. *)
Module InboundChain.

Module S := SendPipeline.
Module I := Inbound.

Definition to_value (v : I.value) : S.value :=
  match v with
  | I.Undefined => S.Undefined
  | I.Buffer data => S.Buffer data
  end.

Definition to_reaction (k : I.reaction) : S.reaction :=
  match k with
  | I.ResumeHandler => S.ResumeSend
  | I.ThenCallback data isEncrypted derived => S.ThenCallback data isEncrypted derived
  | I.ResumeCallback result => S.ResumeCallback result
  | I.ResolveDerived derived => S.ResolveDerived derived
  end.

Definition to_job (j : I.job) : S.job :=
  match j with
  | I.Reaction k v => S.Reaction (to_reaction k) (to_value v)
  | I.Thenable derived result => S.Thenable derived result
  end.

Definition to_promise (p : I.promise) : S.promise :=
  match p with
  | I.Pending ks => S.Pending (map to_reaction ks)
  | I.Fulfilled v => S.Fulfilled (to_value v)
  end.

Definition note_frames (n : I.value * bool) : list Socket.call :=
  match fst n with
  | I.Buffer data => [Socket.SockWrite (Framing.frame data (snd n))]
  | I.Undefined => []
  end.

Definition to_pipeline (st : I.runtime) : S.runtime :=
  {| S.heap := map to_promise (I.heap st);
     S.encrypting := I.decrypting st;
     S.microtasks := map to_job (I.microtasks st);
     S.previousEncrypt := I.previousDecrypt st;
     S.socket := flat_map note_frames (I.notified st) |}.

Definition to_sends (bodies : list Framing.submission) : list S.label :=
  map (fun m => S.Send (fst m) (snd m)) bodies.

Definition is_buffer (n : I.value * bool) : Prop :=
  match fst n with
  | I.Buffer _ => True
  | I.Undefined => False
  end.

Definition payload (v : I.value) : list byte :=
  match v with
  | I.Buffer data => data
  | I.Undefined => []
  end.

Definition frame_note (n : I.value * bool) : Socket.call :=
  Socket.SockWrite (Framing.frame (payload (fst n)) (snd n)).

Section Decryption.
Variable decryptData : list byte -> list byte.

(** The [notifyMessage] call a body taken off the socket is due: the
    body as it is, or its plaintext, and the flag of its header. *)
Definition deliver (m : Framing.submission) : I.value * bool :=
  (I.Buffer (if snd m then decryptData (fst m) else fst m), snd m).

(** What holds between two steps of the read side. *)
Definition in_order (st : I.runtime) : Prop :=
  (exists todo,
     SendShape.shape decryptData (to_pipeline st) todo
     /\ S.socket (to_pipeline st) ++ todo = map frame_note (map deliver (I.taken st)))
  /\ Forall is_buffer (I.notified st).

End Decryption.

End InboundChain.

(* ===================================================================== *)
(** * 17. Runs in which nothing arrives while the handler waits *)
(* ===================================================================== *)

Module InboundCalm.
Import Framing Inbound.

Definition is_resume (k : reaction) : bool :=
  match k with
  | ResumeHandler => true
  | _ => false
  end.

Definition waits_in (p : promise) : nat :=
  match p with
  | Pending ks => length (List.filter is_resume ks)
  | Fulfilled _ => 0
  end.

Definition job_resumes (j : job) : nat :=
  match j with
  | Reaction ResumeHandler _ => 1
  | _ => 0
  end.

(** The runs of the handler that are suspended at the [await] of line
    150: waiting on a promise, or queued to go on. *)
Definition suspended (st : runtime) : nat :=
  (list_sum (map waits_in (heap st)) + list_sum (map job_resumes (microtasks st)))%nat.

Definition handler_waiting (st : runtime) : bool := (0 <? suspended st)%nat.

(** The chunks of a run, in the order they arrived. *)
Definition chunks_of (ls : list label) : list (list byte) :=
  flat_map (fun l => match l with
                     | Readable chunk => [chunk]
                     | _ => []
                     end) ls.

Section Decryption.
Variable decryptData : list byte -> list byte.

(** No [readable] event of the run comes while the handler waits. *)
Fixpoint calm (ls : list label) (st : runtime) : bool :=
  match ls with
  | [] => true
  | l :: ls' =>
      match l with
      | Readable _ => negb (handler_waiting st)
      | _ => true
      end
      && match step decryptData st l with
         | Some st' => calm ls' st'
         | None => true
         end
  end.

End Decryption.

(** What holds between two steps of a calm run, [r] and [out] being what
    the loop of section 6 makes of the chunks received so far. *)
Definition framed (r : Framing.reader) (out : list submission) (st : runtime) : Prop :=
  (suspended st <= 1)%nat
  /\ (previousDecrypt st = None -> suspended st = 0%nat)
  /\ (suspended st = 0%nat -> reader st = r /\ taken st = out)
  /\ (suspended st = 1%nat ->
      exists more,
        readable_loop (S (length (input (reader st))))
          {| messageData := None; input := input (reader st) |} []
        = Some (r, more)
        /\ taken st ++ more = out).

End InboundCalm.

(* ===================================================================== *)
(** * 18. Histories in which an encryption or a decryption may fail *)
(* ===================================================================== *)

Module SendOutcomes.
Import SendPipeline.

(** What can happen on the write side: a step of [SendPipeline] (a [send]
    call, an encryption fulfilled, a microtask), or the promise of an
    [encryptData] call being rejected. *)
Inductive outcome : Type :=
| Happens (l : label)
| EncryptionRejected (p : pid).

(** The promise of the [encryptData] call [p] is rejected.  [send]
    registers no rejection handler (lines 49-61): the [await] on that
    promise throws inside its [async] function, and [then] with one
    argument runs nothing on a rejected promise, nor on the promises
    derived from it.  So the continuations that wait on [p], in the store,
    are never run: the call is no longer under way, and the store stays
    as it is.  The jobs the runtime queues to pass the rejection on run no
    statement of [send] and are left out. *)
Definition rejected (p : pid) (st : runtime) : option runtime :=
  match take_encrypting p (encrypting st) with
  | Some (_, rest) => Some (set_encrypting rest st)
  | None => None
  end.

Section Encryption.
Variable encryptData : list byte -> list byte.

Definition step_outcome (st : runtime) (o : outcome) : option runtime :=
  match o with
  | Happens l => step encryptData st l
  | EncryptionRejected p => rejected p st
  end.

Fixpoint run_outcomes (hs : list outcome) (st : runtime) : option runtime :=
  match hs with
  | [] => Some st
  | o :: hs' =>
      match step_outcome st o with
      | Some st' => run_outcomes hs' st'
      | None => None
      end
  end.

End Encryption.

(** No promise of [encryptData] is rejected in the history. *)
Definition fulfilled_only (hs : list outcome) : bool :=
  forallb (fun o => match o with
                    | Happens _ => true
                    | EncryptionRejected _ => false
                    end) hs.

(** The steps of a history, its rejections left out. *)
Definition labels (hs : list outcome) : list label :=
  flat_map (fun o => match o with
                     | Happens l => [l]
                     | EncryptionRejected _ => []
                     end) hs.

End SendOutcomes.

Module InboundOutcomes.
Import Inbound.

(** What can happen on the read side: a step of [Inbound] (bytes
    arriving, a decryption fulfilled, a microtask), or the promise of a
    [decryptData] call being rejected. *)
Inductive outcome : Type :=
| Happens (l : label)
| DecryptionRejected (p : pid).

(** The promise of the [decryptData] call [p] is rejected.  The handler
    registers no rejection handler (lines 136-150): the [await] on that
    promise throws inside its [async] function, with [messageData] as it
    is, and [then] with one argument runs nothing on a rejected promise,
    nor on the promises derived from it.  So the continuations that wait
    on [p], in the store, are never run: the call is no longer under way,
    and the store stays as it is. *)
Definition rejected (p : pid) (st : runtime) : option runtime :=
  match take_decrypting p (decrypting st) with
  | Some (_, rest) => Some (set_decrypting rest st)
  | None => None
  end.

Section Decryption.
Variable decryptData : list byte -> list byte.

Definition step_outcome (st : runtime) (o : outcome) : option runtime :=
  match o with
  | Happens l => step decryptData st l
  | DecryptionRejected p => rejected p st
  end.

Fixpoint run_outcomes (hs : list outcome) (st : runtime) : option runtime :=
  match hs with
  | [] => Some st
  | o :: hs' =>
      match step_outcome st o with
      | Some st' => run_outcomes hs' st'
      | None => None
      end
  end.

End Decryption.

(** No promise of [decryptData] is rejected in the history. *)
Definition fulfilled_only (hs : list outcome) : bool :=
  forallb (fun o => match o with
                    | Happens _ => true
                    | DecryptionRejected _ => false
                    end) hs.

(** The steps of a history, its rejections left out. *)
Definition labels (hs : list outcome) : list label :=
  flat_map (fun o => match o with
                     | Happens l => [l]
                     | DecryptionRejected _ => []
                     end) hs.

End InboundOutcomes.

Module AddressExamples.
Import Regex JS Address.

Example parse_no_port :
  parseAddress "relay.example.com" = {| host := "relay.example.com"; port := Num 1359 |}.
Proof. vm_compute. reflexivity. Qed.

Example parse_with_port :
  parseAddress "10.0.0.5:2000" = {| host := "10.0.0.5"; port := Num 2000 |}.
Proof. vm_compute. reflexivity. Qed.

Example parse_port_65535 :
  parseAddress "h:65535" = {| host := "h"; port := Num 65535 |}.
Proof. vm_compute. reflexivity. Qed.

Example parse_port_65536 :
  parseAddress "h:65536" = {| host := "h:65536"; port := Num 1359 |}.
Proof. vm_compute. reflexivity. Qed.

Example parse_two_colons :
  parseAddress "a:b:80" = {| host := "a"; port := NaN |}.
Proof. vm_compute. reflexivity. Qed.

End AddressExamples.

Module FramingExamples.
Import Bytes Framing.

Example frame_abc :
  frame [x61; x62; x63] true = [x00; x00; x00; x03; x01; x61; x62; x63].
Proof. vm_compute. reflexivity. Qed.

Example read_abc :
  readable (frame [x61; x62; x63] true) initial
  = Some ({| messageData := None; input := [] |}, [([x61; x62; x63], true)]).
Proof. vm_compute. reflexivity. Qed.

Example read_empty :
  readable (frame [] false) initial
  = Some ({| messageData := Some {| size := 0; isEncrypted := false |}; input := [] |}, []).
Proof. vm_compute. reflexivity. Qed.

End FramingExamples.

Module SendExamples.
Import SendPipeline Samples.

(** An encrypted send followed by a plain one: the plain frame waits. *)
Example encrypted_then_plain :
  option_map socket
    (run rot [Send [x01; x02] true; Send [x03] false; Encrypted 0%nat; Tick; Tick] initial)
  = Some (submitted rot [Send [x01; x02] true; Send [x03] false]).
Proof. vm_compute. reflexivity. Qed.

Example encrypted_then_plain_early :
  option_map socket
    (run rot [Send [x01; x02] true; Send [x03] false; Encrypted 0%nat; Tick] initial)
  = Some [frame_of rot [x01; x02] true].
Proof. vm_compute. reflexivity. Qed.

Example three_sends :
  option_map socket
    (run rot [Send [x01] true; Send [x02] true; Send [x03] false;
              Encrypted 0%nat; Tick; Tick; Tick; Encrypted 4%nat; Tick; Tick;
              Tick] initial)
  = Some (submitted rot [Send [x01] true; Send [x02] true; Send [x03] false]).
Proof. vm_compute. reflexivity. Qed.

End SendExamples.

(* ===================================================================== *)
(** * Facts about bytes and the 32-bit header *)
(* ===================================================================== *)

Module BytesFacts.
Import Bytes.

Lemma Z_of_byte_range (b : byte) : 0 <= Z_of_byte b < 256.
Proof.
  unfold Z_of_byte. pose proof (Byte.to_N_bounded b) as H. lia.
Qed.

Lemma Z_of_byte_of_Z (z : Z) : Z_of_byte (byte_of_Z z) = z mod 256.
Proof.
  unfold Z_of_byte, byte_of_Z.
  assert (Hr : 0 <= z mod 256 < 256) by (apply Z.mod_pos_bound; lia).
  destruct (Byte.of_N (Z.to_N (z mod 256))) as [b|] eqn:E.
  - apply Byte.to_of_N in E. rewrite E. lia.
  - apply Byte.of_N_None_iff in E. lia.
Qed.

Lemma byte_of_Z_of_byte (b : byte) : byte_of_Z (Z_of_byte b) = b.
Proof.
  unfold byte_of_Z. pose proof (Z_of_byte_range b) as Hr.
  rewrite Z.mod_small by lia. unfold Z_of_byte. rewrite N2Z.id.
  now rewrite Byte.of_to_N.
Qed.

Lemma Z_of_byte_inj (a b : byte) : Z_of_byte a = Z_of_byte b -> a = b.
Proof.
  intros H. rewrite <- (byte_of_Z_of_byte a), <- (byte_of_Z_of_byte b). now rewrite H.
Qed.

Lemma toInt32_range (v : Z) : - 2 ^ 31 <= toInt32 v < 2 ^ 31.
Proof. unfold toInt32. pose proof (Z.mod_pos_bound (v + 2 ^ 31) (2 ^ 32)). lia. Qed.

Lemma toInt32_small (v : Z) : - 2 ^ 31 <= v < 2 ^ 31 -> toInt32 v = v.
Proof. intros H. unfold toInt32. rewrite Z.mod_small; lia. Qed.

Lemma toInt32_mod (v : Z) : toInt32 v mod 2 ^ 32 = v mod 2 ^ 32.
Proof.
  unfold toInt32.
  change (2 ^ 31) with 2147483648. change (2 ^ 32) with 4294967296.
  Z.div_mod_to_equations. lia.
Qed.

Lemma land_255 (z : Z) : Z.land z 255 = z mod 256.
Proof. change 255 with (Z.ones 8). now rewrite Z.land_ones by lia. Qed.

(** The four header bytes, as numbers. *)
Lemma int32_bytes_BE_values (v : Z) :
  map Z_of_byte (int32_bytes_BE v)
  = [ (v mod 2 ^ 32 / 2 ^ 24) mod 256; (v mod 2 ^ 32 / 2 ^ 16) mod 256;
      (v mod 2 ^ 32 / 2 ^ 8) mod 256; v mod 256 ].
Proof.
  unfold int32_bytes_BE, ushr. cbn [map].
  rewrite !Z_of_byte_of_Z, !land_255, !Z.shiftr_div_pow2 by lia.
  rewrite !Z.mod_mod by lia. reflexivity.
Qed.

(** Read as an unsigned big-endian number, the header is the value
    modulo 2^32. *)
Lemma uint32_of_int32_bytes (v : Z) (b0 b1 b2 b3 : byte) :
  int32_bytes_BE v = [b0; b1; b2; b3] ->
  uint32_of_bytes_BE b0 b1 b2 b3 = v mod 2 ^ 32.
Proof.
  intros H. pose proof (int32_bytes_BE_values v) as Hv. rewrite H in Hv.
  cbn [map] in Hv. injection Hv as H0 H1 H2 H3.
  unfold uint32_of_bytes_BE. rewrite H0, H1, H2, H3.
  change (2 ^ 32) with 4294967296. change (2 ^ 24) with 16777216.
  change (2 ^ 16) with 65536. change (2 ^ 8) with 256.
  Z.div_mod_to_equations. lia.
Qed.

(** [readInt32BE] gives back the signed value [writeInt32] stored. *)
Lemma readInt32BE_int32_bytes (v : Z) (rest : list byte) :
  readInt32BE (int32_bytes_BE (toInt32 v) ++ rest) 0 = toInt32 v.
Proof.
  pose proof (int32_bytes_BE_values (toInt32 v)) as Hv.
  unfold readInt32BE. cbn [drop app int32_bytes_BE] in *.
  injection Hv as H0 H1 H2 H3. rewrite H0, H1, H2, H3.
  rewrite Z.shiftl_mul_pow2 by lia.
  pose proof (toInt32_range v) as Hr. revert Hr. generalize (toInt32 v) as w.
  intros w Hr. unfold toInt32.
  change (2 ^ 32) with 4294967296 in *. change (2 ^ 31) with 2147483648 in *.
  change (2 ^ 24) with 16777216. change (2 ^ 16) with 65536. change (2 ^ 8) with 256.
  Z.div_mod_to_equations. lia.
Qed.

End BytesFacts.

(* ===================================================================== *)
(** * Facts about the frame writer *)
(* ===================================================================== *)

Module WriterFacts.
Import Bytes Framing BytesFacts.

(** A relative write that fits replaces the bytes under it. *)
Lemma put_fits (bs pre mid post : list byte) (bb : ByteBuffer.t) :
  ByteBuffer.buffer bb = pre ++ mid ++ post ->
  ByteBuffer.offset bb = length pre ->
  length mid = length bs ->
  ByteBuffer.put bs bb
  = {| ByteBuffer.buffer := pre ++ bs ++ post;
       ByteBuffer.offset := (length pre + length bs)%nat |}.
Proof.
  intros Hb Ho Hm. unfold ByteBuffer.put, ByteBuffer.ensure.
  rewrite Hb, Ho, !length_app.
  replace (length pre + length bs <=? length pre + (length mid + length post))%nat
    with true by (symmetry; apply Nat.leb_le; lia).
  f_equal. rewrite take_app_length. f_equal. f_equal.
  rewrite <- Hm, app_assoc, <- length_app. apply drop_app_length.
Qed.

(** The buffer [writeSync] builds is filled exactly: header, flag, payload. *)
Lemma frame_layout (data : list byte) (e : bool) :
  frame data e
  = int32_bytes_BE (toInt32 (Z.of_nat (length data))) ++ [flag_byte e] ++ data.
Proof.
  unfold frame, ByteBuffer.append, ByteBuffer.writeByte, ByteBuffer.writeInt.
  set (hdr := int32_bytes_BE (toInt32 (Z.of_nat (length data)))).
  assert (Hh : length hdr = 4%nat) by reflexivity.
  rewrite (put_fits hdr [] (repeat x00 4) (repeat x00 (1 + length data)))
    by (try reflexivity; unfold ByteBuffer.allocate; cbn [ByteBuffer.buffer];
        rewrite <- repeat_app; reflexivity).
  rewrite (put_fits [byte_of_Z (toInt32 (if e then 1 else 0))]
             hdr [x00] (repeat x00 (length data)))
    by reflexivity.
  rewrite (put_fits data (hdr ++ [byte_of_Z (toInt32 (if e then 1 else 0))])
             (repeat x00 (length data)) []);
    cbn [ByteBuffer.buffer ByteBuffer.offset].
  - rewrite app_nil_r, <- app_assoc. destruct e; reflexivity.
  - rewrite app_nil_r, <- app_assoc. reflexivity.
  - rewrite length_app, Hh. reflexivity.
  - apply repeat_length.
Qed.

Lemma frame_length (data : list byte) (e : bool) :
  length (frame data e) = (5 + length data)%nat.
Proof. rewrite frame_layout. cbn [int32_bytes_BE length app]. lia. Qed.

End WriterFacts.

(* ===================================================================== *)
(** * Facts about the [readable] handler *)
(* ===================================================================== *)

Module ReaderFacts.
Import Bytes Framing BytesFacts WriterFacts.

Lemma read_enough (n : Z) (data rest : list byte) :
  0 < n -> Z.of_nat (length data) = n ->
  Socket.read n (data ++ rest) = (Some data, rest).
Proof.
  intros Hn Hl. unfold Socket.read.
  replace ((0 <? n) && (n <=? Z.of_nat (length (data ++ rest)))) with true.
  - replace (Z.to_nat n) with (length data) by lia.
    now rewrite take_app_length, drop_app_length.
  - symmetry. apply andb_true_iff. rewrite length_app. split; [apply Z.ltb_lt | apply Z.leb_le]; lia.
Qed.

Lemma read_short (n : Z) (buf : list byte) :
  n <= 0 \/ Z.of_nat (length buf) < n ->
  Socket.read n buf = (None, buf).
Proof.
  intros H. unfold Socket.read.
  replace ((0 <? n) && (n <=? Z.of_nat (length buf))) with false; [reflexivity|].
  symmetry. apply andb_false_iff.
  destruct H; [left; apply Z.ltb_ge | right; apply Z.leb_gt]; lia.
Qed.

(** What [socket.read] returns is a prefix of what the socket holds. *)
Lemma read_inv (n : Z) (buf data rest : list byte) :
  Socket.read n buf = (Some data, rest) ->
  buf = data ++ rest /\ 0 < n /\ Z.of_nat (length data) = n.
Proof.
  unfold Socket.read. destruct ((0 <? n) && (n <=? Z.of_nat (length buf))) eqn:E;
    [|discriminate].
  apply andb_true_iff in E as [H1 H2]. apply Z.ltb_lt in H1. apply Z.leb_le in H2.
  intros [= <- <-]. rewrite take_drop. split; [reflexivity|]. split; [assumption|].
  rewrite length_take. lia.
Qed.

Lemma read_none_inv (n : Z) (buf rest : list byte) :
  Socket.read n buf = (None, rest) ->
  rest = buf /\ (n <= 0 \/ Z.of_nat (length buf) < n).
Proof.
  unfold Socket.read. destruct ((0 <? n) && (n <=? Z.of_nat (length buf))) eqn:E;
    [discriminate|].
  intros [= <-]. split; [reflexivity|].
  apply andb_false_iff in E as [E|E]; [left; apply Z.ltb_ge in E | right; apply Z.leb_gt in E]; lia.
Qed.

(** One turn of the loop in each of its four cases. *)
Lemma loop_header (fuel : nat) (hdr rest : list byte) (out : list submission) :
  length hdr = 5%nat ->
  readable_loop (S fuel) {| messageData := None; input := hdr ++ rest |} out
  = readable_loop fuel {| messageData := Some (parse_header hdr); input := rest |} out.
Proof.
  intros H. cbn [readable_loop messageData input].
  rewrite read_enough; [reflexivity | lia | lia].
Qed.

Lemma loop_body (fuel : nat) (md : MessageData) (body rest : list byte)
    (out : list submission) :
  0 < size md -> Z.of_nat (length body) = size md ->
  readable_loop (S fuel) {| messageData := Some md; input := body ++ rest |} out
  = readable_loop fuel {| messageData := None; input := rest |}
      (out ++ [(body, isEncrypted md)]).
Proof.
  intros H1 H2. cbn [readable_loop messageData input].
  rewrite read_enough; [reflexivity | lia | lia].
Qed.

Lemma loop_wait_header (fuel : nat) (buf : list byte) (out : list submission) :
  (length buf < 5)%nat ->
  readable_loop (S fuel) {| messageData := None; input := buf |} out
  = Some ({| messageData := None; input := buf |}, out).
Proof.
  intros H. cbn [readable_loop messageData input].
  rewrite read_short; [reflexivity | lia].
Qed.

Lemma loop_wait_body (fuel : nat) (md : MessageData) (buf : list byte)
    (out : list submission) :
  size md <= 0 \/ Z.of_nat (length buf) < size md ->
  readable_loop (S fuel) {| messageData := Some md; input := buf |} out
  = Some ({| messageData := Some md; input := buf |}, out).
Proof.
  intros H. cbn [readable_loop messageData input].
  rewrite read_short; [reflexivity | assumption].
Qed.

(** The loop ends: with more fuel than bytes it returns. *)
Lemma readable_loop_total (fuel : nat) (r : reader) (out : list submission) :
  (length (input r) < fuel)%nat -> is_Some (readable_loop fuel r out).
Proof.
  revert r out. induction fuel as [|fuel IH]; intros [md buf] out Hf; [cbn in Hf; lia|].
  cbn [input] in Hf. cbn [readable_loop messageData input].
  destruct md as [md|].
  - destruct (Socket.read (size md) buf) as [[data|] rest] eqn:E; [|eexists; reflexivity].
    apply read_inv in E as (-> & Hn & Hl). apply IH. cbn [input].
    rewrite length_app in Hf. lia.
  - destruct (Socket.read (4 + 1) buf) as [[data|] rest] eqn:E; [|eexists; reflexivity].
    apply read_inv in E as (-> & Hn & Hl). apply IH. cbn [input].
    rewrite length_app in Hf. lia.
Qed.

Lemma readable_total (chunk : list byte) (r : reader) : is_Some (readable chunk r).
Proof. unfold readable, readable_fuel. apply readable_loop_total. lia. Qed.

(** Fuel beyond the number of bytes changes nothing. *)
Lemma readable_loop_fuel (f1 f2 : nat) (r : reader) (out : list submission) :
  (length (input r) < f1)%nat -> (length (input r) < f2)%nat ->
  readable_loop f1 r out = readable_loop f2 r out.
Proof.
  revert f2 r out. induction f1 as [|f1 IH]; intros f2 [md buf] out H1 H2;
    [cbn in H1; lia|].
  destruct f2 as [|f2]; [cbn in H2; lia|].
  cbn [input] in H1, H2. cbn [readable_loop messageData input].
  destruct md as [md|].
  - destruct (Socket.read (size md) buf) as [[data|] rest] eqn:E; [|reflexivity].
    apply read_inv in E as (-> & Hn & Hl). rewrite length_app in H1, H2.
    apply IH; cbn [input]; lia.
  - destruct (Socket.read (4 + 1) buf) as [[data|] rest] eqn:E; [|reflexivity].
    apply read_inv in E as (-> & Hn & Hl). rewrite length_app in H1, H2.
    apply IH; cbn [input]; lia.
Qed.

(** What is submitted is only ever appended to. *)
Lemma prepend_prepend (o1 o2 : list submission) res :
  prepend o1 (prepend o2 res) = prepend (o1 ++ o2) res.
Proof. destruct res as [[r new]|]; cbn; [now rewrite app_assoc | reflexivity]. Qed.

Lemma readable_loop_out (fuel : nat) (r : reader) (out : list submission) :
  readable_loop fuel r out = prepend out (readable_loop fuel r []).
Proof.
  revert r out. induction fuel as [|fuel IH]; intros [md buf] out; [reflexivity|].
  cbn [readable_loop messageData input].
  destruct md as [md|].
  - destruct (Socket.read (size md) buf) as [[data|] rest] eqn:E.
    + rewrite IH. rewrite (IH _ ([] ++ _)). now rewrite prepend_prepend.
    + cbn. now rewrite app_nil_r.
  - destruct (Socket.read (4 + 1) buf) as [[data|] rest] eqn:E.
    + apply IH.
    + cbn. now rewrite app_nil_r.
Qed.

(** Bytes that arrive later do not change what was read before them:
    reading [buf ++ more] goes through the same turns as reading [buf] and
    then carries on from where that stopped. *)
Lemma readable_loop_app (f1 f2 f3 : nat) (md : option MessageData)
    (buf more : list byte) (r1 : reader) (o1 : list submission) :
  readable_loop f1 {| messageData := md; input := buf |} [] = Some (r1, o1) ->
  (length (buf ++ more) < f2)%nat ->
  (length (input r1 ++ more) < f3)%nat ->
  readable_loop f2 {| messageData := md; input := buf ++ more |} []
  = prepend o1
      (readable_loop f3 {| messageData := messageData r1; input := input r1 ++ more |} []).
Proof.
  revert f2 md buf r1 o1.
  induction f1 as [|f1 IH]; intros f2 md buf r1 o1 H H2 H3; [discriminate|].
  destruct f2 as [|f2]; [cbn in H2; lia|].
  cbn [readable_loop messageData input] in H.
  destruct md as [md|].
  - destruct (Socket.read (size md) buf) as [[data|] rest] eqn:E.
    + apply read_inv in E as (-> & Hn & Hl).
      rewrite <- app_assoc, loop_body by assumption.
      rewrite readable_loop_out in H. rewrite readable_loop_out.
      destruct (readable_loop f1 _ []) as [[r1' o1']|] eqn:E1; [|discriminate].
      cbn [prepend] in H. injection H as <- <-.
      rewrite (IH f2 _ _ _ _ E1); [now rewrite prepend_prepend | | assumption].
      rewrite <- app_assoc, !length_app in H2. rewrite length_app. lia.
    + injection H as <- <-. cbn [messageData input prepend] in *.
      assert (Hp : forall res, prepend [] res = res)
        by (intros [[? ?]|]; reflexivity).
      rewrite Hp. apply readable_loop_fuel; cbn [input]; lia.
  - destruct (Socket.read (4 + 1) buf) as [[data|] rest] eqn:E.
    + apply read_inv in E as (-> & Hn & Hl).
      rewrite <- app_assoc, loop_header by lia.
      apply (IH f2 _ _ _ _ H); [|assumption].
      rewrite <- app_assoc, !length_app in H2. rewrite length_app. lia.
    + injection H as <- <-. cbn [messageData input prepend] in *.
      assert (Hp : forall res, prepend [] res = res)
        by (intros [[? ?]|]; reflexivity).
      rewrite Hp. apply readable_loop_fuel; cbn [input]; lia.
Qed.

(** Two [readable] events in a row read what one event with both chunks reads. *)
Lemma readable_app (c1 c2 : list byte) (r r1 : reader) (o1 : list submission) :
  readable c1 r = Some (r1, o1) ->
  readable (c1 ++ c2) r = prepend o1 (readable c2 r1).
Proof.
  intros H. unfold readable, readable_fuel in *. cbn [messageData input] in *.
  rewrite app_assoc.
  apply (readable_loop_app _ _ _ _ _ _ _ _ H); lia.
Qed.

(** However the bytes are cut into chunks, the same messages come out. *)
Lemma feed_concat (c : list byte) (chunks : list (list byte)) (r : reader) :
  feed (c :: chunks) r = readable (c ++ concat chunks) r.
Proof.
  revert c r. induction chunks as [|c2 chunks IH]; intros c r.
  - cbn [feed concat]. rewrite app_nil_r.
    destruct (readable c r) as [[r' out]|]; [now rewrite app_nil_r | reflexivity].
  - change (feed (c :: c2 :: chunks) r)
      with (match readable c r with
            | Some (r', out) =>
                match feed (c2 :: chunks) r' with
                | Some (r'', out') => Some (r'', out ++ out')
                | None => None
                end
            | None => None
            end).
    destruct (readable c r) as [[r1 o1]|] eqn:E.
    + rewrite IH. cbn [concat]. rewrite (readable_app _ _ _ _ _ E). reflexivity.
    + destruct (readable_total c r) as [x Hx]. congruence.
Qed.

(** A header whose size is not positive is never followed by a body: the
    handler stays where it is, whatever arrives. *)
Lemma readable_stuck (md : MessageData) (buf chunk : list byte) :
  size md <= 0 ->
  readable chunk {| messageData := Some md; input := buf |}
  = Some ({| messageData := Some md; input := buf ++ chunk |}, []).
Proof.
  intros H. unfold readable, readable_fuel. cbn [messageData input].
  apply loop_wait_body. now left.
Qed.

Lemma feed_stuck (md : MessageData) (chunks : list (list byte)) (buf : list byte) :
  size md <= 0 ->
  feed chunks {| messageData := Some md; input := buf |}
  = Some ({| messageData := Some md; input := buf ++ concat chunks |}, []).
Proof.
  intros H. revert buf. induction chunks as [|c chunks IH]; intros buf.
  - cbn. now rewrite app_nil_r.
  - cbn [feed concat]. rewrite readable_stuck by assumption. rewrite IH.
    now rewrite <- app_assoc.
Qed.

(** The header of a frame, read back. *)
Lemma parse_header_frame (n : Z) (e : bool) :
  parse_header (int32_bytes_BE (toInt32 n) ++ [flag_byte e])
  = {| size := toInt32 n; isEncrypted := e |}.
Proof.
  unfold parse_header. f_equal.
  - apply readInt32BE_int32_bytes.
  - destruct e; reflexivity.
Qed.

(** A frame with a payload of 1 to 2^31 - 1 bytes is read back as one
    message, however its bytes are cut into chunks. *)
Lemma frame_roundtrip (data : list byte) (e : bool) :
  (0 < length data)%nat -> Z.of_nat (length data) < 2 ^ 31 ->
  readable (frame data e) initial = Some (initial, [(data, e)]).
Proof.
  intros H0 H1. unfold readable, readable_fuel, initial. cbn [messageData input app].
  rewrite frame_layout.
  set (hdr := int32_bytes_BE (toInt32 (Z.of_nat (length data)))).
  rewrite (app_assoc hdr [flag_byte e] data).
  rewrite length_app. change (length (hdr ++ [flag_byte e])) with 5%nat.
  cbn [Nat.add]. rewrite loop_header by reflexivity.
  unfold hdr. rewrite parse_header_frame, toInt32_small by lia.
  pose proof (loop_body (4 + length data)
                {| size := Z.of_nat (length data); isEncrypted := e |} data [] [])
    as Hb.
  rewrite app_nil_r in Hb. cbn [Nat.add] in Hb. rewrite Hb by (cbn [size]; lia).
  cbn [isEncrypted app]. now rewrite loop_wait_header by (cbn; lia).
Qed.

Lemma frame_roundtrip_chunked (data : list byte) (e : bool)
    (c : list byte) (chunks : list (list byte)) :
  (0 < length data)%nat -> Z.of_nat (length data) < 2 ^ 31 ->
  c ++ concat chunks = frame data e ->
  feed (c :: chunks) initial = Some (initial, [(data, e)]).
Proof.
  intros H0 H1 Hc. rewrite feed_concat, Hc. now apply frame_roundtrip.
Qed.

End ReaderFacts.

(* ===================================================================== *)
(** * Facts about [regexPort] and [parseAddress] *)
(* ===================================================================== *)

Module AddressFacts.
Import Regex JS Address PortSyntax.

Local Open Scope nat_scope.

Lemma in_class_trans (lo hi a b c : ascii) :
  in_class lo hi a = true -> in_class lo hi b = true -> in_class a b c = true ->
  in_class lo hi c = true.
Proof.
  unfold in_class. rewrite !andb_true_iff, !N.leb_le. lia.
Qed.

Lemma in_flat_map_iff {A B : Type} (f : A -> list B) (l : list A) (y : B) :
  In y (flat_map f l) <-> exists x, In x l /\ In y (f x).
Proof. apply in_flat_map. Qed.

(** ** Strings *)

Lemma string_app_nil_r (s : string) : (s ++ "")%string = s.
Proof. induction s as [|c s IH]; cbn; [reflexivity | now rewrite IH]. Qed.

Lemma string_app_assoc (p1 p2 s : string) :
  ((p1 ++ p2) ++ s)%string = (p1 ++ (p2 ++ s))%string.
Proof. induction p1 as [|c p1 IH]; cbn; [reflexivity | now rewrite IH]. Qed.

Lemma string_length_app (p1 p2 : string) :
  String.length (p1 ++ p2)%string = String.length p1 + String.length p2.
Proof. induction p1 as [|c p1 IH]; cbn; [reflexivity | now rewrite IH]. Qed.

Lemma list_ascii_app (p1 p2 : string) :
  list_ascii_of_string (p1 ++ p2)%string
  = list_ascii_of_string p1 ++ list_ascii_of_string p2.
Proof. induction p1 as [|c p1 IH]; cbn; [reflexivity | now rewrite IH]. Qed.

Lemma list_ascii_length (p : string) :
  length (list_ascii_of_string p) = String.length p.
Proof. induction p as [|c p IH]; cbn; [reflexivity | now rewrite IH]. Qed.

Lemma all_in_class_app (lo hi : ascii) (p1 p2 : string) :
  all_in_class lo hi p1 = true -> all_in_class lo hi p2 = true ->
  all_in_class lo hi (p1 ++ p2)%string = true.
Proof.
  intros H1 H2. induction p1 as [|c p1 IH]; cbn in *; [assumption|].
  apply andb_true_iff in H1 as [Hc H1]. rewrite Hc. now apply IH.
Qed.

(** ** Decimal numbers *)

Lemma digit_of_class (lo hi c : ascii) :
  in_class "0" "9" lo = true -> in_class lo hi c = true ->
  (0 <= digit_of c <= digit_of hi)%Z.
Proof.
  unfold in_class, digit_of. rewrite !andb_true_iff, !N.leb_le.
  change (N_of_ascii "0") with 48%N. lia.
Qed.

Lemma decimal_fold (l : list ascii) (acc : Z) :
  fold_left (fun a c => 10 * a + digit_of c)%Z l acc
  = (acc * 10 ^ Z.of_nat (length l)
     + fold_left (fun a c => 10 * a + digit_of c)%Z l 0)%Z.
Proof.
  revert acc. induction l as [|c l IH]; intros acc.
  - cbn. lia.
  - cbn [fold_left length]. rewrite IH, (IH (10 * 0 + digit_of c)%Z).
    rewrite Nat2Z.inj_succ, Z.pow_succ_r by lia. lia.
Qed.

Lemma decimal_app (p1 p2 : string) :
  decimal (p1 ++ p2)%string
  = (decimal p1 * 10 ^ Z.of_nat (String.length p2) + decimal p2)%Z.
Proof.
  unfold decimal. rewrite list_ascii_app, fold_left_app, decimal_fold.
  now rewrite list_ascii_length.
Qed.

Lemma decimal_one (c : ascii) : decimal (String c EmptyString) = digit_of c.
Proof. unfold decimal. cbn. lia. Qed.

(** ** What [regexPort] accepts *)

(** One match after another. *)
Lemma bounds_compose (b1 b2 : list (nat * Z)) (p1 p2 : string) (v1 v2 : Z) :
  In (String.length p1, v1) b1 -> (0 <= decimal p1 <= v1)%Z ->
  In (String.length p2, v2) b2 -> (0 <= decimal p2 <= v2)%Z ->
  exists v, In (String.length (p1 ++ p2)%string, v) (seq_bounds b1 b2)
            /\ (0 <= decimal (p1 ++ p2)%string <= v)%Z.
Proof.
  intros H1 Hd1 H2 Hd2.
  exists (v1 * 10 ^ Z.of_nat (String.length p2) + v2)%Z. split.
  - unfold seq_bounds. apply in_flat_map_iff. exists (String.length p1, v1).
    split; [assumption|]. apply in_map_iff. exists (String.length p2, v2).
    split; [|assumption]. now rewrite string_length_app.
  - rewrite decimal_app.
    assert (0 < 10 ^ Z.of_nat (String.length p2))%Z by (apply Z.pow_pos_nonneg; lia).
    nia.
Qed.

(** What [r] takes off the front of [s] is a string of digits whose
    length, and a number it does not exceed, are among [bounds r]. *)
Lemma residuals_bounds (r : regex) :
  only_class "0" "9" r = true ->
  forall s s', In s' (residuals r s) ->
  exists pre v, s = (pre ++ s')%string
                /\ all_in_class "0" "9" pre = true
                /\ In (String.length pre, v) (bounds r)
                /\ (0 <= decimal pre <= v)%Z.
Proof.
  induction r as [c|a b|r1 IH1 r2 IH2|r1 IH1 r2 IH2|r1 IH1|n m r1 IH1|];
    cbn [only_class bounds residuals]; intros Hr s s' Hin.
  - destruct s as [|c' t]; [destruct Hin|].
    destruct (Ascii.eqb_spec c c') as [<-|]; [|destruct Hin].
    destruct Hin as [<-|[]]. exists (String c EmptyString), (digit_of c).
    cbn [String.append all_in_class String.length]. rewrite Hr, decimal_one.
    repeat split; [now left| |lia].
    unfold in_class in Hr. apply andb_true_iff in Hr as [Hr _]. apply N.leb_le in Hr.
    unfold digit_of. change (N_of_ascii "0") with 48%N in Hr. lia.
  - destruct s as [|c t]; [destruct Hin|].
    destruct (in_class a b c) eqn:Ec; [|destruct Hin].
    destruct Hin as [<-|[]]. apply andb_true_iff in Hr as [Ha Hb].
    exists (String c EmptyString), (digit_of b).
    cbn [String.append all_in_class String.length].
    rewrite (in_class_trans "0" "9" a b c Ha Hb Ec), decimal_one.
    repeat split; [now left | |]; apply (digit_of_class a b c Ha Ec).
  - apply andb_true_iff in Hr as [H1 H2].
    apply in_flat_map_iff in Hin as (s1 & Hs1 & Hs').
    destruct (IH1 H1 _ _ Hs1) as (p1 & v1 & -> & Hp1 & Hb1 & Hd1).
    destruct (IH2 H2 _ _ Hs') as (p2 & v2 & -> & Hp2 & Hb2 & Hd2).
    destruct (bounds_compose _ _ p1 p2 v1 v2 Hb1 Hd1 Hb2 Hd2) as (v & Hv & Hd).
    exists (p1 ++ p2)%string, v. split; [now rewrite string_app_assoc|].
    split; [now apply all_in_class_app|]. now split.
  - apply andb_true_iff in Hr as [H1 H2]. apply in_app_or in Hin as [Hin|Hin].
    + destruct (IH1 H1 _ _ Hin) as (p & v & -> & Hp & Hb & Hd).
      exists p, v. repeat split; auto; try lia. apply in_or_app. now left.
    + destruct (IH2 H2 _ _ Hin) as (p & v & -> & Hp & Hb & Hd).
      exists p, v. repeat split; auto; try lia. apply in_or_app. now right.
  - apply in_app_or in Hin as [Hin|[<-|[]]].
    + destruct (IH1 Hr _ _ Hin) as (p & v & -> & Hp & Hb & Hd).
      exists p, v. repeat split; auto; try lia. apply in_or_app. now left.
    + exists EmptyString, 0%Z. repeat split; try (cbn; lia).
      apply in_or_app. right. now left.
  - apply in_flat_map_iff in Hin as (k & Hk & Hin).
    assert (Hiter : exists pre v, s = (pre ++ s')%string
                                  /\ all_in_class "0" "9" pre = true
                                  /\ In (String.length pre, v) (iter_bounds (bounds r1) k)
                                  /\ (0 <= decimal pre <= v)%Z).
    { clear Hk. revert s Hin. induction k as [|k IHk]; intros s Hin.
      - destruct Hin as [<-|[]]. exists EmptyString, 0%Z.
        repeat split; try (cbn; lia). now left.
      - cbn [iter] in Hin. apply in_flat_map_iff in Hin as (s1 & Hs1 & Hin).
        destruct (IH1 Hr _ _ Hs1) as (p1 & v1 & -> & Hp1 & Hb1 & Hd1).
        destruct (IHk _ Hin) as (p2 & v2 & -> & Hp2 & Hb2 & Hd2).
        destruct (bounds_compose _ _ p1 p2 v1 v2 Hb1 Hd1 Hb2 Hd2) as (v & Hv & Hd).
        exists (p1 ++ p2)%string, v. split; [now rewrite string_app_assoc|].
        split; [now apply all_in_class_app|]. now split. }
    destruct Hiter as (pre & v & -> & Hp & Hb & Hd). exists pre, v.
    repeat split; auto; try lia. apply in_flat_map_iff. now exists k.
  - destruct s; [|destruct Hin]. destruct Hin as [<-|[]].
    exists EmptyString, 0%Z. repeat split; try (cbn; lia). now left.
Qed.

Lemma port_number_bounds : forallb port_bound (bounds port_number) = true.
Proof. vm_compute. reflexivity. Qed.

(** ** [parseInt] on a string of digits *)

Lemma in_digit_chars (c : ascii) :
  in_class "0" "9" c = true -> In c digit_chars.
Proof.
  unfold in_class. rewrite andb_true_iff, !N.leb_le. intros [H1 H2].
  change (N_of_ascii "0") with 48%N in H1. change (N_of_ascii "9") with 57%N in H2.
  rewrite <- (ascii_N_embedding c). revert H1 H2.
  generalize (N_of_ascii c) as n. intros n H1 H2.
  assert (Hn : (n = 48 \/ n = 49 \/ n = 50 \/ n = 51 \/ n = 52 \/ n = 53
                \/ n = 54 \/ n = 55 \/ n = 56 \/ n = 57)%N) by lia.
  repeat destruct Hn as [->|Hn]; try subst n; cbn; tauto.
Qed.

Lemma radix_digit_decimal (c : ascii) :
  in_class "0" "9" c = true -> radix_digit 10 c = Some (digit_of c).
Proof.
  intros H. apply in_digit_chars in H. cbn in H.
  repeat destruct H as [<-|H]; try reflexivity. destruct H.
Qed.

Lemma digits_prefix_digits (d : string) :
  all_in_class "0" "9" d = true ->
  digits_prefix 10 d = map digit_of (list_ascii_of_string d).
Proof.
  induction d as [|c d IH]; intros H; [reflexivity|].
  cbn [all_in_class] in H. apply andb_true_iff in H as [Hc Hd].
  cbn [digits_prefix list_ascii_of_string map].
  now rewrite (radix_digit_decimal c Hc), (IH Hd).
Qed.

Lemma digits_to_Z_decimal (l : list ascii) (acc : Z) :
  fold_left (fun a d => a * 10 + d)%Z (map digit_of l) acc
  = fold_left (fun a c => 10 * a + digit_of c)%Z l acc.
Proof.
  revert acc. induction l as [|c l IH]; intros acc; [reflexivity|].
  cbn [map fold_left]. rewrite IH. f_equal. lia.
Qed.

(** A digit is neither white space nor a sign, and a digit after a zero is
    not the [x] of a hexadecimal prefix: [parseInt] reads the whole string
    in base ten. *)
Lemma parseInt_digits (c : ascii) (d : string) :
  all_in_class "0" "9" (String c d) = true ->
  parseInt (String c d) = Num (decimal (String c d)).
Proof.
  intros H. pose proof (digits_prefix_digits _ H) as Hp.
  cbn [all_in_class] in H. apply andb_true_iff in H as [Hc Hd].
  assert (Hr : forall s, s = String c d ->
               match digits_prefix 10 s with
               | [] => NaN
               | ds => Num (1 * digits_to_Z 10 ds)
               end = Num (decimal s)).
  { intros s ->. rewrite Hp. cbn [list_ascii_of_string map].
    unfold digits_to_Z, decimal. cbn [list_ascii_of_string].
    rewrite <- digits_to_Z_decimal. cbn [map]. f_equal. lia. }
  apply in_digit_chars in Hc. cbn in Hc.
  destruct Hc as [<-|Hc].
  - (* a leading zero: the next character decides about the prefix *)
    destruct d as [|c2 d2]; [reflexivity|].
    cbn [all_in_class] in Hd. apply andb_true_iff in Hd as [Hc2 Hd2].
    apply in_digit_chars in Hc2. cbn in Hc2.
    repeat destruct Hc2 as [<-|Hc2]; try (apply (Hr _ eq_refl)). destruct Hc2.
  - repeat destruct Hc as [<-|Hc]; try (apply (Hr _ eq_refl)). destruct Hc.
Qed.

(** The digits [regexPort] accepts after the colon are read by [parseInt]
    as the decimal number they spell, and that number is a port. *)
Lemma regexPort_digits (d : string) :
  matches_at regexPort (String ":" d) = true ->
  parseInt d = Num (decimal d) /\ (0 <= decimal d <= 65535)%Z.
Proof.
  intros Hm. unfold matches_at in Hm.
  destruct (residuals regexPort (String ":" d)) as [|s' rest] eqn:E; [discriminate|].
  assert (Hin : In s' (residuals regexPort (String ":" d))) by (rewrite E; now left).
  unfold regexPort in Hin. cbn [residuals] in Hin.
  change (Ascii.eqb ":" ":") with true in Hin. cbn [flat_map app] in Hin.
  rewrite app_nil_r in Hin.
  apply in_flat_map_iff in Hin as (s1 & Hs1 & Hs').
  destruct s1; [|destruct Hs'].
  destruct (residuals_bounds port_number eq_refl _ _ Hs1)
    as (pre & v & -> & Hp & Hb & Hd).
  rewrite string_app_nil_r in *.
  pose proof port_number_bounds as Hall. rewrite forallb_forall in Hall.
  specialize (Hall _ Hb). unfold port_bound in Hall. cbn [fst snd] in Hall.
  apply andb_true_iff in Hall as [Hl Hv]. apply andb_true_iff in Hl as [Hl1 Hl5].
  apply Nat.leb_le in Hl1. apply Z.leb_le in Hv.
  split; [|lia].
  destruct pre as [|c pre]; [cbn in Hl1; lia|]. now apply parseInt_digits.
Qed.

(** [regexPort] only matches from a colon. *)
Lemma regexPort_at_colon (s : string) :
  matches_at regexPort s = true -> exists d, s = String ":" d.
Proof.
  destruct s as [|c t]; [discriminate|].
  unfold matches_at, regexPort. cbn [residuals].
  destruct (Ascii.eqb_spec ":" c) as [<-|]; [eauto | discriminate].
Qed.

Lemma test_no_colon (s : string) :
  has_colon s = false -> test regexPort s = false.
Proof.
  induction s as [|c t IH]; intros H; [reflexivity|].
  cbn [has_colon] in H. apply orb_false_iff in H as [Hc Ht].
  cbn [test]. rewrite (IH Ht), orb_false_r.
  destruct (matches_at regexPort (String c t)) eqn:E; [|reflexivity].
  apply regexPort_at_colon in E as [d [= -> _]]. discriminate.
Qed.

(** With one colon in the string, the match can only start there. *)
Lemma test_one_colon (h d : string) :
  has_colon h = false -> has_colon d = false ->
  test regexPort (h ++ String ":" d)%string = matches_at regexPort (String ":" d).
Proof.
  intros Hh Hd. induction h as [|c h IH].
  - cbn [String.append test]. now rewrite (test_no_colon d Hd), orb_false_r.
  - cbn [has_colon] in Hh. apply orb_false_iff in Hh as [Hc Hh].
    cbn [String.append test]. rewrite (IH Hh).
    destruct (matches_at regexPort (String c (h ++ String ":" d))) eqn:E; [|reflexivity].
    apply regexPort_at_colon in E as [d' [= -> _]]. discriminate.
Qed.

Lemma split_no_colon (s : string) :
  has_colon s = false -> split ":" s = [s].
Proof.
  induction s as [|c t IH]; intros H; [reflexivity|].
  cbn [has_colon] in H. apply orb_false_iff in H as [Hc Ht].
  cbn [split]. rewrite Hc, (IH Ht). reflexivity.
Qed.

Lemma split_one_colon (h d : string) :
  has_colon h = false -> has_colon d = false ->
  split ":" (h ++ String ":" d)%string = [h; d].
Proof.
  intros Hh Hd. induction h as [|c h IH].
  - cbn [String.append split]. change (Ascii.eqb ":" ":") with true. cbn match.
    now rewrite (split_no_colon d Hd).
  - cbn [has_colon] in Hh. apply orb_false_iff in Hh as [Hc Hh].
    cbn [String.append split]. rewrite Hc, (IH Hh). reflexivity.
Qed.

(** ** What [parseAddress] gets right *)

(** Without a port at the end, the whole string is the host and the port
    is 1359. *)
Lemma parseAddress_without_port (address : string) :
  test regexPort address = false ->
  parseAddress address = {| host := address; port := Num 1359 |}.
Proof. intros H. unfold parseAddress. now rewrite H. Qed.

(** With a port at the end and no other colon, the host is what stands
    before the colon and the port is the number after it. *)
Lemma parseAddress_one_colon (h d : string) :
  has_colon h = false -> has_colon d = false ->
  test regexPort (h ++ String ":" d)%string = true ->
  parseAddress (h ++ String ":" d)%string = {| host := h; port := Num (decimal d) |}
  /\ (0 <= decimal d <= 65535)%Z.
Proof.
  intros Hh Hd Ht. unfold parseAddress. rewrite Ht.
  rewrite test_one_colon in Ht by assumption.
  destruct (regexPort_digits d Ht) as [Hp Hr].
  rewrite split_one_colon by assumption. cbn [nth parseInt_at nth_error].
  now rewrite Hp.
Qed.

(** A string with at most one colon splits around it. *)
Lemma at_most_one_colon (s : string) :
  has_colon s = false
  \/ exists h d, s = (h ++ String ":" d)%string /\ has_colon h = false.
Proof.
  induction s as [|c t IH]; [now left|].
  destruct (Ascii.eqb_spec c ":") as [->|Hc].
  - right. exists EmptyString, t. auto.
  - destruct IH as [IH|(h & d & -> & Hh)].
    + left. cbn. rewrite IH. now destruct (Ascii.eqb_spec c ":").
    + right. exists (String c h), d. split; [reflexivity|].
      cbn. rewrite Hh. now destruct (Ascii.eqb_spec c ":").
Qed.

(** With at most one colon in the string the parsed port is a port. *)
Lemma parseAddress_port_range (h d : string) :
  has_colon h = false -> has_colon d = false ->
  valid_port (port (parseAddress h))
  /\ valid_port (port (parseAddress (h ++ String ":" d)%string)).
Proof.
  intros Hh Hd. split.
  - rewrite parseAddress_without_port by now apply test_no_colon.
    cbn. lia.
  - destruct (test regexPort (h ++ String ":" d)%string) eqn:E.
    + destruct (parseAddress_one_colon h d Hh Hd E) as [-> Hr]. exact Hr.
    + rewrite parseAddress_without_port by assumption. cbn. lia.
Qed.

End AddressFacts.

(* ===================================================================== *)
(** * Framing: the wire format, the flag byte and the round trip *)
(* ===================================================================== *)

Module FramingClaims.
Import Bytes Framing BytesFacts WriterFacts ReaderFacts.

Lemma flag_test (f : byte) : negb (Z_of_byte f =? 0) = negb (Byte.eqb f x00).
Proof. destruct f; reflexivity. Qed.

Lemma flag_nonzero (f : byte) : negb (Byte.eqb f x00) = true <-> f <> x00.
Proof. destruct f; cbn; split; (congruence || discriminate || tauto). Qed.

(** C5: every frame [writeSync] writes goes out in one [socket.write] call
    as a single byte sequence of length 5 + payload length: the payload's
    byte length as a big-endian unsigned 32-bit number (the header itself
    not counted), one byte that is 1 for an encrypted frame and 0
    otherwise, then the payload.  Two calls give two whole frames, one
    after the other.  The payload length is one a 32-bit header can hold. *)
Theorem writeSync_wire_format (data : list byte) (isEncrypted : bool)
    (socket : list Socket.call) :
  Z.of_nat (length data) < 2 ^ 32 ->
  exists b0 b1 b2 b3 flag,
    frame data isEncrypted = b0 :: b1 :: b2 :: b3 :: flag :: data
    /\ length (frame data isEncrypted) = (5 + length data)%nat
    /\ uint32_of_bytes_BE b0 b1 b2 b3 = Z.of_nat (length data)
    /\ flag = (if isEncrypted then x01 else x00)
    /\ writeSync data isEncrypted socket
       = socket ++ [Socket.SockWrite (frame data isEncrypted)]
    /\ forall data' isEncrypted',
         writeSync data' isEncrypted' (writeSync data isEncrypted socket)
         = socket ++ [Socket.SockWrite (frame data isEncrypted);
                      Socket.SockWrite (frame data' isEncrypted')].
Proof.
  intros Hlen.
  destruct (int32_bytes_BE (toInt32 (Z.of_nat (length data))))
    as [|b0 [|b1 [|b2 [|b3 [|]]]]] eqn:E; try discriminate E.
  exists b0, b1, b2, b3, (flag_byte isEncrypted).
  split; [rewrite frame_layout, E; reflexivity|].
  split; [apply frame_length|].
  split.
  - rewrite (uint32_of_int32_bytes _ _ _ _ _ E), toInt32_mod.
    apply Z.mod_small. lia.
  - split; [reflexivity|]. split; [reflexivity|].
    intros data' e'. unfold writeSync. now rewrite <- app_assoc.
Qed.

Lemma writeSync_wire_format_witness :
  Z.of_nat (length [x68; x69]) < 2 ^ 32 /\
  exists b0 b1 b2 b3 flag,
    frame [x68; x69] true = b0 :: b1 :: b2 :: b3 :: flag :: [x68; x69]
    /\ length (frame [x68; x69] true) = (5 + length [x68; x69])%nat
    /\ uint32_of_bytes_BE b0 b1 b2 b3 = Z.of_nat (length [x68; x69])
    /\ flag = x01
    /\ writeSync [x68; x69] true [] = [] ++ [Socket.SockWrite (frame [x68; x69] true)]
    /\ forall data' isEncrypted',
         writeSync data' isEncrypted' (writeSync [x68; x69] true [])
         = [] ++ [Socket.SockWrite (frame [x68; x69] true);
                  Socket.SockWrite (frame data' isEncrypted')].
Proof.
  split; [reflexivity|].
  apply (writeSync_wire_format [x68; x69] true []). reflexivity.
Defined.

(** The flag byte in the read loop taken by itself, every body being
    submitted before the next read: the flag is the fifth header byte and
    any nonzero value means encrypted; it is fixed when the five header
    bytes are read, with no payload byte taken yet, and the payload read
    next is submitted with it.  On the write side the flag byte is 1 or 0.
    What the handler does with bytes that arrive while it waits for a
    decryption is the matter of [Inbound]. *)
Theorem flag_byte_semantics (b0 b1 b2 b3 f : byte) (payload : list byte)
    (data : list byte) (e : bool) :
  let hdr := [b0; b1; b2; b3; f] in
  0 < readInt32BE hdr 0 ->
  Z.of_nat (length payload) = readInt32BE hdr 0 ->
  (isEncrypted (parse_header hdr) = true <-> f <> x00)
  /\ readable hdr initial
     = Some ({| messageData := Some {| size := readInt32BE hdr 0;
                                        isEncrypted := negb (Byte.eqb f x00) |};
                input := [] |}, [])
  /\ feed [hdr; payload] initial
     = Some (initial, [(payload, negb (Byte.eqb f x00))])
  /\ readable (hdr ++ payload) initial
     = Some (initial, [(payload, negb (Byte.eqb f x00))])
  /\ frame data e !! 4%nat = Some (if e then x01 else x00).
Proof.
  intros hdr Hpos Hlen.
  assert (Hph : parse_header hdr
                = {| size := readInt32BE hdr 0;
                     isEncrypted := negb (Byte.eqb f x00) |}).
  { unfold parse_header, byte_at, hdr. cbn [lookup list_lookup fmap option_fmap option_map].
    now rewrite flag_test. }
  assert (Hall : readable (hdr ++ payload) initial
                 = Some (initial, [(payload, negb (Byte.eqb f x00))])).
  { unfold readable, readable_fuel, initial. cbn [messageData input].
    change ([] ++ hdr ++ payload) with (hdr ++ payload).
    rewrite length_app. change (length hdr) with 5%nat. cbn [Nat.add].
    rewrite loop_header by reflexivity. rewrite Hph.
    pose proof (loop_body (4 + length payload)
                  {| size := readInt32BE hdr 0;
                     isEncrypted := negb (Byte.eqb f x00) |} payload [] []) as Hb.
    rewrite app_nil_r in Hb. cbn [Nat.add] in Hb. rewrite Hb by (cbn [size]; lia).
    cbn [isEncrypted app]. now rewrite loop_wait_header by (cbn; lia). }
  split; [rewrite Hph; cbn [isEncrypted]; apply flag_nonzero|].
  split.
  - unfold readable, readable_fuel, initial. cbn [messageData input].
    change ([] ++ hdr) with (hdr ++ []).
    change (S (length (hdr ++ []))) with (S 5).
    rewrite loop_header by reflexivity.
    rewrite Hph. apply loop_wait_body. right. cbn [length size]. lia.
  - split; [|split; [exact Hall|]].
    + rewrite feed_concat. cbn [concat]. rewrite app_nil_r. exact Hall.
    + rewrite frame_layout. destruct e; reflexivity.
Qed.

Lemma flag_byte_semantics_witness :
  let hdr := [x00; x00; x00; x02; x07] in
  0 < readInt32BE hdr 0 /\
  Z.of_nat (length [x41; x42]) = readInt32BE hdr 0 /\
  ((isEncrypted (parse_header hdr) = true <-> x07 <> x00)
   /\ readable hdr initial
      = Some ({| messageData := Some {| size := readInt32BE hdr 0;
                                         isEncrypted := negb (Byte.eqb x07 x00) |};
                 input := [] |}, [])
   /\ feed [hdr; [x41; x42]] initial
      = Some (initial, [([x41; x42], negb (Byte.eqb x07 x00))])
   /\ readable (hdr ++ [x41; x42]) initial
      = Some (initial, [([x41; x42], negb (Byte.eqb x07 x00))])
   /\ frame [x41] false !! 4%nat = Some x00).
Proof.
  intros hdr. split; [reflexivity|]. split; [reflexivity|].
  apply (flag_byte_semantics x00 x00 x00 x02 x07 [x41; x42] [x41] false); reflexivity.
Defined.

(** C4 (the code departs from the claim): a frame with an empty payload.
    Its header is read, and [socket.read(0)] for the body then returns
    [null], which the handler takes for "not arrived yet": nothing is
    submitted, and since the handler keeps waiting for that body, nothing
    that arrives afterwards is submitted either. *)
Theorem empty_frame_never_delivered (isEncrypted : bool) (later : list (list byte)) :
  feed (frame [] isEncrypted :: later) initial
  = Some ({| messageData := Some {| size := 0; isEncrypted := isEncrypted |};
             input := concat later |}, []).
Proof.
  cbn [feed].
  assert (H : readable (frame [] isEncrypted) initial
              = Some ({| messageData := Some {| size := 0; isEncrypted := isEncrypted |};
                         input := [] |}, []))
    by (destruct isEncrypted; vm_compute; reflexivity).
  rewrite H, feed_stuck by (cbn; lia). reflexivity.
Qed.

(** For payloads of 1 to 2^31 - 1 bytes the round trip of C4 holds: one
    message, with the length, the flag and the bytes that were written,
    however the stream cuts the frame into chunks. *)
Theorem nonempty_frame_roundtrip (data : list byte) (isEncrypted : bool)
    (c : list byte) (chunks : list (list byte)) :
  (0 < length data)%nat -> Z.of_nat (length data) < 2 ^ 31 ->
  c ++ concat chunks = frame data isEncrypted ->
  feed (c :: chunks) initial = Some (initial, [(data, isEncrypted)]).
Proof. apply frame_roundtrip_chunked. Qed.

End FramingClaims.

(* ===================================================================== *)
(** * [parseAddress] on a string with more than one colon *)
(* ===================================================================== *)

Module AddressClaims.
Import Regex JS Address PortSyntax AddressFacts.

(** C2 (the code departs from the claim): the address ends in the valid
    port suffix [:1359], and [regexPort] finds it, but the host and the
    port are taken from the first two pieces of [address.split(":")]: the
    host is cut at the first colon and the port is read from what follows
    it, here the empty string. *)
Theorem port_suffix_misread :
  test regexPort "[::1]:1359" = true
  /\ split ":" "[::1]:1359" = ["["; ""; "1]"; "1359"]
  /\ parseAddress "[::1]:1359" = {| host := "["; port := NaN |}.
Proof.
  split; [|split].
  - reflexivity.
  - reflexivity.
  - unfold parseAddress. now vm_compute.
Qed.

(** C3 (the code departs from the claim): with a second colon in the
    string the port is read from the piece after the first colon, which
    [regexPort] has not looked at: it can be out of range, and it can be
    [NaN]. *)
Theorem port_out_of_range :
  parseAddress "10.0.0.5:70000:80" = {| host := "10.0.0.5"; port := Num 70000 |}
  /\ valid_portb (port (parseAddress "10.0.0.5:70000:80")) = false
  /\ valid_portb (port (parseAddress "[::1]:1359")) = false.
Proof.
  split; [|split].
  - unfold parseAddress. now vm_compute.
  - now vm_compute.
  - now vm_compute.
Qed.

(** With at most one colon in the address both properties hold: a string
    without a port suffix is the host, with port 1359; a host followed by
    a port suffix gives that host and that port; and the port is in range
    either way. *)
Theorem one_colon_parsed (h d : string) :
  has_colon h = false -> has_colon d = false ->
  (test regexPort h = false
   /\ parseAddress h = {| host := h; port := Num 1359 |})
  /\ (test regexPort (h ++ String ":" d)%string = true ->
      parseAddress (h ++ String ":" d)%string
      = {| host := h; port := Num (decimal d) |}
      /\ 0 <= decimal d <= 65535)
  /\ (test regexPort (h ++ String ":" d)%string = false ->
      parseAddress (h ++ String ":" d)%string
      = {| host := (h ++ String ":" d)%string; port := Num 1359 |})
  /\ valid_port (port (parseAddress h))
  /\ valid_port (port (parseAddress (h ++ String ":" d)%string)).
Proof.
  intros Hh Hd.
  pose proof (test_no_colon h Hh) as Ht.
  split; [split; [exact Ht | now apply parseAddress_without_port]|].
  split; [now apply parseAddress_one_colon|].
  split; [apply parseAddress_without_port|].
  now apply parseAddress_port_range.
Qed.

End AddressClaims.

(* ===================================================================== *)
(** * The connection life cycle: [start], [stop] and the "close" event *)
(* ===================================================================== *)

Module LifeCycle.
Import Address DataProxyTCP.

(** What a run of handlers leaves untouched. *)
Lemma on_close_stopping (a : option AddressData) (p : proxy) :
  isStopping p = true -> on_close a p = notify (NotifyClose Connection) p.
Proof. intros H. unfold on_close. rewrite H. reflexivity. Qed.

Lemma on_close_isStopping (a : option AddressData) (p : proxy) :
  isStopping (on_close a p) = isStopping p.
Proof. unfold on_close. destruct (negb (isStopping p)), a; reflexivity. Qed.

Lemma on_close_listeners (a : option AddressData) (p : proxy) :
  listeners (on_close a p) = listeners p.
Proof. unfold on_close. destruct (negb (isStopping p)), a; reflexivity. Qed.

(** With the flag set, the handlers [hs] only notify the owner. *)
Lemma handlers_stopping (hs : list (option AddressData)) (p : proxy) :
  isStopping p = true ->
  fold_left (fun q a => on_close a q) hs p
  = {| override := override p; isStopping := true; listeners := listeners p;
       socket := socket p;
       notified := notified p ++ repeat (NotifyClose Connection) (length hs) |}.
Proof.
  revert p. induction hs as [|a hs IH]; intros p H.
  - cbn. rewrite app_nil_r. destruct p; cbn in *; now subst.
  - cbn [fold_left]. rewrite on_close_stopping by assumption.
    rewrite IH by assumption. cbn. now rewrite <- app_assoc.
Qed.

Lemma socket_closed_stopping (p : proxy) :
  isStopping p = true ->
  socket_closed p
  = {| override := override p; isStopping := true; listeners := listeners p;
       socket := socket p;
       notified := notified p
                   ++ repeat (NotifyClose Connection) (length (listeners p)) |}.
Proof. apply handlers_stopping. Qed.

Lemma socket_connected_isStopping (p : proxy) :
  isStopping (socket_connected p) = isStopping p.
Proof.
  unfold socket_connected. generalize (listeners p) as hs. intros hs. revert p.
  induction hs as [|a hs IH]; intros p; [reflexivity|].
  cbn [fold_left]. now rewrite IH.
Qed.

Lemma start_isStopping (ls : storage) (p : proxy) : isStopping (start ls p) = true.
Proof.
  unfold start. cbn [override set_isStopping].
  destruct (override p) as [o|]; [reflexivity|].
  destruct (ls ServerAddress); reflexivity.
Qed.

(** No statement of the class assigns [false] to the flag. *)
Lemma step_isStopping (p : proxy) (e : event) :
  isStopping p = true -> isStopping (step p e) = true.
Proof.
  intros H. destruct e; cbn [step].
  - apply start_isStopping.
  - reflexivity.
  - now rewrite socket_connected_isStopping.
  - now rewrite socket_closed_stopping.
  - assumption.
Qed.

Lemma run_isStopping (es : list event) (p : proxy) :
  isStopping p = true -> isStopping (run es p) = true.
Proof.
  revert p. induction es as [|e es IH]; intros p H; [assumption|].
  cbn [run fold_left]. apply IH. now apply step_isStopping.
Qed.

(** C7: once [stop()] has been called, a "close" event observed at any
    later point makes no call on the socket, so no fallback and no other
    connection attempt, and each registered handler reports the close to
    the owner with [notifyClose]. *)
Theorem close_after_stop (p : proxy) (later : list event) :
  let q := run later (stop p) in
  socket (socket_closed q) = socket q
  /\ connects (socket (socket_closed q)) = connects (socket q)
  /\ notified (socket_closed q)
     = notified q ++ repeat (NotifyClose Connection) (length (listeners q)).
Proof.
  intros q.
  assert (H : isStopping q = true) by (apply run_isStopping; reflexivity).
  rewrite (socket_closed_stopping q H). cbn. auto.
Qed.

(** After [start()] too the flag is set, whatever happens next: the
    "close" handler never reaches its fallback branch. *)
Lemma close_after_start (ls : storage) (p : proxy) (later : list event) :
  let q := run later (start ls p) in
  socket (socket_closed q) = socket q
  /\ notified (socket_closed q)
     = notified q ++ repeat (NotifyClose Connection) (length (listeners q)).
Proof.
  intros q.
  assert (H : isStopping q = true) by (apply run_isStopping, start_isStopping).
  rewrite (socket_closed_stopping q H). cbn. auto.
Qed.

(** C1 (the code departs from the claim): a primary and a fallback address
    are configured, [start()] is called, [stop()] is not, and the socket
    closes.  The only connection attempt is the one to the primary address:
    the failure is reported with no attempt on the fallback. *)
Theorem fallback_not_attempted :
  let o := {| primary := "10.0.0.5:2000"; fallback := Some "relay.example.com" |} in
  let p := run [Start (fun _ => None); SocketClosed] (new (Some o)) in
  listeners p = [Some {| host := "relay.example.com"; port := JS.Num 1359 |}]
  /\ connects (socket p) = [(JS.Num 2000, "10.0.0.5")]
  /\ notified p = [NotifyClose Connection].
Proof. vm_compute. auto. Qed.

(** C8: with no override and no stored primary address, [start()] tells
    the owner the connection failed and returns: it makes no call on the
    socket and registers no handler, so a fresh instance has made no
    connection attempt, and none follows from the socket's events. *)
Theorem start_without_address (ls : storage) (p : proxy) :
  override p = None ->
  ls ServerAddress = None ->
  socket (start ls p) = socket p
  /\ listeners (start ls p) = listeners p
  /\ notified (start ls p) = notified p ++ [NotifyClose Connection]
  /\ (forall n : nat,
        connects (socket (run (repeat SocketClosed n) (start ls (new None)))) = []).
Proof.
  intros Ho Hs. unfold start. cbn [override set_isStopping new]. rewrite Ho, Hs.
  cbn. repeat split.
  induction n as [|n IH]; [reflexivity|]. exact IH.
Qed.

Lemma start_without_address_witness :
  override (new None) = None /\
  (fun _ : SecureStorageKey => @None string) ServerAddress = None /\
  (socket (start (fun _ => None) (new None)) = socket (new None)
   /\ listeners (start (fun _ => None) (new None)) = listeners (new None)
   /\ notified (start (fun _ => None) (new None))
      = notified (new None) ++ [NotifyClose Connection]
   /\ (forall n : nat,
         connects (socket (run (repeat SocketClosed n)
                             (start (fun _ => None) (new None)))) = [])).
Proof.
  split; [reflexivity|]. split; [reflexivity|].
  apply (start_without_address (fun _ => None) (new None)); reflexivity.
Defined.

End LifeCycle.

(* ===================================================================== *)
(** * The configuration dialog and the reconnection flag *)
(* ===================================================================== *)

Module DialogClaims.
Import DataProxyTCP ConnectionConfigDialog.

Section Facts.
Variable matchesInternetAddress : string -> bool.

Local Abbreviation step := (step matchesInternetAddress).
Local Abbreviation run := (run matchesInternetAddress).
Local Abbreviation submitForm := (submitForm matchesInternetAddress).
Local Abbreviation inputValid := (inputValid matchesInternetAddress).

(** A valid submit, call by call. *)
Lemma submitForm_valid (d : dialog) :
  inputValid d = true ->
  disableAutomaticReconnections (submitForm d) = true
  /\ awaitingStorage (submitForm d) = S (awaitingStorage d)
  /\ calls (submitForm d)
     = calls d
       ++ [ SetDataProxy
              {| primary := address d;
                 fallback := if (0 <? String.length (fallbackAddress d))%nat
                             then Some (fallbackAddress d) else None |};
            SetDisableAutomaticReconnections true;
            SetCryptoPassword (password d);
            SetSecureLS ServerAddress (Some (address d));
            SetSecureLS ServerAddressFallback
              (if (0 <? String.length (fallbackAddress d))%nat
               then Some (fallbackAddress d) else None);
            SetSecureLS ServerPassword (Some (password d)) ].
Proof.
  intros H. unfold submitForm. rewrite H. cbn. repeat split.
  now rewrite <- !app_assoc.
Qed.

(** Only [finish] takes the flag down. *)
Lemma step_keeps_flag (d : dialog) (e : event) :
  is_finish e = false ->
  disableAutomaticReconnections d = true ->
  disableAutomaticReconnections (step d e) = true.
Proof.
  intros He Hd. destruct e; try discriminate He; cbn; try assumption.
  - unfold ConnectionConfigDialog.submitForm.
    destruct (negb (inputValid d)); [assumption | reflexivity].
  - unfold storageDone. destruct (awaitingStorage d); [assumption | exact Hd].
Qed.

Lemma run_keeps_flag (es : list event) (d : dialog) :
  forallb (fun e => negb (is_finish e)) es = true ->
  disableAutomaticReconnections d = true ->
  disableAutomaticReconnections (run es d) = true.
Proof.
  revert d. induction es as [|e es IH]; intros d Hes Hd; [assumption|].
  cbn [forallb] in Hes. apply andb_true_iff in Hes as [He Hes].
  cbn [ConnectionConfigDialog.run fold_left]. apply IH; [assumption|].
  apply step_keeps_flag; [|assumption]. now destruct (is_finish e).
Qed.

(** The record of calls only grows. *)
Lemma step_calls (d : dialog) (e : event) :
  exists more, calls (step d e) = calls d ++ more.
Proof.
  destruct e; cbn; try (exists []; now rewrite app_nil_r).
  - unfold ConnectionConfigDialog.submitForm.
    destruct (negb (inputValid d)) eqn:E.
    + exists []. now rewrite app_nil_r.
    + cbn. rewrite <- !app_assoc. eexists. reflexivity.
  - unfold storageDone. destruct (awaitingStorage d).
    + exists []. now rewrite app_nil_r.
    + cbn. eexists. reflexivity.
  - rewrite <- app_assoc. eexists. reflexivity.
Qed.

Lemma run_calls (es : list event) (d : dialog) :
  exists more, calls (run es d) = calls d ++ more.
Proof.
  revert d. induction es as [|e es IH]; intros d.
  - exists []. cbn. now rewrite app_nil_r.
  - cbn [ConnectionConfigDialog.run fold_left].
    destruct (IH (step d e)) as [m1 H1]. destruct (step_calls d e) as [m2 H2].
    exists (m2 ++ m1). unfold ConnectionConfigDialog.run in H1.
    now rewrite H1, H2, <- app_assoc.
Qed.

(** [connect()] is only ever called by the [then] callback. *)
Lemma step_connect (d : dialog) (e : event) (more : list call) :
  calls (step d e) = calls d ++ more -> In ManagerConnect more -> e = StorageDone.
Proof.
  assert (Hnil : forall l m : list call, l = l ++ m -> m = [])
    by (intros l m H; rewrite <- (app_nil_r l) in H at 1;
        now apply app_inv_head in H).
  destruct e; cbn; intros H Hin; try reflexivity; exfalso;
    try (apply Hnil in H; subst more; now destruct Hin).
  - unfold ConnectionConfigDialog.submitForm in H.
    destruct (negb (inputValid d)).
    + apply Hnil in H. subst more. destruct Hin.
    + cbn in H. rewrite <- !app_assoc in H. apply app_inv_head in H. subst more.
      cbn in Hin. intuition discriminate.
  - rewrite <- app_assoc in H. apply app_inv_head in H. subst more.
    cbn in Hin. intuition discriminate.
Qed.

(** What [finish] does: the flag is passed as false, then the parent's
    callback is called. *)
Lemma finish_effect (d : dialog) :
  disableAutomaticReconnections (finish d) = false
  /\ calls (finish d)
     = calls d ++ [SetDisableAutomaticReconnections false; OnApplyConfig].
Proof. split; [reflexivity|]. cbn. now rewrite <- app_assoc. Qed.

(** Only a submit puts the flag up. *)
Lemma step_keeps_cleared (d : dialog) (e : event) :
  is_submit e = false ->
  disableAutomaticReconnections d = false ->
  disableAutomaticReconnections (step d e) = false.
Proof.
  intros He Hd. destruct e; try discriminate He; cbn; try assumption.
  unfold storageDone. destruct (awaitingStorage d); [assumption | exact Hd].
Qed.

Lemma run_keeps_cleared (es : list event) (d : dialog) :
  forallb (fun e => negb (is_submit e)) es = true ->
  disableAutomaticReconnections d = false ->
  disableAutomaticReconnections (run es d) = false.
Proof.
  revert d. induction es as [|e es IH]; intros d Hes Hd; [assumption|].
  cbn [forallb] in Hes. apply andb_true_iff in Hes as [He Hes].
  cbn [ConnectionConfigDialog.run fold_left]. apply IH; [assumption|].
  apply step_keeps_cleared; [|assumption]. now destruct (is_submit e).
Qed.

(** The flag is the argument of the dialog's latest call of the setter. *)
Lemma last_setting_snoc (cs : list call) (c : call) :
  last_setting (cs ++ [c])
  = match c with
    | SetDisableAutomaticReconnections v => Some v
    | _ => last_setting cs
    end.
Proof. unfold last_setting. now rewrite fold_left_app. Qed.

Lemma submitForm_setting (d : dialog) :
  inputValid d = true ->
  last_setting (calls (submitForm d)) = Some true.
Proof.
  intros H. destruct (submitForm_valid d H) as (_ & _ & ->).
  unfold last_setting. now rewrite fold_left_app.
Qed.

Lemma step_setting (d : dialog) (e : event) :
  last_setting (calls d) = Some (disableAutomaticReconnections d) ->
  last_setting (calls (step d e)) = Some (disableAutomaticReconnections (step d e)).
Proof.
  intros Hd. destruct e; try exact Hd.
  - change (step d SubmitForm) with (submitForm d).
    destruct (inputValid d) eqn:E.
    + rewrite (submitForm_setting d E).
      now destruct (submitForm_valid d E) as (-> & _).
    + unfold ConnectionConfigDialog.submitForm. now rewrite E.
  - cbn [ConnectionConfigDialog.step]. unfold storageDone.
    destruct (awaitingStorage d); [assumption|].
    cbn [calls called set_awaitingStorage disableAutomaticReconnections].
    now rewrite last_setting_snoc.
  - cbn [ConnectionConfigDialog.step finish calls called
           setDisableAutomaticReconnections disableAutomaticReconnections].
    now rewrite !last_setting_snoc.
Qed.

Lemma run_setting (es : list event) (d : dialog) :
  last_setting (calls d) = Some (disableAutomaticReconnections d) ->
  last_setting (calls (run es d)) = Some (disableAutomaticReconnections (run es d)).
Proof.
  revert d. induction es as [|e es IH]; intros d Hd; [assumption|].
  cbn [ConnectionConfigDialog.run fold_left]. apply IH. now apply step_setting.
Qed.

Lemma run_events_app (es es' : list event) (d : dialog) :
  run (es ++ es') d = run es' (run es d).
Proof. apply fold_left_app. Qed.

End Facts.

(** C9: a valid submit sets the connection manager's flag before anything
    else can call [connect()]: the submit itself passes true to
    [setDisableAutomaticReconnections] and leaves [connect()] to the
    callback that waits for the storage.  Whatever follows, the flag stays
    set as long as [finish] has not run, so it is set whenever that
    callback calls [connect()]; if it is found cleared, [finish] has run.
    [finish] sets it back: it passes false to the setter, then calls
    [onApplyConfig], and the flag stays cleared until the next submit.
    Throughout, the flag is the argument of the dialog's latest call of
    the setter. *)
Theorem flag_set_from_submit_to_finish (matchesInternetAddress : string -> bool)
    (d : dialog) (es es' : list event) :
  inputValid matchesInternetAddress d = true ->
  let d1 := submitForm matchesInternetAddress d in
  let d2 := run matchesInternetAddress es d1 in
  let d3 := finish d2 in
  let d4 := run matchesInternetAddress es' d3 in
  disableAutomaticReconnections d1 = true
  /\ awaitingStorage d1 = S (awaitingStorage d)
  /\ (exists o rest,
        calls d1 = calls d ++ SetDataProxy o
                     :: SetDisableAutomaticReconnections true :: rest
        /\ ~ In ManagerConnect rest)
  /\ (exists o rest,
        calls d2 = calls d ++ SetDataProxy o
                     :: SetDisableAutomaticReconnections true :: rest)
  /\ (forallb (fun e => negb (is_finish e)) es = true ->
      disableAutomaticReconnections d2 = true
      /\ disableAutomaticReconnections (storageDone d2) = true
      /\ (awaitingStorage d2 <> 0%nat ->
          calls (storageDone d2) = calls d2 ++ [ManagerConnect]))
  /\ (forall e more,
        calls (step matchesInternetAddress d2 e) = calls d2 ++ more ->
        In ManagerConnect more -> e = StorageDone)
  /\ (disableAutomaticReconnections d2 = false -> In Finish es)
  /\ run matchesInternetAddress (es ++ Finish :: es') d1 = d4
  /\ disableAutomaticReconnections d3 = false
  /\ calls d3 = calls d2 ++ [SetDisableAutomaticReconnections false; OnApplyConfig]
  /\ (forallb (fun e => negb (is_submit e)) es' = true ->
      disableAutomaticReconnections d4 = false)
  /\ last_setting (calls d2) = Some (disableAutomaticReconnections d2)
  /\ last_setting (calls d4) = Some (disableAutomaticReconnections d4).
Proof.
  intros Hv d1 d2 d3 d4.
  destruct (submitForm_valid matchesInternetAddress d Hv) as (Hf & Ha & Hc).
  fold d1 in Hf, Ha, Hc.
  assert (Hs1 : last_setting (calls d1) = Some (disableAutomaticReconnections d1)).
  { rewrite Hf. now apply submitForm_setting. }
  pose proof (run_setting matchesInternetAddress es d1 Hs1) as Hs2. fold d2 in Hs2.
  split; [exact Hf|]. split; [exact Ha|]. split.
  { eexists. eexists. split; [rewrite Hc; reflexivity|]. cbn. intuition discriminate. }
  split.
  { destruct (run_calls matchesInternetAddress es d1) as [more Hm]. fold d2 in Hm.
    eexists. eexists. rewrite Hm, Hc, <- app_assoc. cbn [app]. reflexivity. }
  split; [|split; [intros e more; apply step_connect|]].
  { intros Hes.
    pose proof (run_keeps_flag matchesInternetAddress es d1 Hes Hf) as H2. fold d2 in H2.
    split; [exact H2|]. unfold storageDone.
    destruct (awaitingStorage d2); [split; [exact H2 | congruence]|].
    split; [exact H2 | reflexivity]. }
  split.
  { intros Hoff.
    destruct (forallb (fun e => negb (is_finish e)) es) eqn:E.
    + pose proof (run_keeps_flag matchesInternetAddress es d1 E Hf) as H2.
      fold d2 in H2. congruence.
    + clear -E. induction es as [|e es IH]; [discriminate|].
      cbn [forallb] in E. apply andb_false_iff in E as [E|E].
      * left. destruct e; try discriminate E. reflexivity.
      * right. now apply IH. }
  destruct (finish_effect d2) as [Hoff Hcalls]. fold d3 in Hoff, Hcalls.
  split; [now rewrite run_events_app|].
  split; [exact Hoff|]. split; [exact Hcalls|].
  split; [intros Hes; now apply run_keeps_cleared|].
  split; [exact Hs2|].
  apply run_setting.
  change d3 with (step matchesInternetAddress d2 Finish). now apply step_setting.
Qed.

Lemma flag_set_from_submit_to_finish_witness :
  let accept := fun _ : string => true in
  let d := ConnectionConfigDialog.step accept
             (ConnectionConfigDialog.step accept ConnectionConfigDialog.initial
                (EditAddress "10.0.0.5:2000"))
             (EditPassword "secret") in
  let es := [StorageDone; OnConnecting; OnOpen] in
  let es' := [OnClose Connection; EditPassword "other"] in
  inputValid accept d = true /\
  (let d1 := submitForm accept d in
   let d2 := run accept es d1 in
   let d3 := finish d2 in
   let d4 := run accept es' d3 in
   disableAutomaticReconnections d1 = true
   /\ awaitingStorage d1 = S (awaitingStorage d)
   /\ (exists o rest,
         calls d1 = calls d ++ SetDataProxy o
                      :: SetDisableAutomaticReconnections true :: rest
         /\ ~ In ManagerConnect rest)
   /\ (exists o rest,
         calls d2 = calls d ++ SetDataProxy o
                      :: SetDisableAutomaticReconnections true :: rest)
   /\ (forallb (fun e => negb (is_finish e)) es = true ->
       disableAutomaticReconnections d2 = true
       /\ disableAutomaticReconnections (storageDone d2) = true
       /\ (awaitingStorage d2 <> 0%nat ->
           calls (storageDone d2) = calls d2 ++ [ManagerConnect]))
   /\ (forall e more,
         calls (ConnectionConfigDialog.step accept d2 e) = calls d2 ++ more ->
         In ManagerConnect more -> e = StorageDone)
   /\ (disableAutomaticReconnections d2 = false -> In Finish es)
   /\ run accept (es ++ Finish :: es') d1 = d4
   /\ disableAutomaticReconnections d3 = false
   /\ calls d3 = calls d2 ++ [SetDisableAutomaticReconnections false; OnApplyConfig]
   /\ (forallb (fun e => negb (is_submit e)) es' = true ->
       disableAutomaticReconnections d4 = false)
   /\ last_setting (calls d2) = Some (disableAutomaticReconnections d2)
   /\ last_setting (calls d4) = Some (disableAutomaticReconnections d4)).
Proof.
  intros accept d es es'. split; [reflexivity|].
  apply (flag_set_from_submit_to_finish accept d es es'). reflexivity.
Defined.

End DialogClaims.

(* ===================================================================== *)
(** * The order of the frames [send] writes *)
(* ===================================================================== *)

Module SendOrder.
Import SendPipeline SendShape.

(** ** The promise store *)

Lemma linked_to_ext (h h' : list promise) (cs : list cell) (e : list reaction) :
  (forall q, In q (deriveds cs) -> h' !! q = h !! q) ->
  linked_to h cs e -> linked_to h' cs e.
Proof.
  induction cs as [|c cs IH]; intros Hq H; [exact I|].
  destruct H as [H1 H2]. split.
  - rewrite Hq; [assumption | now left].
  - apply IH; [|assumption]. intros q Hin. apply Hq. now right.
Qed.

Lemma linked_to_lt (h : list promise) (cs : list cell) (e : list reaction) :
  linked_to h cs e -> forall q, In q (deriveds cs) -> (q < length h)%nat.
Proof.
  induction cs as [|c cs IH]; intros H q Hin; [destruct Hin|].
  destruct H as [H1 H2]. destruct Hin as [<-|Hin].
  - eapply lookup_lt_Some. eassumption.
  - now apply IH.
Qed.

Lemma linked_to_alloc (h : list promise) (s : promise) (cs : list cell)
    (e : list reaction) :
  linked_to h cs e -> linked_to (h ++ [s]) cs e.
Proof.
  intros H. apply (linked_to_ext h); [|assumption].
  intros q Hin. apply lookup_app_l. eapply linked_to_lt; eassumption.
Qed.

Lemma linked_to_insert (h : list promise) (p : pid) (s : promise) (cs : list cell)
    (e : list reaction) :
  ~ In p (deriveds cs) -> linked_to h cs e -> linked_to (<[p := s]> h) cs e.
Proof.
  intros Hp H. apply (linked_to_ext h); [|assumption].
  intros q Hin. apply list_lookup_insert_ne. intros ->. contradiction.
Qed.

Lemma linked_to_app (h : list promise) (cs1 cs2 : list cell) (e : list reaction) :
  linked_to h (cs1 ++ cs2) e
  <-> linked_to h cs1 (next_or cs2 e) /\ linked_to h cs2 e.
Proof.
  induction cs1 as [|c cs1 IH]; cbn [app linked_to].
  - tauto.
  - rewrite IH. destruct cs1; cbn [app next_or]; tauto.
Qed.

Lemma lookup_alloc_new (h : list promise) (s : promise) :
  (h ++ [s]) !! length h = Some s.
Proof. now apply list_lookup_middle. Qed.

Lemma lookup_alloc_old (h : list promise) (s s' : promise) (p : pid) :
  h !! p = Some s -> (h ++ [s']) !! p = Some s.
Proof. apply lookup_app_l_Some. Qed.

Lemma last_cons_default (l : list pid) (a x : pid) :
  List.last (a :: l) x = List.last l a.
Proof.
  revert a x. induction l as [|b l IH]; intros a x; [reflexivity|].
  change (List.last (a :: b :: l) x) with (List.last (b :: l) x).
  now rewrite (IH b x), (IH b a).
Qed.

Lemma tail_of_cons (x : pid) (c : cell) (cs : list cell) :
  tail_of x (c :: cs) = tail_of (c_derived c) cs.
Proof. apply last_cons_default. Qed.

Lemma tail_of_snoc (x : pid) (c : cell) (cs : list cell) :
  tail_of x (cs ++ [c]) = c_derived c.
Proof. unfold tail_of, deriveds. rewrite map_app. apply last_last. Qed.

Lemma next_snoc (cs : list cell) (c c' : cell) :
  next ((c :: cs) ++ [c']) = next (c :: cs).
Proof. reflexivity. Qed.

Lemma next_or_app (cs l : list cell) (e : list reaction) :
  cs <> [] -> next_or (cs ++ l) e = next_or cs e.
Proof. destruct cs; [congruence | reflexivity]. Qed.

Lemma head_owns_lt (hp : list promise) (x : pid) (h : head) :
  head_extra hp x h -> forall y, In y (head_owns h) -> (y < length hp)%nat.
Proof.
  destruct h; cbn; intros H y Hin; try contradiction;
    repeat match goal with
           | H : _ /\ _ |- _ => destruct H
           | H : _ \/ _ |- _ => destruct H
           | H : False |- _ => destruct H
           end; subst; eapply lookup_lt_Some; eassumption.
Qed.

Lemma head_extra_ext (hp hp' : list promise) (x : pid) (h : head) :
  (forall y, In y (head_owns h) -> hp' !! y = hp !! y) ->
  head_extra hp x h -> head_extra hp' x h.
Proof.
  destruct h; cbn; intros Hp H; try exact I;
    repeat match goal with
           | H : _ /\ _ |- _ => destruct H
           | |- _ /\ _ => split
           end; rewrite Hp by auto; assumption.
Qed.

Lemma NoDup_snoc_fresh (l : list pid) (n : pid) :
  NoDup l -> (forall p, In p l -> (p < n)%nat) -> NoDup (l ++ [n]).
Proof.
  intros Hl Hn. apply NoDup_app. split; [assumption|]. split.
  - intros p Hp Hin. apply list_elem_of_In in Hp. apply Hn in Hp.
    apply list_elem_of_In in Hin. destruct Hin as [->|[]]. lia.
  - apply NoDup_singleton.
Qed.

Section Steps.
Variable encryptData : list byte -> list byte.

Local Abbreviation chained := (chained).
Local Abbreviation shape := (shape encryptData).
Local Abbreviation frames := (frames encryptData).
Local Abbreviation head_frames := (head_frames encryptData).

(** Everything the chain names is in the store. *)
Lemma chained_lt (st : runtime) (x : pid) (h : head) (cs : list cell) :
  chained st x h cs ->
  forall p, In p (head_owns h ++ x :: deriveds cs) -> (p < length (heap st))%nat.
Proof.
  intros [Hp Hx Hl Hd He Ht Hc] p Hin. apply in_app_or in Hin as [Hin|[<-|Hin]].
  - eapply head_owns_lt; eassumption.
  - eapply lookup_lt_Some; eassumption.
  - eapply linked_to_lt; eassumption.
Qed.

(** A [send] call on a chain adds a cell at its end and writes nothing. *)
Lemma chained_send (st : runtime) (x : pid) (h : head) (cs : list cell)
    (data : list byte) (encrypt : bool) :
  chained st x h cs ->
  chained (send data encrypt st) x h
    (cs ++ [{| c_data := data; c_encrypt := encrypt; c_derived := length (heap st) |}])
  /\ socket (send data encrypt st) = socket st.
Proof.
  intros Hch. pose proof (chained_lt st x h cs Hch) as Hlt.
  destruct Hch as [Hp Hx Hl Hd He Ht Hc].
  set (n := length (heap st)) in *.
  set (c := {| c_data := data; c_encrypt := encrypt; c_derived := n |}).
  assert (Hd' : NoDup (head_owns h ++ x :: deriveds (cs ++ [c]))).
  { unfold deriveds. rewrite map_app, app_comm_cons, app_assoc.
    apply NoDup_snoc_fresh; assumption. }
  assert (Hxlt : (x < n)%nat) by (apply Hlt, in_or_app; right; now left).
  assert (Hxn : x <> n) by lia.
  unfold send. rewrite Hp. cbn [alloc]. fold n.
  unfold register. cbn [heap set_heap].
  destruct cs as [|c0 cs0 _] using rev_ind.
  - (* the chain has no cell: the callback goes on [x] *)
    cbn [tail_of deriveds map List.last app].
    rewrite (lookup_alloc_old _ _ _ _ Hx).
    unfold x_state in *. unfold head_tasks in *.
    destruct (head_pre h) as [pre|] eqn:Epre.
    + split; [|reflexivity]. split; cbn.
      * reflexivity.
      * rewrite list_lookup_insert_eq by (rewrite length_app; cbn; fold n; lia).
        unfold x_state. rewrite Epre. now rewrite app_nil_r.
      * split; [|exact I]. cbn [c_derived c].
        rewrite list_lookup_insert_ne by assumption. apply lookup_alloc_new.
      * exact Hd'.
      * apply (head_extra_ext (heap st)); [|assumption].
        intros y Hy. rewrite list_lookup_insert_ne.
        -- apply lookup_app_l. apply Hlt. apply in_or_app. now left.
        -- intros <-. apply NoDup_app in Hd as (_ & Hd & _).
           apply (Hd x); [now apply list_elem_of_In | left].
      * unfold head_tasks. rewrite Epre. exact Ht.
      * exact Hc.
    + split; [|reflexivity]. split; cbn.
      * reflexivity.
      * unfold x_state. rewrite Epre. now apply lookup_alloc_old.
      * split; [|exact I]. apply lookup_alloc_new.
      * exact Hd'.
      * apply (head_extra_ext (heap st)); [|assumption].
        intros y Hy. apply lookup_app_l. apply Hlt. apply in_or_app. now left.
      * unfold head_tasks. rewrite Epre, Ht. cbn. now rewrite app_nil_r.
      * exact Hc.
  - (* the callback goes on the last cell's promise *)
    rewrite tail_of_snoc.
    apply linked_to_app in Hl as [Hl0 [Hlast _]]. cbn [next_or] in Hlast.
    rewrite (lookup_alloc_old _ _ _ _ Hlast).
    assert (Hq0n : c_derived c0 <> n).
    { apply lookup_lt_Some in Hlast. fold n in Hlast. lia. }
    assert (Hq0 : forall y, In y (head_owns h ++ x :: deriveds cs0) -> y <> c_derived c0).
    { intros y Hy ->. unfold deriveds in Hd. rewrite map_app in Hd.
      rewrite app_comm_cons, app_assoc in Hd. apply NoDup_app in Hd as (_ & Hd & _).
      apply (Hd (c_derived c0)); [now apply list_elem_of_In | now left]. }
    split; [|reflexivity]. split; cbn.
    + now rewrite tail_of_snoc.
    + rewrite list_lookup_insert_ne
        by (intros E; apply (Hq0 x); [apply in_or_app; right; now left | now symmetry]).
      rewrite (lookup_alloc_old _ _ _ _ Hx). unfold next.
      now rewrite (next_or_app (cs0 ++ [c0]) [c]) by (now destruct cs0).
    + unfold linked. rewrite <- app_assoc. apply linked_to_app. split.
      * apply linked_to_insert.
        -- intros Hin. apply (Hq0 (c_derived c0)); [|reflexivity].
           apply in_or_app. right. now right.
        -- now apply linked_to_alloc.
      * cbn. split; [|split; [|exact I]].
        -- apply list_lookup_insert_eq. rewrite length_app. cbn.
           apply lookup_lt_Some in Hlast. lia.
        -- rewrite list_lookup_insert_ne by assumption. apply lookup_alloc_new.
    + exact Hd'.
    + apply (head_extra_ext (heap st)); [|assumption].
      intros y Hy. rewrite list_lookup_insert_ne.
      * apply lookup_app_l. apply Hlt. apply in_or_app. now left.
      * intros E. apply (Hq0 y); [apply in_or_app; now left | now symmetry].
    + rewrite Ht. unfold head_tasks, next.
      now rewrite (next_or_app (cs0 ++ [c0]) [c]) by (now destruct cs0).
    + exact Hc.
Qed.

(** The first [send] call of an instance. *)
Lemma fresh_send_encrypted (st : runtime) (data : list byte) :
  previousEncrypt st = None -> microtasks st = [] -> encrypting st = [] ->
  chained (send data true st) (length (heap st)) (RootEncrypting data) []
  /\ socket (send data true st) = socket st.
Proof.
  intros Hp Ht Hc. unfold send, call_encryptData, register. rewrite Hp.
  cbn [alloc set_heap set_encrypting set_previousEncrypt heap].
  rewrite lookup_alloc_new. split; [|reflexivity]. split; cbn.
  - reflexivity.
  - apply list_lookup_insert_eq. rewrite length_app. cbn. lia.
  - exact I.
  - apply NoDup_singleton.
  - exact I.
  - exact Ht.
  - now rewrite Hc.
Qed.

Lemma fresh_send_plain (st : runtime) (data : list byte) :
  previousEncrypt st = None ->
  send data false st
  = set_socket (socket st ++ [frame_of encryptData data false]) st.
Proof. intros Hp. unfold send. now rewrite Hp. Qed.

(** A microtask on a chain: the head moves on, and what it writes is the
    first frame still to be written. *)
Lemma chained_tick (st st' : runtime) (x : pid) (h : head) (cs : list cell) :
  chained st x h cs -> tick st = Some st' ->
  exists x' h' cs',
    chained st' x' h' cs'
    /\ socket st' ++ head_frames h' ++ frames cs'
       = socket st ++ head_frames h ++ frames cs
    /\ (weight h' cs' < weight h cs)%nat.
Proof.
  intros Hch Hstep. pose proof (chained_lt st x h cs Hch) as Hlt.
  destruct Hch as [Hp Hx Hl Hd He Ht Hc].
  unfold tick in Hstep. rewrite Ht in Hstep.
  destruct h as [d|w|v|r v|v|r p d|r p d|r w|r w];
    cbn [head_tasks head_jobs head_pre head_value app] in Hstep.
  - discriminate.
  - (* the first send resumes and writes *)
    injection Hstep as <-.
    exists x, (Ready (Buffer w)), cs. split; [|split; [|cbn; lia]].
    + split; cbn; auto.
    + cbn. unfold Framing.writeSync. now rewrite <- !app_assoc.
  - (* the next callback starts *)
    destruct cs as [|[d e q] cs]; [discriminate|].
    cbn [next next_or map callback c_data c_encrypt c_derived] in Hstep.
    injection Hstep as <-.
    destruct Hl as [Hq Hl]. cbn [c_derived] in Hq.
    assert (Hqlt : (q < length (heap st))%nat) by (eapply lookup_lt_Some; eassumption).
    assert (Hd2 : NoDup (q :: deriveds cs)).
    { cbn in Hd. now apply NoDup_cons in Hd as [_ Hd]. }
    assert (Hlt2 : forall y, In y (q :: deriveds cs) -> (y < length (heap st))%nat).
    { intros y Hy. apply Hlt. cbn. right. exact Hy. }
    destruct e; cbn [run_job].
    + (* it calls encryptData and awaits *)
      exists q, (EncThenable (length (heap st)) (S (length (heap st))) d), cs.
      cbn [alloc call_encryptData set_heap set_microtasks heap].
      unfold register. cbn [heap set_encrypting set_heap].
      rewrite length_app. cbn [length]. rewrite Nat.add_1_r.
      assert (E1 : ((heap st ++ [Pending []]) ++ [Pending []]) !! S (length (heap st))
                   = Some (Pending [])).
      { replace (S (length (heap st))) with (length (heap st ++ [Pending []]))
          by (rewrite length_app; cbn; lia). apply lookup_alloc_new. }
      rewrite E1. split; [|split; [|unfold weight; cbn; lia]].
      * split; cbn.
        -- now rewrite Hp, tail_of_cons.
        -- rewrite list_lookup_insert_ne by lia.
           now apply lookup_alloc_old, lookup_alloc_old.
        -- apply linked_to_insert.
           ++ intros Hin. specialize (Hlt2 _ (or_intror Hin)). lia.
           ++ now apply linked_to_alloc, linked_to_alloc.
        -- apply NoDup_cons. split.
           ++ intros Hin. apply list_elem_of_In in Hin. destruct Hin as [Hin|Hin]; [lia|].
              specialize (Hlt2 _ Hin). lia.
           ++ apply NoDup_cons. split; [|assumption].
              intros Hin. apply list_elem_of_In in Hin. specialize (Hlt2 _ Hin). lia.
        -- split.
           ++ rewrite list_lookup_insert_ne by lia.
              apply lookup_alloc_old, lookup_alloc_new.
           ++ apply list_lookup_insert_eq. rewrite !length_app. cbn. lia.
        -- reflexivity.
        -- now rewrite Hc.
      * reflexivity.
    + (* it writes and returns *)
      exists q, (PlainThenable (length (heap st)) Undefined), cs.
      cbn [alloc writeSync set_heap set_microtasks set_socket heap enqueue microtasks].
      split; [|split; [|unfold weight; cbn; lia]].
      * split; cbn.
        -- now rewrite Hp, tail_of_cons.
        -- now apply lookup_alloc_old.
        -- now apply linked_to_alloc.
        -- apply NoDup_cons. split; [|assumption].
           intros Hin. apply list_elem_of_In in Hin. specialize (Hlt2 _ Hin). lia.
        -- apply lookup_alloc_new.
        -- reflexivity.
        -- exact Hc.
      * cbn. unfold Framing.writeSync, frame_of. now rewrite <- !app_assoc.
  - (* [x] is handed to the callback's promise, already fulfilled *)
    injection Hstep as <-. cbn in He. cbn [run_job]. unfold register.
    cbn [heap set_microtasks]. rewrite He.
    exists x, (Resolving v), cs. split; [|split; [reflexivity | cbn; lia]].
    split; cbn; auto. cbn in Hd. now apply NoDup_cons in Hd as [_ Hd].
  - (* [x] is fulfilled *)
    injection Hstep as <-. cbn [run_job]. unfold fulfil.
    cbn [heap set_microtasks]. rewrite Hx. cbn [x_state head_pre app].
    exists x, (Ready v), cs. split; [|split; [reflexivity | cbn; lia]].
    assert (Hxc : ~ In x (deriveds cs)).
    { cbn in Hd. apply NoDup_cons in Hd as [Hd _]. intros Hin. apply Hd.
      now apply list_elem_of_In. }
    split; cbn; auto.
    + apply list_lookup_insert_eq. apply Hlt. now left.
    + now apply linked_to_insert.
  - (* [x] is handed to the callback's promise, still pending *)
    injection Hstep as <-. destruct He as [Hr Hpp]. cbn [run_job]. unfold register.
    cbn [heap set_microtasks]. rewrite Hr.
    exists x, (EncWaiting r p d), cs. split; [|split; [reflexivity | cbn; lia]].
    cbn in Hd. apply NoDup_cons in Hd as [Hr1 Hd]. apply NoDup_cons in Hd as [Hp1 Hd].
    rewrite list_elem_of_In in Hr1. rewrite list_elem_of_In in Hp1. cbn in Hr1, Hp1.
    split; cbn.
    + assumption.
    + rewrite list_lookup_insert_ne by (intuition congruence). assumption.
    + apply linked_to_insert; [intuition congruence | assumption].
    + apply NoDup_cons. rewrite list_elem_of_In. split; [cbn; intuition congruence|].
      apply NoDup_cons. rewrite list_elem_of_In. split; [cbn; intuition congruence | assumption].
    + split.
      * apply list_lookup_insert_eq. eapply lookup_lt_Some; eassumption.
      * rewrite list_lookup_insert_ne by (intuition congruence). assumption.
    + reflexivity.
    + assumption.
  - discriminate.
  - (* the same, with the ciphertext already there *)
    injection Hstep as <-. cbn in He. cbn [run_job]. unfold register.
    cbn [heap set_microtasks]. rewrite He.
    exists x, (EncDone r w), cs. split; [|split; [reflexivity | cbn; lia]].
    cbn in Hd. apply NoDup_cons in Hd as [Hr1 Hd].
    rewrite list_elem_of_In in Hr1. cbn in Hr1.
    split; cbn.
    + assumption.
    + rewrite list_lookup_insert_ne by (intuition congruence). assumption.
    + apply linked_to_insert; [intuition congruence | assumption].
    + apply NoDup_cons. rewrite list_elem_of_In. split; [cbn; intuition congruence | assumption].
    + apply list_lookup_insert_eq. eapply lookup_lt_Some; eassumption.
    + reflexivity.
    + assumption.
  - (* the callback resumes with the ciphertext and writes *)
    injection Hstep as <-. cbn in He. cbn [run_job writeSync]. unfold fulfil.
    cbn [heap set_microtasks set_socket]. rewrite He.
    exists x, (Resolving Undefined), cs.
    cbn in Hd. apply NoDup_cons in Hd as [Hr1 Hd].
    rewrite list_elem_of_In in Hr1. cbn in Hr1.
    split; [|split; [|cbn; lia]].
    + split; cbn.
      * assumption.
      * rewrite list_lookup_insert_ne by (intuition congruence). assumption.
      * apply linked_to_insert; [intuition congruence | assumption].
      * assumption.
      * exact I.
      * reflexivity.
      * assumption.
    + cbn. unfold Framing.writeSync. now rewrite <- !app_assoc.
Qed.

(** An encryption completing on a chain: the frame the head was to write
    is the ciphertext's frame, and it is queued. *)
Lemma chained_encrypted (st st' : runtime) (x : pid) (h : head) (cs : list cell)
    (p : pid) :
  chained st x h cs -> encrypted encryptData p st = Some st' ->
  exists h',
    chained st' x h' cs /\ socket st' = socket st /\ head_frames h' = head_frames h
    /\ (weight h' cs < weight h cs)%nat.
Proof.
  intros Hch Hstep. pose proof (chained_lt st x h cs Hch) as Hlt.
  destruct Hch as [Hp Hx Hl Hd He Ht Hc].
  unfold encrypted in Hstep. rewrite Hc in Hstep.
  destruct h as [d|w|v|r v|v|r p' d|r p' d|r w|r w];
    cbn [head_encrypting take_encrypting] in Hstep; try discriminate Hstep.
  - destruct (Nat.eqb_spec p x) as [->|_]; [|discriminate].
    injection Hstep as <-. unfold fulfil. cbn [heap set_encrypting].
    rewrite Hx. cbn [x_state head_pre app].
    exists (RootResume (encryptData d)). split; [|split; [|split]; [reflexivity | reflexivity | cbn; lia]].
    assert (Hxc : ~ In x (deriveds cs)).
    { cbn in Hd. apply NoDup_cons in Hd as [Hd _]. intros Hin. apply Hd.
      now apply list_elem_of_In. }
    split; cbn; auto.
    + apply list_lookup_insert_eq. apply Hlt. now left.
    + now apply linked_to_insert.
    + now rewrite Ht.
  - destruct (Nat.eqb_spec p p') as [->|_]; [|discriminate].
    injection Hstep as <-. destruct He as [Hr Hpp]. unfold fulfil.
    cbn [heap set_encrypting]. rewrite Hpp.
    exists (EncDoneThenable r (encryptData d)). split; [|split; [|split]; [reflexivity | reflexivity | cbn; lia]].
    cbn in Hd. apply NoDup_cons in Hd as [Hr1 Hd]. apply NoDup_cons in Hd as [Hp1 Hd].
    rewrite list_elem_of_In in Hr1. rewrite list_elem_of_In in Hp1. cbn in Hr1, Hp1.
    split; cbn.
    + assumption.
    + rewrite list_lookup_insert_ne by (intuition congruence). assumption.
    + apply linked_to_insert; [intuition congruence | assumption].
    + apply NoDup_cons. rewrite list_elem_of_In. split; [intuition congruence | assumption].
    + rewrite list_lookup_insert_ne by (intuition congruence). assumption.
    + now rewrite Ht.
    + reflexivity.
  - destruct (Nat.eqb_spec p p') as [->|_]; [|discriminate].
    injection Hstep as <-. destruct He as [Hr Hpp]. unfold fulfil.
    cbn [heap set_encrypting]. rewrite Hpp.
    exists (EncDone r (encryptData d)). split; [|split; [|split]; [reflexivity | reflexivity | cbn; lia]].
    cbn in Hd. apply NoDup_cons in Hd as [Hr1 Hd]. apply NoDup_cons in Hd as [Hp1 Hd].
    rewrite list_elem_of_In in Hr1. rewrite list_elem_of_In in Hp1. cbn in Hr1, Hp1.
    split; cbn.
    + assumption.
    + rewrite list_lookup_insert_ne by (intuition congruence). assumption.
    + apply linked_to_insert; [intuition congruence | assumption].
    + apply NoDup_cons. rewrite list_elem_of_In. split; [intuition congruence | assumption].
    + rewrite list_lookup_insert_ne by (intuition congruence). assumption.
    + now rewrite Ht.
    + reflexivity.
Qed.

(** ** The invariant *)

(** Every step keeps the runtime in shape; the frames written and the
    frames still to be written, together, grow by the frame of the step's
    [send] call, at the end. *)
Ltac solve_list_eq :=
  cbn; rewrite ?app_nil_r, <- ?app_assoc; cbn; reflexivity.

Lemma step_shape (st st' : runtime) (l : label) (todo : list Socket.call) :
  shape st todo -> step encryptData st l = Some st' ->
  exists todo',
    shape st' todo'
    /\ socket st' ++ todo' = (socket st ++ todo) ++ submitted encryptData [l].
Proof.
  intros Hs Hstep. destruct Hs as [Hp Ht Hc | x h cs Hch].
  - destruct l as [data encrypt|p|]; cbn [step] in Hstep.
    + injection Hstep as <-. destruct encrypt.
      * destruct (fresh_send_encrypted st data Hp Ht Hc) as [Hch Hsock].
        eexists. split; [apply (shape_chained _ _ _ _ _ Hch)|].
        rewrite Hsock. solve_list_eq.
      * rewrite (fresh_send_plain st data Hp). exists []. split.
        -- now apply shape_fresh.
        -- solve_list_eq.
    + unfold encrypted in Hstep. rewrite Hc in Hstep. discriminate.
    + unfold tick in Hstep. rewrite Ht in Hstep. discriminate.
  - destruct l as [data encrypt|p|]; cbn [step] in Hstep.
    + injection Hstep as <-.
      destruct (chained_send st x h cs data encrypt Hch) as [Hch' Hsock].
      eexists. split; [apply (shape_chained _ _ _ _ _ Hch')|].
      rewrite Hsock. unfold SendShape.frames. rewrite map_app. solve_list_eq.
    + destruct (chained_encrypted st st' x h cs p Hch Hstep) as (h' & Hch' & Hsock & Hf & _).
      eexists. split; [apply (shape_chained _ _ _ _ _ Hch')|].
      rewrite Hsock, Hf. solve_list_eq.
    + destruct (chained_tick st st' x h cs Hch Hstep) as (x' & h' & cs' & Hch' & Hf & _).
      eexists. split; [apply (shape_chained _ _ _ _ _ Hch')|].
      rewrite Hf. solve_list_eq.
Qed.

Lemma submitted_app (l1 l2 : list label) :
  submitted encryptData (l1 ++ l2)
  = submitted encryptData l1 ++ submitted encryptData l2.
Proof. unfold submitted. apply flat_map_app. Qed.

Lemma run_shape (ls : list label) (st st' : runtime) (todo : list Socket.call) :
  shape st todo -> run encryptData ls st = Some st' ->
  exists todo',
    shape st' todo'
    /\ socket st' ++ todo' = (socket st ++ todo) ++ submitted encryptData ls.
Proof.
  revert st todo. induction ls as [|l ls IH]; intros st todo Hs Hrun.
  - injection Hrun as <-. exists todo. split; [assumption|].
    cbn. now rewrite app_nil_r.
  - cbn [run] in Hrun. destruct (step encryptData st l) as [st1|] eqn:E; [|discriminate].
    destruct (step_shape st st1 l todo Hs E) as (todo1 & Hs1 & H1).
    destruct (IH st1 todo1 Hs1 Hrun) as (todo' & Hs' & H').
    exists todo'. split; [assumption|].
    rewrite H', H1. change (l :: ls) with ([l] ++ ls).
    now rewrite submitted_app, <- !app_assoc.
Qed.

Lemma initial_shape : shape initial [].
Proof. now apply shape_fresh. Qed.

(** ** Progress *)

Lemma next_label_enabled (st : runtime) (l : label) :
  next_label st = Some l ->
  is_send l = false /\ exists st', step encryptData st l = Some st'.
Proof.
  unfold next_label. destruct (microtasks st) as [|j rest] eqn:Et.
  - destruct (encrypting st) as [|[p d] rest] eqn:Ec; [discriminate|].
    intros [= <-]. split; [reflexivity|]. cbn [step]. unfold encrypted.
    rewrite Ec. cbn [take_encrypting]. rewrite Nat.eqb_refl. eexists. reflexivity.
  - intros [= <-]. split; [reflexivity|]. cbn [step]. unfold tick. rewrite Et.
    eexists. reflexivity.
Qed.

(** With nothing queued and nothing being encrypted, nothing is left to
    write. *)
Lemma chained_quiescent (st : runtime) (x : pid) (h : head) (cs : list cell) :
  chained st x h cs -> next_label st = None -> head_frames h ++ frames cs = [].
Proof.
  intros [Hp Hx Hl Hd He Ht Hc]. unfold next_label. rewrite Ht, Hc.
  destruct h; cbn; try discriminate.
  destruct cs; [reflexivity | discriminate].
Qed.

(** Left to itself, a chain writes every frame it still holds. *)
Lemma chained_drain (n : nat) (st : runtime) (x : pid) (h : head) (cs : list cell) :
  (weight h cs <= n)%nat -> chained st x h cs ->
  exists ls st',
    forallb (fun l => negb (is_send l)) ls = true
    /\ run encryptData ls st = Some st'
    /\ socket st' = socket st ++ head_frames h ++ frames cs.
Proof.
  revert st x h cs. induction n as [|n IH]; intros st x h cs Hw Hch.
  - destruct (next_label st) as [l|] eqn:El.
    + exfalso. destruct (next_label_enabled st l El) as [_ [st' Hstep]].
      destruct l as [d e|p|].
      * unfold next_label in El.
        destruct (microtasks st), (encrypting st) as [|[? ?] ?]; discriminate.
      * destruct (chained_encrypted st st' x h cs p Hch Hstep) as (? & _ & _ & _ & Hlt). lia.
      * destruct (chained_tick st st' x h cs Hch Hstep) as (? & ? & ? & _ & _ & Hlt). lia.
    + exists [], st. rewrite (chained_quiescent st x h cs Hch El).
      split; [reflexivity|]. split; [reflexivity|]. now rewrite app_nil_r.
  - destruct (next_label st) as [l|] eqn:El.
    + destruct (next_label_enabled st l El) as [Hns [st1 Hstep]].
      destruct l as [d e|p|]; [discriminate Hns| |].
      * destruct (chained_encrypted st st1 x h cs p Hch Hstep)
          as (h1 & Hch1 & Hsock & Hf & Hlt).
        destruct (IH st1 x h1 cs ltac:(lia) Hch1) as (ls & st' & Hls & Hrun & Hs).
        exists (Encrypted p :: ls), st'. split; [exact Hls|]. split.
        -- cbn [run]. now rewrite Hstep.
        -- now rewrite Hs, Hsock, Hf.
      * destruct (chained_tick st st1 x h cs Hch Hstep)
          as (x1 & h1 & cs1 & Hch1 & Hf & Hlt).
        destruct (IH st1 x1 h1 cs1 ltac:(lia) Hch1) as (ls & st' & Hls & Hrun & Hs).
        exists (Tick :: ls), st'. split; [exact Hls|]. split.
        -- cbn [run]. now rewrite Hstep.
        -- now rewrite Hs, Hf.
    + exists [], st. rewrite (chained_quiescent st x h cs Hch El).
      split; [reflexivity|]. split; [reflexivity|]. now rewrite app_nil_r.
Qed.

Lemma shape_drain (st : runtime) (todo : list Socket.call) :
  shape st todo ->
  exists ls st',
    forallb (fun l => negb (is_send l)) ls = true
    /\ run encryptData ls st = Some st'
    /\ socket st' = socket st ++ todo.
Proof.
  intros [Hp Ht Hc | x h cs Hch].
  - exists [], st. split; [reflexivity|]. split; [reflexivity|]. now rewrite app_nil_r.
  - apply (chained_drain (weight h cs) st x h cs); [lia | assumption].
Qed.

End Steps.

(** Whatever the history, the socket holds a prefix of the frames of the
    [send] calls, in the order of the calls, and the rest follows once the
    pending microtasks and encryptions have run. *)
Lemma written_prefix_of_submitted (encryptData : list byte -> list byte)
    (ls : list label) (st : runtime) :
  run encryptData ls initial = Some st ->
  (exists todo, socket st ++ todo = submitted encryptData ls)
  /\ (exists ls' st',
        forallb (fun l => negb (is_send l)) ls' = true
        /\ run encryptData ls' st = Some st'
        /\ socket st' = submitted encryptData ls).
Proof.
  intros Hrun.
  destruct (run_shape encryptData ls initial st [] (initial_shape encryptData) Hrun)
    as (todo & Hs & H).
  cbn in H. split; [now exists todo|].
  destruct (shape_drain encryptData st todo Hs) as (ls' & st' & Hls & Hrun' & Hsock).
  exists ls', st'. now rewrite Hsock, H.
Qed.

(** C6: [send(A)] is called, then [send(B)], on one instance, with any
    flags, anywhere in a history of [send] calls, microtasks and
    encryptions completing in any order.  At every moment the socket holds
    a prefix of the frames in the order of the calls, so B's frame is on
    the socket only if A's frame is, at an earlier place; and left to
    itself the runtime ends up having written them all. *)
Theorem send_order_preserved (encryptData : list byte -> list byte)
    (before between after : list label) (A B : list byte) (encryptA encryptB : bool)
    (st : runtime) :
  run encryptData
    (before ++ Send A encryptA :: between ++ Send B encryptB :: after) initial
  = Some st ->
  let frameA := frame_of encryptData A encryptA in
  let frameB := frame_of encryptData B encryptB in
  let expected :=
    submitted encryptData before ++ frameA
      :: submitted encryptData between ++ frameB :: submitted encryptData after in
  let iA := length (submitted encryptData before) in
  let iB := (iA + 1 + length (submitted encryptData between))%nat in
  (exists todo, socket st ++ todo = expected)
  /\ ((iB < length (socket st))%nat ->
      (iA < iB)%nat /\ socket st !! iA = Some frameA /\ socket st !! iB = Some frameB)
  /\ (exists ls' st',
        forallb (fun l => negb (is_send l)) ls' = true
        /\ run encryptData ls' st = Some st'
        /\ socket st' = expected).
Proof.
  intros Hrun frameA frameB expected iA iB.
  destruct (written_prefix_of_submitted encryptData _ st Hrun) as [[todo Hp] Hd].
  assert (He : submitted encryptData
                 (before ++ Send A encryptA :: between ++ Send B encryptB :: after)
               = expected).
  { rewrite submitted_app. cbn [submitted flat_map app].
    fold (submitted encryptData (between ++ Send B encryptB :: after)).
    rewrite submitted_app. reflexivity. }
  rewrite He in Hp, Hd. split; [now exists todo|]. split; [|exact Hd].
  intros Hlen. split; [unfold iB; lia|].
  assert (HA : expected !! iA = Some frameA) by (unfold expected, iA; apply list_lookup_middle; reflexivity).
  assert (HB : expected !! iB = Some frameB).
  { replace expected
      with ((submitted encryptData before ++ frameA :: submitted encryptData between)
            ++ frameB :: submitted encryptData after)
      by (unfold expected; rewrite <- app_assoc; reflexivity).
    apply list_lookup_middle. unfold iB, iA. rewrite length_app. cbn. lia. }
  rewrite <- Hp in HA, HB.
  rewrite lookup_app_l in HA by (unfold iB in Hlen; lia).
  rewrite lookup_app_l in HB by assumption.
  split; assumption.
Qed.

Lemma send_order_preserved_witness :
  exists st,
    run Samples.rot
      ([] ++ Send [x01; x02] true :: [] ++ Send [x03] false :: [Encrypted 0%nat; Tick])
      initial = Some st
    /\ (let frameA := frame_of Samples.rot [x01; x02] true in
        let frameB := frame_of Samples.rot [x03] false in
        let expected :=
          submitted Samples.rot [] ++ frameA
            :: submitted Samples.rot [] ++ frameB
            :: submitted Samples.rot [Encrypted 0%nat; Tick] in
        let iA := length (submitted Samples.rot []) in
        let iB := (iA + 1 + length (submitted Samples.rot []))%nat in
        (exists todo, socket st ++ todo = expected)
        /\ ((iB < length (socket st))%nat ->
            (iA < iB)%nat /\ socket st !! iA = Some frameA
            /\ socket st !! iB = Some frameB)
        /\ (exists ls' st',
              forallb (fun l => negb (is_send l)) ls' = true
              /\ run Samples.rot ls' st = Some st'
              /\ socket st' = expected)).
Proof.
  eexists. split; [reflexivity|].
  apply (send_order_preserved Samples.rot [] [] [Encrypted 0%nat; Tick]
           [x01; x02] [x03] true false).
  reflexivity.
Defined.

End SendOrder.

(* ===================================================================== *)
(** * More on framing: streams, chunking, headers the reader cannot serve *)
(* ===================================================================== *)

Module StreamFacts.
Import Bytes Framing FramingMore BytesFacts WriterFacts ReaderFacts.

(** The handler only stops when nothing more can be read. *)
Lemma readable_loop_at_rest (fuel : nat) (r r' : reader) (out out' : list submission) :
  readable_loop fuel r out = Some (r', out') -> at_rest r'.
Proof.
  revert r out. induction fuel as [|fuel IH]; intros [md buf] out H; [discriminate|].
  cbn [readable_loop messageData input] in H. destruct md as [md|].
  - destruct (Socket.read (size md) buf) as [[data|] rest] eqn:E.
    + now apply IH in H.
    + injection H as <- <-. apply read_none_inv in E as [_ E]. exact E.
  - destruct (Socket.read (4 + 1) buf) as [[data|] rest] eqn:E.
    + now apply IH in H.
    + injection H as <- <-. apply read_none_inv in E as [_ E].
      unfold at_rest. cbn [messageData input]. lia.
Qed.

(** Every [readable] event returns, and leaves the handler at rest: it
    takes every complete header and body the socket holds. *)
Lemma readable_at_rest (chunk : list byte) (r : reader) :
  exists r' out, readable chunk r = Some (r', out) /\ at_rest r'.
Proof.
  destruct (readable_total chunk r) as [[r' out] H].
  exists r', out. split; [assumption|].
  unfold readable in H. now apply readable_loop_at_rest in H.
Qed.

(** ** A stream of frames *)

Lemma stream_cons (d : list byte) (e : bool) (msgs : list submission) :
  stream ((d, e) :: msgs) = frame d e ++ stream msgs.
Proof. reflexivity. Qed.

Lemma loop_stream (msgs : list submission) :
  Forall readable_payload msgs ->
  forall (fuel : nat) (out : list submission),
  (length (stream msgs) < fuel)%nat ->
  readable_loop fuel {| messageData := None; input := stream msgs |} out
  = Some (initial, out ++ msgs).
Proof.
  induction 1 as [|[d e] msgs [Hpos Hlt] Hall IH]; intros fuel out Hf.
  - destruct fuel; [lia|]. cbn [stream map concat] in *.
    rewrite loop_wait_header by (cbn; lia). now rewrite app_nil_r.
  - cbn [fst] in Hpos, Hlt. rewrite stream_cons in *.
    rewrite length_app, frame_length in Hf.
    destruct fuel as [|[|fuel]]; [lia | lia |].
    rewrite frame_layout.
    set (hdr := int32_bytes_BE (toInt32 (Z.of_nat (length d)))).
    rewrite (app_assoc hdr [flag_byte e] d), <- app_assoc.
    rewrite loop_header by reflexivity.
    unfold hdr. rewrite parse_header_frame, toInt32_small by lia.
    rewrite loop_body by (cbn [size]; lia).
    cbn [isEncrypted]. rewrite IH by lia. now rewrite <- app_assoc.
Qed.

Lemma feed_stream (msgs : list submission) (c : list byte)
    (chunks : list (list byte)) :
  Forall readable_payload msgs ->
  c ++ concat chunks = stream msgs ->
  feed (c :: chunks) initial = Some (initial, msgs).
Proof.
  intros Hall Hc. rewrite feed_concat, Hc.
  unfold readable, readable_fuel, initial. cbn [messageData input app].
  now rewrite loop_stream by (auto; lia).
Qed.

(** ** The wire encoding *)

Lemma frame_inj (d1 d2 : list byte) (e1 e2 : bool) :
  frame d1 e1 = frame d2 e2 <-> d1 = d2 /\ e1 = e2.
Proof.
  split; [|now intros [-> ->]].
  rewrite !frame_layout. cbn [int32_bytes_BE app]. intros H.
  injection H as _ _ _ _ Hf Hd. split; [assumption|].
  destruct e1, e2; (reflexivity || discriminate Hf).
Qed.

(** ** A header the reader cannot serve *)

Lemma negative_size (b0 b1 b2 b3 f : byte) :
  128 <= Z_of_byte b0 -> readInt32BE [b0; b1; b2; b3; f] 0 < 0.
Proof.
  intros H. unfold readInt32BE. cbn [drop].
  pose proof (Z_of_byte_range b0). pose proof (Z_of_byte_range b1).
  pose proof (Z_of_byte_range b2). pose proof (Z_of_byte_range b3).
  rewrite Z.shiftl_mul_pow2 by lia. unfold toInt32.
  change (2 ^ 32) with 4294967296. change (2 ^ 31) with 2147483648.
  change (2 ^ 24) with 16777216. change (2 ^ 16) with 65536. change (2 ^ 8) with 256.
  Z.div_mod_to_equations. lia.
Qed.

Lemma feed_negative_size (b0 b1 b2 b3 f : byte) (later : list (list byte)) :
  128 <= Z_of_byte b0 ->
  let hdr := [b0; b1; b2; b3; f] in
  readInt32BE hdr 0 < 0
  /\ feed (hdr :: later) initial
     = Some ({| messageData := Some (parse_header hdr); input := concat later |}, []).
Proof.
  intros H hdr. pose proof (negative_size b0 b1 b2 b3 f H) as Hneg.
  change (readInt32BE hdr 0 < 0) in Hneg.
  split; [exact Hneg|]. cbn [feed].
  assert (Hr : readable hdr initial
               = Some ({| messageData := Some (parse_header hdr); input := [] |}, [])).
  { unfold readable, readable_fuel, initial. cbn [messageData input].
    change ([] ++ hdr) with (hdr ++ []).
    change (S (length (hdr ++ []))) with (S 5).
    rewrite loop_header by reflexivity.
    apply loop_wait_body. left.
    change (size (parse_header hdr)) with (readInt32BE hdr 0). lia. }
  rewrite Hr, feed_stuck
    by (change (size (parse_header hdr)) with (readInt32BE hdr 0); lia).
  reflexivity.
Qed.

(** ** No byte is dropped and none is read twice *)

Lemma wire_size_app (o1 o2 : list submission) :
  wire_size (o1 ++ o2) = (wire_size o1 + wire_size o2)%nat.
Proof. unfold wire_size. now rewrite map_app, list_sum_app. Qed.

Lemma loop_conserves (fuel : nat) (r r' : reader) (out : list submission) :
  readable_loop fuel r [] = Some (r', out) ->
  held r = (held r' + wire_size out)%nat.
Proof.
  revert r out. induction fuel as [|fuel IH]; intros [md buf] out H; [discriminate|].
  cbn [readable_loop messageData input] in H. destruct md as [md|].
  - destruct (Socket.read (size md) buf) as [[data|] rest] eqn:E.
    + apply read_inv in E as (-> & Hpos & Hlen).
      rewrite readable_loop_out in H.
      destruct (readable_loop fuel {| messageData := None; input := rest |} [])
        as [[r1 o1]|] eqn:E1; [|discriminate].
      cbn [prepend] in H. injection H as <- <-. apply IH in E1.
      unfold held in *. cbn [messageData input] in *.
      rewrite length_app.
      change (wire_size ((data, isEncrypted md) :: o1))
        with (5 + length data + wire_size o1)%nat.
      lia.
    + injection H as <- <-. unfold wire_size. cbn. lia.
  - destruct (Socket.read (4 + 1) buf) as [[data|] rest] eqn:E.
    + apply read_inv in E as (-> & Hpos & Hlen). apply IH in H.
      unfold held in *. cbn [messageData input] in *. rewrite length_app. lia.
    + injection H as <- <-. unfold wire_size. cbn. lia.
Qed.

Lemma feed_conserves (chunks : list (list byte)) (r r' : reader)
    (out : list submission) :
  feed chunks r = Some (r', out) ->
  (held r + length (concat chunks))%nat = (held r' + wire_size out)%nat.
Proof.
  revert r out. induction chunks as [|c chunks IH]; intros r out H.
  - injection H as <- <-. unfold wire_size. cbn. lia.
  - cbn [feed] in H. destruct (readable c r) as [[r1 o1]|] eqn:E1; [|discriminate].
    destruct (feed chunks r1) as [[r2 o2]|] eqn:E2; [|discriminate].
    injection H as <- <-. apply IH in E2. unfold readable in E1.
    apply loop_conserves in E1. unfold held in *. cbn [messageData input concat] in *.
    rewrite wire_size_app. rewrite !length_app in *. lia.
Qed.

End StreamFacts.

Module FramingProperties.
Import Bytes Framing FramingMore BytesFacts WriterFacts ReaderFacts StreamFacts.

(** X1: two frames are the same bytes only if they carry the same payload
    and the same flag: the wire encoding of [writeSync] loses nothing. *)
Theorem frame_injective (d1 d2 : list byte) (e1 e2 : bool) :
  frame d1 e1 = frame d2 e2 <-> d1 = d2 /\ e1 = e2.
Proof. apply frame_inj. Qed.





(** X4: the read side neither drops a byte nor reads one twice: the bytes
    it held before a run of [readable] events and those that arrived are
    the bytes it holds after it (buffered, or the five of a header read
    and not yet used) and those of the frames it has taken, five and the
    body for each. *)
Theorem reader_conserves_bytes (chunks : list (list byte)) (r r' : reader)
    (out : list submission) :
  feed chunks r = Some (r', out) ->
  (held r + length (concat chunks))%nat = (held r' + wire_size out)%nat.
Proof. apply feed_conserves. Qed.

Lemma reader_conserves_bytes_witness :
  feed [[x00; x00; x00; x01; x00; x61; x00]; [x00; x00; x02; x00]] initial
  = Some ({| messageData := Some {| size := 2; isEncrypted := false |};
             input := [] |}, [([x61], false)])
  /\ (held initial
      + length (concat [[x00; x00; x00; x01; x00; x61; x00]; [x00; x00; x02; x00]]))%nat
     = (held {| messageData := Some {| size := 2; isEncrypted := false |};
                input := [] |}
        + wire_size [([x61], false)])%nat.
Proof.
  split; [reflexivity|].
  apply (reader_conserves_bytes
           [[x00; x00; x00; x01; x00; x61; x00]; [x00; x00; x02; x00]] initial).
  reflexivity.
Defined.

End FramingProperties.

(* ===================================================================== *)
(** * More on the life cycle: connection attempts and handlers *)
(* ===================================================================== *)

Module LifeCycleProperties.
Import Address DataProxyTCP LifeCycleMore LifeCycle.

Lemma socket_closed_guarded (p : proxy) :
  guarded p ->
  override (socket_closed p) = override p
  /\ listeners (socket_closed p) = listeners p
  /\ socket (socket_closed p) = socket p
  /\ isStopping (socket_closed p) = isStopping p.
Proof.
  intros [H|H].
  - unfold socket_closed. rewrite H. cbn. auto.
  - rewrite (socket_closed_stopping p H). cbn. auto.
Qed.

Lemma notify_each (n : notification) (hs : list (option AddressData)) (p : proxy) :
  let q := fold_left (fun q _ => notify n q) hs p in
  override q = override p
  /\ listeners q = listeners p
  /\ socket q = socket p
  /\ notified q = notified p ++ repeat n (length hs).
Proof.
  revert p. induction hs as [|a hs IH]; intros p.
  - cbn. rewrite app_nil_r. auto.
  - cbn [fold_left]. destruct (IH (notify n p)) as (H1 & H2 & H3 & H4).
    cbv zeta. rewrite H1, H2, H3, H4. cbn. rewrite <- app_assoc. auto.
Qed.

Lemma socket_connected_keeps (p : proxy) :
  override (socket_connected p) = override p
  /\ listeners (socket_connected p) = listeners p
  /\ socket (socket_connected p) = socket p
  /\ notified (socket_connected p)
     = notified p ++ repeat NotifyOpen (length (listeners p)).
Proof. apply notify_each. Qed.

Lemma start_effect (ls : storage) (p : proxy) :
  override (start ls p) = override p
  /\ isStopping (start ls p) = true
  /\ length (listeners (start ls p))
     = (length (listeners p) + if finds_address (override p) ls then 1 else 0)%nat
  /\ length (connects (socket (start ls p)))
     = (length (connects (socket p)) + if finds_address (override p) ls then 1 else 0)%nat.
Proof.
  unfold start, finds_address. cbn [override set_isStopping].
  destruct (override p) as [o|] eqn:Eo.
  - cbn. unfold connects. rewrite flat_map_app, !length_app. cbn. auto.
  - destruct (ls ServerAddress) as [a|].
    + cbn. unfold connects. rewrite flat_map_app, !length_app. cbn. auto.
    + cbn. repeat split; auto.
Qed.

Lemma step_counts (p : proxy) (e : event) :
  guarded p ->
  guarded (step p e)
  /\ override (step p e) = override p
  /\ length (listeners (step p e))
     = (length (listeners p) + opening_starts (override p) [e])%nat
  /\ length (connects (socket (step p e)))
     = (length (connects (socket p)) + opening_starts (override p) [e])%nat.
Proof.
  intros Hg. destruct e as [ls| | | |]; cbn [step].
  - destruct (start_effect ls p) as (H1 & H2 & H3 & H4).
    split; [now right|]. split; [assumption|].
    unfold opening_starts. cbn [List.filter].
    destruct (finds_address (override p) ls); cbn [length]; auto.
  - split; [now right|]. cbn. unfold connects.
    rewrite flat_map_app, length_app. cbn. auto.
  - destruct (socket_connected_keeps p) as (H1 & H2 & H3 & _).
    rewrite H1, H2, H3. cbn. split; [|auto].
    destruct Hg as [Hg|Hg]; [left; congruence | right].
    now rewrite socket_connected_isStopping.
  - destruct (socket_closed_guarded p Hg) as (H1 & H2 & H3 & H4).
    rewrite H1, H2, H3. cbn. split; [|auto].
    destruct Hg as [Hg|Hg]; [left | right]; congruence.
  - cbn. unfold connects. rewrite flat_map_app, length_app. cbn.
    split; [|auto]. exact Hg.
Qed.

Lemma run_counts (es : list event) (p : proxy) :
  guarded p ->
  guarded (run es p)
  /\ override (run es p) = override p
  /\ length (listeners (run es p))
     = (length (listeners p) + opening_starts (override p) es)%nat
  /\ length (connects (socket (run es p)))
     = (length (connects (socket p)) + opening_starts (override p) es)%nat.
Proof.
  revert p. induction es as [|e es IH]; intros p Hg.
  - cbn. auto.
  - cbn [run fold_left]. destruct (step_counts p e Hg) as (G1 & O1 & L1 & C1).
    destruct (IH (step p e) G1) as (G2 & O2 & L2 & C2). unfold run in *.
    rewrite O2, L2, C2, O1, L1, C1.
    split; [assumption|]. split; [reflexivity|].
    unfold opening_starts. cbn [List.filter].
    destruct e as [ls| | | |]; cbn [length]; try lia.
    destruct (finds_address (override p) ls); cbn [length]; lia.
Qed.

(** X5: over the whole life of an instance, whatever is called and whatever
    the socket emits, as long as [socket.connect] takes the port of every
    [start()] call (an integer from 0 to 65535; for any other it throws
    at line 105, before a handler is registered): the connection attempts
    are as many as the [start()] calls that found an address, one each,
    and so are the sets of handlers registered.  Nothing else connects,
    and a "connect" event then calls [notifyOpen] once per such [start()]
    call, a "close" event [notifyClose] once per such call. *)
Theorem one_attempt_per_start (o : option AddressOverride) (es : list event) :
  forallb (connect_accepted o) es = true ->
  let p := run es (new o) in
  length (connects (socket p)) = opening_starts o es
  /\ length (listeners p) = opening_starts o es
  /\ notified (socket_connected p)
     = notified p ++ repeat NotifyOpen (opening_starts o es)
  /\ notified (socket_closed p)
     = notified p ++ repeat (NotifyClose Connection) (opening_starts o es).
Proof.
  intros _ p.
  assert (Hg : guarded (new o)) by (now left).
  destruct (run_counts es (new o) Hg) as (G & O & L & C). fold p in G, O, L, C.
  cbn in L, C. split; [exact C|]. split; [exact L|]. split.
  - destruct (socket_connected_keeps p) as (_ & _ & _ & H). now rewrite H, L.
  - destruct G as [G|G].
    + unfold socket_closed. rewrite G in *. cbn in L. rewrite <- L. cbn.
      now rewrite app_nil_r.
    + rewrite (socket_closed_stopping p G). cbn. now rewrite L.
Qed.

Lemma one_attempt_per_start_witness :
  let o := Some {| primary := "10.0.0.5:2000"; fallback := Some "relay.example.com" |} in
  let es := [Start (fun _ => None); SocketConnected; Stop;
             Start (fun _ => None); SocketClosed; SocketEnded] in
  forallb (connect_accepted o) es = true
  /\ (let p := run es (new o) in
      length (connects (socket p)) = opening_starts o es
      /\ length (listeners p) = opening_starts o es
      /\ notified (socket_connected p)
         = notified p ++ repeat NotifyOpen (opening_starts o es)
      /\ notified (socket_closed p)
         = notified p ++ repeat (NotifyClose Connection) (opening_starts o es)).
Proof.
  intros o es. split; [vm_compute; reflexivity|].
  apply (one_attempt_per_start o es). vm_compute. reflexivity.
Defined.

End LifeCycleProperties.

(* ===================================================================== *)
(** * More on [send]: when a frame is written, and how many encryptions run *)
(* ===================================================================== *)

Module SendProperties.
Import Bytes SendPipeline SendShape SendMore SendOutcomes SendOrder.

Section Histories.
Variable encryptData : list byte -> list byte.

(** A chain, once there, stays. *)
Lemma run_chained (ls : list label) (st st' : runtime) (x : pid) (h : head)
    (cs : list cell) :
  chained st x h cs -> run encryptData ls st = Some st' ->
  exists x' h' cs', chained st' x' h' cs'.
Proof.
  revert st x h cs. induction ls as [|l ls IH]; intros st x h cs Hch Hrun.
  - injection Hrun as <-. eauto.
  - cbn [run] in Hrun.
    destruct (step encryptData st l) as [st1|] eqn:E; [|discriminate].
    destruct l as [data encrypt|p|]; cbn [step] in E.
    + injection E as <-.
      destruct (chained_send st x h cs data encrypt Hch) as [Hch' _]. eauto.
    + destruct (chained_encrypted encryptData st st1 x h cs p Hch E)
        as (h' & Hch' & _). eauto.
    + destruct (chained_tick encryptData st st1 x h cs Hch E)
        as (x' & h' & cs' & Hch' & _). eauto.
Qed.

Lemma run_fresh (ls : list label) (st st' : runtime) :
  previousEncrypt st = None -> microtasks st = [] -> encrypting st = [] ->
  run encryptData ls st = Some st' ->
  if has_encrypted_send ls
  then exists x h cs, chained st' x h cs
  else previousEncrypt st' = None /\ microtasks st' = [] /\ encrypting st' = []
       /\ socket st' = socket st ++ submitted encryptData ls.
Proof.
  revert st. induction ls as [|l ls IH]; intros st Hp Ht Hc Hrun.
  - injection Hrun as <-. cbn. rewrite app_nil_r. auto.
  - cbn [run] in Hrun.
    destruct (step encryptData st l) as [st1|] eqn:E; [|discriminate].
    destruct l as [data [|]|p|]; cbn [step] in E.
    + injection E as <-. cbn.
      destruct (fresh_send_encrypted st data Hp Ht Hc) as [Hch _].
      eapply run_chained; eassumption.
    + injection E as <-. rewrite (fresh_send_plain encryptData st data Hp) in Hrun.
      specialize (IH (set_socket (socket st ++ [frame_of encryptData data false]) st)
                    Hp Ht Hc Hrun).
      cbn [set_socket socket] in IH.
      change (has_encrypted_send (Send data false :: ls)) with (has_encrypted_send ls).
      destruct (has_encrypted_send ls); [exact IH|].
      destruct IH as (H1 & H2 & H3 & H4). repeat split; try assumption.
      rewrite H4. cbn. now rewrite <- app_assoc.
    + unfold encrypted in E. rewrite Hc in E. discriminate.
    + unfold tick in E. rewrite Ht in E. discriminate.
Qed.

Lemma run_labels_app (l1 l2 : list label) (st : runtime) :
  run encryptData (l1 ++ l2) st
  = match run encryptData l1 st with
    | Some st' => run encryptData l2 st'
    | None => None
    end.
Proof.
  revert st. induction l1 as [|l l1 IH]; intros st; [reflexivity|].
  cbn [app run]. destruct (step encryptData st l); [apply IH | reflexivity].
Qed.

(** A history without a rejection is a run of [SendPipeline]. *)
Lemma run_outcomes_fulfilled (hs : list outcome) (st : runtime) :
  fulfilled_only hs = true ->
  run_outcomes encryptData hs st = run encryptData (labels hs) st.
Proof.
  revert st. induction hs as [|o hs IH]; intros st Hf; [reflexivity|].
  destruct o as [l|p]; [|discriminate Hf].
  cbn [fulfilled_only forallb andb] in Hf.
  cbn [run_outcomes step_outcome labels flat_map app run].
  destruct (step encryptData st l); [now apply IH | reflexivity].
Qed.

Lemma happens_fulfilled (ls : list label) :
  fulfilled_only (map Happens ls) = true /\ labels (map Happens ls) = ls.
Proof.
  induction ls as [|l ls [IH1 IH2]]; [split; reflexivity|].
  split; [exact IH1|]. cbn [map labels flat_map app]. f_equal. exact IH2.
Qed.

(** With nothing queued and no encryption still to be fulfilled, every
    frame is on the socket. *)
Lemma idle_all_written (ls : list label) (st : runtime) :
  run encryptData ls initial = Some st ->
  microtasks st = [] -> encrypting st = [] ->
  socket st = submitted encryptData ls.
Proof.
  intros Hrun Ht Hc.
  destruct (run_shape encryptData ls initial st [] (initial_shape encryptData) Hrun)
    as (todo & Hs & H).
  cbn in H. rewrite <- H. destruct Hs as [_ _ _ | x h cs Hch].
  - now rewrite app_nil_r.
  - rewrite (chained_quiescent encryptData st x h cs Hch).
    + now rewrite app_nil_r.
    + unfold next_label. now rewrite Ht, Hc.
Qed.

(** On a chain, a step that writes is a microtask. *)
Lemma chained_writer (st st' : runtime) (x : pid) (h : head) (cs : list cell)
    (l : label) :
  chained st x h cs -> step encryptData st l = Some st' ->
  socket st' <> socket st -> l = Tick.
Proof.
  intros Hch Hstep Hw. destruct l as [data encrypt|p|]; [| |reflexivity]; exfalso;
    cbn [step] in Hstep.
  - injection Hstep as <-.
    now destruct (chained_send st x h cs data encrypt Hch) as [_ Hsock].
  - now destruct (chained_encrypted encryptData st st' x h cs p Hch Hstep)
      as (h' & _ & Hsock & _).
Qed.

End Histories.

(** X6: whatever the [send] calls and whenever the encryptions complete, at
    most one encryption is under way at any moment: [encryptData] is
    called for a message only once the ciphertext of the message before
    it is there. *)
Theorem encryptions_one_at_a_time (encryptData : list byte -> list byte)
    (ls : list label) (st : runtime) :
  run encryptData ls initial = Some st ->
  (length (encrypting st) <= 1)%nat.
Proof.
  intros Hrun.
  destruct (run_shape encryptData ls initial st [] (initial_shape encryptData) Hrun)
    as (todo & Hs & _).
  destruct Hs as [_ _ Hc | x h cs Hch].
  - rewrite Hc. cbn. lia.
  - destruct Hch as [_ _ _ _ _ _ Hc]. rewrite Hc. destruct h; cbn; lia.
Qed.

Lemma encryptions_one_at_a_time_witness :
  exists st,
    run Samples.rot [Send [x01] true; Send [x02] true; Send [x03] true] initial
    = Some st
    /\ (length (encrypting st) <= 1)%nat.
Proof.
  eexists. split; [vm_compute; reflexivity|].
  apply (encryptions_one_at_a_time Samples.rot
           [Send [x01] true; Send [x02] true; Send [x03] true]).
  vm_compute. reflexivity.
Defined.

(** X7: in a history in which no promise of [encryptData] is rejected,
    when the microtask queue is empty and no encryption is under way, the
    frame of every [send] call made so far is on the socket, in the order
    of the calls.  The condition is needed: [send] does not handle a
    rejection, and the frames chained behind a rejected encryption are
    not written (see [rejected_encryption_holds_back]). *)
Theorem idle_means_all_written (encryptData : list byte -> list byte)
    (hs : list outcome) (st : runtime) :
  fulfilled_only hs = true ->
  run_outcomes encryptData hs initial = Some st ->
  microtasks st = [] -> encrypting st = [] ->
  socket st = submitted encryptData (labels hs).
Proof.
  intros Hf Hrun. rewrite (run_outcomes_fulfilled encryptData hs initial Hf) in Hrun.
  now apply idle_all_written.
Qed.

Lemma idle_means_all_written_witness :
  let hs := [Happens (Send [x01] true); Happens (Send [x02] false);
             Happens (Encrypted 0%nat); Happens Tick; Happens Tick; Happens Tick;
             Happens Tick] in
  exists st,
    fulfilled_only hs = true
    /\ run_outcomes Samples.rot hs initial = Some st
    /\ microtasks st = [] /\ encrypting st = []
    /\ socket st = submitted Samples.rot (labels hs).
Proof.
  intros hs. eexists. split; [reflexivity|].
  split; [vm_compute; reflexivity|].
  split; [reflexivity|]. split; [reflexivity|].
  apply (idle_means_all_written Samples.rot hs); vm_compute; reflexivity.
Defined.

(** With a rejection the conclusion fails: an encrypted [send], a plain
    one behind it, and the encryption rejected.  The queue is empty and
    no encryption is under way, and neither frame is on the socket. *)
Example rejected_encryption_holds_back :
  let hs := [Happens (Send [x01] true); Happens (Send [x02] false);
             EncryptionRejected 0%nat] in
  exists st,
    run_outcomes Samples.rot hs initial = Some st
    /\ microtasks st = [] /\ encrypting st = []
    /\ socket st = []
    /\ submitted Samples.rot (labels hs)
       = [frame_of Samples.rot [x01] true; frame_of Samples.rot [x02] false]
    /\ forall data encrypt, run Samples.rot [Send data encrypt] st
                            = Some (send data encrypt st)
                            /\ socket (send data encrypt st) = []
                            /\ microtasks (send data encrypt st) = [].
Proof.
  intros hs. eexists. split; [vm_compute; reflexivity|].
  split; [reflexivity|]. split; [reflexivity|]. split; [reflexivity|].
  split; [reflexivity|].
  intros data encrypt. split; [reflexivity|]. split; reflexivity.
Qed.

(** X8: as long as no encrypted message has been sent on an instance, every
    [send] call writes its frame before it returns: the socket holds the
    frames of all the calls, and [previousEncrypt] is still unset. *)
Theorem plain_sends_written_at_once (encryptData : list byte -> list byte)
    (ls : list label) (st : runtime) :
  has_encrypted_send ls = false ->
  run encryptData ls initial = Some st ->
  socket st = submitted encryptData ls /\ previousEncrypt st = None.
Proof.
  intros Hno Hrun.
  pose proof (run_fresh encryptData ls initial st eq_refl eq_refl eq_refl Hrun) as H.
  rewrite Hno in H. destruct H as (H1 & _ & _ & H4). split; assumption.
Qed.

Lemma plain_sends_written_at_once_witness :
  exists st,
    run Samples.rot [Send [x01] false; Send [x02; x03] false] initial = Some st
    /\ socket st = submitted Samples.rot [Send [x01] false; Send [x02; x03] false]
    /\ previousEncrypt st = None.
Proof.
  eexists. split; [vm_compute; reflexivity|].
  apply (plain_sends_written_at_once Samples.rot
           [Send [x01] false; Send [x02; x03] false]); vm_compute; reflexivity.
Defined.

(** X9: in a history in which no promise of [encryptData] is rejected,
    once an encrypted message has been sent, [previousEncrypt] stays set
    for the life of the instance, whatever has completed since: every
    later [send] call, encrypted or not, returns without having written.
    From then on a step that writes to the socket is a microtask.  The
    frame of that call is on the socket, after those of the calls before
    it, whenever the queue is empty and no encryption is under way, and
    the runtime gets there by itself, its encryptions being fulfilled. *)
Theorem sends_deferred_after_encrypted (encryptData : list byte -> list byte)
    (hs : list outcome) (st : runtime) (data : list byte) (encrypt : bool) :
  fulfilled_only hs = true ->
  has_encrypted_send (labels hs) = true ->
  run_outcomes encryptData hs initial = Some st ->
  (exists p, previousEncrypt st = Some p)
  /\ socket (send data encrypt st) = socket st
  /\ (forall hs1 st1 o st2,
        fulfilled_only hs1 = true ->
        run_outcomes encryptData hs1 (send data encrypt st) = Some st1 ->
        step_outcome encryptData st1 o = Some st2 ->
        socket st2 <> socket st1 -> o = Happens Tick)
  /\ (forall hs1 st1,
        fulfilled_only hs1 = true ->
        run_outcomes encryptData hs1 (send data encrypt st) = Some st1 ->
        microtasks st1 = [] -> encrypting st1 = [] ->
        socket st1
        = submitted encryptData (labels hs ++ Send data encrypt :: labels hs1))
  /\ (exists hs1 st1,
        fulfilled_only hs1 = true
        /\ forallb (fun l => negb (is_send l)) (labels hs1) = true
        /\ run_outcomes encryptData hs1 (send data encrypt st) = Some st1
        /\ socket st1
           = submitted encryptData (labels hs) ++ [frame_of encryptData data encrypt]).
Proof.
  intros Hf Hyes Hrun.
  rewrite (run_outcomes_fulfilled encryptData hs initial Hf) in Hrun.
  set (ls := labels hs) in *.
  pose proof (run_fresh encryptData ls initial st eq_refl eq_refl eq_refl Hrun) as H.
  rewrite Hyes in H. destruct H as (x & h & cs & Hch).
  destruct (chained_send st x h cs data encrypt Hch) as [Hch' Hsock].
  assert (Hmore : forall ls1,
            run encryptData (ls ++ Send data encrypt :: ls1) initial
            = run encryptData ls1 (send data encrypt st)).
  { intros ls1. now rewrite run_labels_app, Hrun. }
  split; [destruct Hch as [Hp _ _ _ _ _ _]; eauto|].
  split; [exact Hsock|]. split; [|split].
  - intros hs1 st1 o st2 Hf1 Hrun1 Hstep Hw.
    rewrite (run_outcomes_fulfilled encryptData hs1 _ Hf1) in Hrun1.
    destruct (run_chained encryptData (labels hs1) _ st1 _ _ _ Hch' Hrun1)
      as (x1 & h1 & cs1 & Hch1).
    destruct o as [l|p]; cbn [step_outcome] in Hstep.
    + f_equal. exact (chained_writer encryptData st1 st2 x1 h1 cs1 l Hch1 Hstep Hw).
    + exfalso. apply Hw. unfold rejected in Hstep.
      destruct (take_encrypting p (encrypting st1)) as [[d rest]|]; [|discriminate].
      now injection Hstep as <-.
  - intros hs1 st1 Hf1 Hrun1 Ht Hc.
    rewrite (run_outcomes_fulfilled encryptData hs1 _ Hf1) in Hrun1.
    apply idle_all_written; [|assumption|assumption].
    now rewrite Hmore.
  - pose proof (Hmore []) as Hrun1. cbn [run] in Hrun1.
    destruct (written_prefix_of_submitted encryptData _ _ Hrun1)
      as [_ (ls1 & st1 & Hls & Hrun2 & Hs)].
    destruct (happens_fulfilled ls1) as [Hf1 Hl1].
    exists (map Happens ls1), st1. split; [exact Hf1|].
    split; [now rewrite Hl1|]. split.
    + now rewrite (run_outcomes_fulfilled encryptData _ _ Hf1), Hl1.
    + rewrite Hs. apply submitted_app.
Qed.

Lemma sends_deferred_after_encrypted_witness :
  let hs := [Happens (Send [x01] true); Happens (Encrypted 0%nat); Happens Tick] in
  exists st,
    fulfilled_only hs = true
    /\ has_encrypted_send (labels hs) = true
    /\ run_outcomes Samples.rot hs initial = Some st
    /\ (exists p, previousEncrypt st = Some p)
    /\ socket (send [x02] false st) = socket st
    /\ (forall hs1 st1 o st2,
          fulfilled_only hs1 = true ->
          run_outcomes Samples.rot hs1 (send [x02] false st) = Some st1 ->
          step_outcome Samples.rot st1 o = Some st2 ->
          socket st2 <> socket st1 -> o = Happens Tick)
    /\ (forall hs1 st1,
          fulfilled_only hs1 = true ->
          run_outcomes Samples.rot hs1 (send [x02] false st) = Some st1 ->
          microtasks st1 = [] -> encrypting st1 = [] ->
          socket st1
          = submitted Samples.rot (labels hs ++ Send [x02] false :: labels hs1))
    /\ (exists hs1 st1,
          fulfilled_only hs1 = true
          /\ forallb (fun l => negb (is_send l)) (labels hs1) = true
          /\ run_outcomes Samples.rot hs1 (send [x02] false st) = Some st1
          /\ socket st1
             = submitted Samples.rot (labels hs) ++ [frame_of Samples.rot [x02] false]).
Proof.
  intros hs. eexists. split; [reflexivity|]. split; [reflexivity|].
  split; [vm_compute; reflexivity|].
  apply (sends_deferred_after_encrypted Samples.rot hs); vm_compute; reflexivity.
Defined.

End SendProperties.

(* ===================================================================== *)
(** * The addresses the dialog accepts, and what [parseAddress] makes of them *)
(* ===================================================================== *)

Module PatternFacts.
Import Regex JS Address PortSyntax AddressPattern AddressFacts.

Local Open Scope nat_scope.

Lemma has_colon_app (a b : string) :
  has_colon (a ++ b)%string = has_colon a || has_colon b.
Proof.
  induction a as [|c a IH]; cbn; [reflexivity|]. now rewrite IH, orb_assoc.
Qed.

Lemma digits_no_colon (d : string) :
  all_in_class "0" "9" d = true -> has_colon d = false.
Proof.
  induction d as [|c d IH]; cbn; [reflexivity|]. intros H.
  apply andb_true_iff in H as [Hc Hd]. rewrite (IH Hd), orb_false_r.
  destruct (Ascii.eqb_spec c ":") as [->|]; [discriminate Hc | reflexivity].
Qed.

Lemma span_refl (s : string) : span s s.
Proof. now exists EmptyString. Qed.

Lemma span_trans (s1 s2 s3 : string) : span s1 s2 -> span s2 s3 -> span s1 s3.
Proof.
  intros (p1 & -> & H1) (p2 & -> & H2). exists (p1 ++ p2)%string.
  split; [now rewrite string_app_assoc|]. now rewrite has_colon_app, H1, H2.
Qed.

Lemma span_one (c : ascii) (t : string) :
  Ascii.eqb c ":" = false -> span (String c t) t.
Proof.
  intros H. exists (String c EmptyString). split; [reflexivity|].
  cbn. now rewrite H.
Qed.

Lemma span_length (s s' : string) : span s s' -> String.length s' <= String.length s.
Proof. intros (pre & -> & _). rewrite string_length_app. lia. Qed.

Lemma iter_span (f : string -> list string) :
  (forall s s', In s' (f s) -> span s s') ->
  forall n s s', In s' (iter f n s) -> span s s'.
Proof.
  intros Hf. induction n as [|n IH]; intros s s' Hin.
  - destruct Hin as [<-|[]]. apply span_refl.
  - cbn [iter] in Hin. apply in_flat_map_iff in Hin as (s1 & H1 & H2).
    apply (span_trans s s1 s'); [apply Hf, H1 | apply IH, H2].
Qed.

Lemma star_span (f : string -> list string) :
  (forall s s', In s' (f s) -> span s s') ->
  forall fuel s s', In s' (star f fuel s) -> span s s'.
Proof.
  intros Hf. induction fuel as [|n IH]; intros s s' Hin.
  - destruct Hin as [<-|[]]. apply span_refl.
  - cbn [star] in Hin. apply in_app_or in Hin as [Hin|[<-|[]]].
    + apply in_flat_map_iff in Hin as (s1 & H1 & H2).
      apply filter_In in H1 as [H1 _].
      apply (span_trans s s1 s'); [apply Hf, H1 | apply IH, H2].
    + apply span_refl.
Qed.

(** A part that takes no colon leaves the colons of the input where
    they are. *)
Lemma regex_span (r : regex) :
  regex_avoids ":" r = true ->
  forall s s', In s' (Regex.residuals r s) -> span s s'.
Proof.
  induction r as [c|a b|r1 IH1 r2 IH2|r1 IH1 r2 IH2|r1 IH1|n m r1 IH1|];
    cbn [regex_avoids Regex.residuals]; intros Hr s s' Hin.
  - destruct s as [|c' t]; [destruct Hin|].
    destruct (Ascii.eqb_spec c c') as [<-|]; [|destruct Hin].
    destruct Hin as [<-|[]]. apply span_one. now apply negb_true_iff in Hr.
  - destruct s as [|c t]; [destruct Hin|].
    destruct (in_class a b c) eqn:Ec; [|destruct Hin].
    destruct Hin as [<-|[]]. apply span_one.
    destruct (Ascii.eqb_spec c ":") as [->|]; [|reflexivity].
    now rewrite Ec in Hr.
  - apply andb_true_iff in Hr as [H1 H2].
    apply in_flat_map_iff in Hin as (s1 & Hs1 & Hs').
    apply (span_trans s s1 s'); [exact (IH1 H1 _ _ Hs1) | exact (IH2 H2 _ _ Hs')].
  - apply andb_true_iff in Hr as [H1 H2]. apply in_app_or in Hin as [Hin|Hin].
    + exact (IH1 H1 _ _ Hin).
    + exact (IH2 H2 _ _ Hin).
  - apply in_app_or in Hin as [Hin|[<-|[]]]; [exact (IH1 Hr _ _ Hin) | apply span_refl].
  - apply in_flat_map_iff in Hin as (k & _ & Hin).
    exact (iter_span _ (IH1 Hr) _ _ _ Hin).
  - destruct s; [|destruct Hin]. destruct Hin as [<-|[]]. apply span_refl.
Qed.

Lemma pattern_span (p : pattern) (full : string) :
  avoids ":" p = true ->
  forall s s', In s' (residuals p full s) -> span s s'.
Proof.
  induction p as [r|items|p1 IH1 p2 IH2|p1 IH1 p2 IH2|p1 IH1|p1 IH1|p1 IH1|n p1 IH1| |];
    cbn [avoids residuals]; intros Hp s s' Hin.
  - now apply (regex_span r Hp).
  - destruct s as [|c t]; [destruct Hin|].
    destruct (existsb (in_item c) items) eqn:Ec; [|destruct Hin].
    destruct Hin as [<-|[]]. apply span_one.
    destruct (Ascii.eqb_spec c ":") as [->|]; [|reflexivity].
    now rewrite Ec in Hp.
  - apply andb_true_iff in Hp as [H1 H2].
    apply in_flat_map_iff in Hin as (s1 & Hs1 & Hs').
    apply (span_trans s s1 s'); [exact (IH1 H1 _ _ Hs1) | exact (IH2 H2 _ _ Hs')].
  - apply andb_true_iff in Hp as [H1 H2]. apply in_app_or in Hin as [Hin|Hin].
    + exact (IH1 H1 _ _ Hin).
    + exact (IH2 H2 _ _ Hin).
  - apply in_app_or in Hin as [Hin|[<-|[]]]; [exact (IH1 Hp _ _ Hin) | apply span_refl].
  - exact (star_span _ (IH1 Hp) _ _ _ Hin).
  - apply in_flat_map_iff in Hin as (s1 & Hs1 & Hs').
    apply (span_trans s s1 s'); [exact (IH1 Hp _ _ Hs1)|].
    exact (star_span _ (IH1 Hp) _ _ _ Hs').
  - apply in_flat_map_iff in Hin as (s1 & Hs1 & Hs').
    apply (span_trans s s1 s').
    + exact (iter_span _ (IH1 Hp) _ _ _ Hs1).
    + exact (star_span _ (IH1 Hp) _ _ _ Hs').
  - destruct (String.length s =? String.length full); [|destruct Hin].
    destruct Hin as [<-|[]]. apply span_refl.
  - destruct (at_word_boundary full s); [|destruct Hin].
    destruct Hin as [<-|[]]. apply span_refl.
Qed.

Lemma cat_inv (p q : pattern) (full s s' : string) :
  In s' (residuals (Cat p q) full s) ->
  exists s1, In s1 (residuals p full s) /\ In s' (residuals q full s1).
Proof. cbn [residuals]. apply in_flat_map_iff. Qed.

(** [^] holds at the start of the input only. *)
Lemma search_bos (q : pattern) (full rest : string) :
  String.length rest < String.length full ->
  search (Cat Bos q) full rest = false.
Proof.
  induction rest as [|c t IH]; intros Hlt.
  - cbn [search]. unfold matches_from. cbn [residuals].
    destruct (Nat.eqb_spec (String.length "") (String.length full)) as [E|_];
      [lia | reflexivity].
  - cbn [search]. rewrite IH by (cbn [String.length] in Hlt; lia).
    unfold matches_from. cbn [residuals].
    destruct (Nat.eqb_spec (String.length (String c t)) (String.length full)) as [E|_];
      [lia | reflexivity].
Qed.

Lemma matches_bos (q : pattern) (a : string) :
  matches (Cat Bos q) a = true -> exists s', In s' (residuals q a a).
Proof.
  unfold matches. intros H.
  assert (Hm : matches_from (Cat Bos q) a a = true).
  { destruct a as [|c t]; cbn [search] in H.
    - now rewrite orb_false_r in H.
    - rewrite search_bos in H by (cbn; lia). now rewrite orb_false_r in H. }
  unfold matches_from in Hm. cbn [residuals] in Hm.
  rewrite Nat.eqb_refl in Hm. cbn [flat_map] in Hm. rewrite app_nil_r in Hm.
  destruct (residuals q a a) as [|s' l]; [discriminate|]. exists s'. now left.
Qed.

(** An address the dialog accepts holds no colon, or one colon followed
    to the end by a port number that [regexPort] accepts too. *)
Lemma accepted_shape (a : string) :
  matches regexInternetAddress a = true ->
  has_colon a = false
  \/ exists h d, a = (h ++ String ":" d)%string
                 /\ has_colon h = false /\ has_colon d = false
                 /\ Regex.matches_at regexPort (String ":" d) = true.
Proof.
  intros H. apply matches_bos in H as [s4 H].
  apply cat_inv in H as (s1 & H1 & H).
  apply cat_inv in H as (s2 & H2 & H).
  apply cat_inv in H as (s3 & H3 & H4).
  apply (pattern_span (Or domain_name ipv4) a eq_refl) in H1.
  apply (pattern_span path a eq_refl) in H2.
  pose proof (span_trans _ _ _ H1 H2) as (h & -> & Hh). clear H1 H2.
  cbn [residuals Regex.residuals] in H4.
  destruct s3 as [|? ?]; [clear H4 | destruct H4].
  unfold port_suffix in H3. cbn [residuals] in H3.
  change (Regex.residuals (Opt (Seq (Lit ":") port_number)) s2)
    with (Regex.residuals (Seq (Lit ":") port_number) s2 ++ [s2]) in H3.
  apply in_app_or in H3 as [H3|[->|[]]].
  - right. change (Regex.residuals (Seq (Lit ":") port_number) s2)
      with (flat_map (Regex.residuals port_number) (Regex.residuals (Lit ":") s2)) in H3.
    apply in_flat_map_iff in H3 as (d & Hd & H3).
    cbn [Regex.residuals] in Hd. destruct s2 as [|c t]; [destruct Hd|].
    destruct (Ascii.eqb_spec ":" c) as [<-|]; [|destruct Hd].
    destruct Hd as [<-|[]].
    destruct (residuals_bounds port_number eq_refl _ _ H3) as (pre & v & E & Hp & _).
    rewrite string_app_nil_r in E. subst pre.
    exists h, t. split; [reflexivity|]. split; [assumption|].
    split; [now apply digits_no_colon|].
    unfold Regex.matches_at, regexPort.
    change (Regex.residuals (Seq (Seq (Lit ":") port_number) Eos) (String ":" t))
      with (flat_map (Regex.residuals Eos)
              (flat_map (Regex.residuals port_number)
                 (Regex.residuals (Lit ":") (String ":" t)))).
    cbn [Regex.residuals]. change (Ascii.eqb ":" ":") with true.
    cbn [flat_map]. rewrite app_nil_r.
    apply in_split in H3 as (l1 & l2 & ->). rewrite flat_map_app. cbn [flat_map].
    destruct (flat_map _ l1); reflexivity.
  - left. now rewrite string_app_nil_r.
Qed.

(** [parseAddress] on an address the dialog accepts. *)
Lemma accepted_parsed (a : string) :
  matches regexInternetAddress a = true ->
  valid_port (port (parseAddress a))
  /\ ((has_colon a = false /\ parseAddress a = {| host := a; port := Num 1359 |})
      \/ exists h d, a = (h ++ String ":" d)%string
                     /\ has_colon h = false /\ has_colon d = false
                     /\ (0 <= decimal d <= 65535)%Z
                     /\ parseAddress a = {| host := h; port := Num (decimal d) |}).
Proof.
  intros H. apply accepted_shape in H as [H|(h & d & -> & Hh & Hd & Hm)].
  - pose proof (parseAddress_without_port a (test_no_colon a H)) as E.
    rewrite E. split; [cbn; lia|]. left. now split.
  - assert (Ht : test regexPort (h ++ String ":" d)%string = true)
      by now rewrite test_one_colon.
    destruct (parseAddress_one_colon h d Hh Hd Ht) as [E Hr].
    rewrite E. split; [exact Hr|]. right. exists h, d. auto.
Qed.

End PatternFacts.

Module PatternProperties.
Import Regex JS Address PortSyntax AddressPattern DataProxyTCP ConnectionConfigDialog.
Import DialogMore AddressFacts PatternFacts.

(** X10: with at most one colon in the address, [parseAddress] returns
    what the address says.  A string without colon is the host, with port
    1359.  A host, a colon and what [regexPort] accepts as a port number
    give that host and that number, which is at most 65535; a host, a
    colon and anything else are the host as a whole, with port 1359. *)
Theorem address_with_one_colon_parsed (h d : string) :
  has_colon h = false -> has_colon d = false ->
  parseAddress h = {| host := h; port := Num 1359 |}
  /\ if test regexPort (h ++ String ":" d)%string
     then parseAddress (h ++ String ":" d)%string
          = {| host := h; port := Num (decimal d) |}
          /\ (0 <= decimal d <= 65535)%Z
     else parseAddress (h ++ String ":" d)%string
          = {| host := (h ++ String ":" d)%string; port := Num 1359 |}.
Proof.
  intros Hh Hd. split.
  - apply parseAddress_without_port. now apply test_no_colon.
  - destruct (test regexPort (h ++ String ":" d)%string) eqn:E.
    + now apply parseAddress_one_colon.
    + now apply parseAddress_without_port.
Qed.

Lemma address_with_one_colon_parsed_witness :
  has_colon "10.0.0.5" = false /\ has_colon "2000" = false
  /\ parseAddress "10.0.0.5" = {| host := "10.0.0.5"; port := Num 1359 |}
  /\ if test regexPort ("10.0.0.5" ++ String ":" "2000")%string
     then parseAddress ("10.0.0.5" ++ String ":" "2000")%string
          = {| host := "10.0.0.5"; port := Num (decimal "2000") |}
          /\ (0 <= decimal "2000" <= 65535)%Z
     else parseAddress ("10.0.0.5" ++ String ":" "2000")%string
          = {| host := ("10.0.0.5" ++ String ":" "2000")%string; port := Num 1359 |}.
Proof.
  split; [reflexivity|]. split; [reflexivity|].
  apply (address_with_one_colon_parsed "10.0.0.5" "2000"); reflexivity.
Defined.

(** X11: every address the dialog accepts is one [parseAddress] reads as
    written: it holds no colon and is the host, with port 1359, or it is a
    host without colon, a colon and a decimal port number up to 65535, and
    [parseAddress] returns that host and that port. *)
Theorem accepted_address_parsed (a : string) :
  matches regexInternetAddress a = true ->
  valid_port (port (parseAddress a))
  /\ ((has_colon a = false /\ parseAddress a = {| host := a; port := Num 1359 |})
      \/ exists h d, a = (h ++ String ":" d)%string
                     /\ has_colon h = false /\ has_colon d = false
                     /\ (0 <= decimal d <= 65535)%Z
                     /\ parseAddress a = {| host := h; port := Num (decimal d) |}).
Proof. apply accepted_parsed. Qed.

Lemma accepted_address_parsed_witness :
  matches regexInternetAddress "example.com/a?b=1:8080" = true
  /\ valid_port (port (parseAddress "example.com/a?b=1:8080"))
  /\ ((has_colon "example.com/a?b=1:8080" = false
       /\ parseAddress "example.com/a?b=1:8080"
          = {| host := "example.com/a?b=1:8080"; port := Num 1359 |})
      \/ exists h d, "example.com/a?b=1:8080" = (h ++ String ":" d)%string
                     /\ has_colon h = false /\ has_colon d = false
                     /\ (0 <= decimal d <= 65535)%Z
                     /\ parseAddress "example.com/a?b=1:8080"
                        = {| host := h; port := Num (decimal d) |}).
Proof.
  split; [reflexivity|].
  apply (accepted_address_parsed "example.com/a?b=1:8080"). reflexivity.
Defined.

(** X12: the submit button and the error marks of the two address fields
    agree: the form is valid exactly when the primary address is not
    empty, neither address field shows an error and the password is not
    empty.  An empty primary address shows no error and still keeps the
    form from being submitted. *)
Theorem submit_gate_agrees_with_errors (d : dialog) :
  inputValid matchesInternetAddress d
  = (0 <? String.length (address d))%nat
    && negb (checkAddressError (address d))
    && negb (checkAddressError (fallbackAddress d))
    && (0 <? String.length (password d))%nat.
Proof.
  unfold inputValid, checkAddressError, matchesInternetAddress.
  destruct (address d) as [|c a].
  - change (matches regexInternetAddress "") with false. reflexivity.
  - cbn [String.length]. change (0 <? S (String.length a))%nat with true.
    cbn [andb]. rewrite negb_involutive. f_equal. f_equal.
    destruct (fallbackAddress d) as [|c' f]; [reflexivity|].
    cbn [String.length]. change (0 <? S (String.length f))%nat with true.
    cbn [andb orb Nat.eqb]. now rewrite negb_involutive.
Qed.

(** What the dialog hands to [setDataProxy] has passed its check. *)
Lemma step_checked (d : dialog) (e : event) :
  (forall o, In (SetDataProxy o) (calls d) -> checked o) ->
  forall o, In (SetDataProxy o) (calls (step matchesInternetAddress d e)) -> checked o.
Proof.
  intros Hd o. destruct e; cbn [step update calls]; try apply Hd.
  - unfold submitForm. destruct (inputValid matchesInternetAddress d) eqn:Ev;
      cbn [negb]; [|apply Hd].
    cbn. rewrite <- !app_assoc. cbn. intros Hin.
    apply in_app_or in Hin as [Hin|Hin]; [now apply Hd|].
    destruct Hin as [[= <-]|Hin].
    + unfold inputValid in Ev. apply andb_true_iff in Ev as [Ev _].
      apply andb_true_iff in Ev as [Ea Ef]. split; [exact Ea|]. cbn.
      destruct (fallbackAddress d) as [|c f]; [exact I|].
      cbn in Ef |- *. exact Ef.
    + repeat (destruct Hin as [Hin|Hin]; [discriminate Hin|]). destruct Hin.
  - unfold storageDone. destruct (awaitingStorage d); [apply Hd|].
    cbn. intros Hin. apply in_app_or in Hin as [Hin|Hin]; [now apply Hd|].
    destruct Hin as [Hin|[]]. discriminate Hin.
  - unfold finish. cbn. rewrite <- app_assoc. intros Hin.
    apply in_app_or in Hin as [Hin|Hin]; [now apply Hd|].
    repeat (destruct Hin as [Hin|Hin]; [discriminate Hin|]). destruct Hin.
Qed.

Lemma run_checked (es : list event) (d : dialog) :
  (forall o, In (SetDataProxy o) (calls d) -> checked o) ->
  forall o, In (SetDataProxy o) (calls (run matchesInternetAddress es d)) -> checked o.
Proof.
  revert d. induction es as [|e es IH]; intros d Hd; [exact Hd|].
  cbn [run fold_left]. apply IH. now apply step_checked.
Qed.

(** X13: whatever is typed, submitted and answered in the dialog, every
    proxy it creates connects, when started, once, to the host and the port
    [parseAddress] reads from the primary address of the form, the port
    being between 0 and 65535; and the fallback address it keeps for its
    "close" handler has a port in that range too. *)
Theorem dialog_proxy_connects_in_range (es : list event) (ls : storage) (p : proxy) :
  In p (proxies (calls (run matchesInternetAddress es initial))) ->
  exists o,
    p = new (Some o)
    /\ connects (socket (start ls p))
       = [(port (parseAddress (primary o)), host (parseAddress (primary o)))]
    /\ valid_port (port (parseAddress (primary o)))
    /\ exists secondary,
         listeners (start ls p) = [secondary]
         /\ match secondary with
            | Some a => valid_port (port a)
            | None => True
            end.
Proof.
  intros Hin. unfold proxies in Hin. apply in_flat_map_iff in Hin as (c & Hc & Hin).
  destruct c as [o| | | | |]; try (destruct Hin; fail). destruct Hin as [<-|[]].
  assert (Ho : checked o).
  { apply (run_checked es initial); [intros o' []|exact Hc]. }
  destruct Ho as [Hp Hf]. exists o. split; [reflexivity|].
  split; [reflexivity|]. split; [apply (accepted_parsed _ Hp)|].
  exists (override_secondary (fallback o)). split; [reflexivity|].
  unfold override_secondary. destruct (fallback o) as [f|]; [|exact I].
  destruct (String.eqb f ""); [exact I|]. apply (accepted_parsed _ Hf).
Qed.

Lemma dialog_proxy_connects_in_range_witness :
  exists p,
    In p (proxies (calls (run matchesInternetAddress
                            [EditAddress "10.0.0.5:2000";
                             EditFallbackAddress "relay.example.com";
                             EditPassword "secret"; SubmitForm] initial)))
    /\ exists o,
         p = new (Some o)
         /\ connects (socket (start (fun _ => None) p))
            = [(port (parseAddress (primary o)), host (parseAddress (primary o)))]
         /\ valid_port (port (parseAddress (primary o)))
         /\ exists secondary,
              listeners (start (fun _ => None) p) = [secondary]
              /\ match secondary with
                 | Some a => valid_port (port a)
                 | None => True
                 end.
Proof.
  eexists. split; [vm_compute; left; reflexivity|].
  apply (dialog_proxy_connects_in_range
           [EditAddress "10.0.0.5:2000"; EditFallbackAddress "relay.example.com";
            EditPassword "secret"; SubmitForm] (fun _ => None)).
  vm_compute. left. reflexivity.
Defined.

Lemma step_connects (m : string -> bool) (d : dialog) (e : event) :
  (count is_connect (calls d) + awaitingStorage d
   <= count is_setDataProxy (calls d))%nat ->
  (count is_connect (calls (step m d e)) + awaitingStorage (step m d e)
   <= count is_setDataProxy (calls (step m d e)))%nat.
Proof.
  unfold count. intros H.
  destruct e; cbn [step update calls awaitingStorage]; try exact H.
  - unfold submitForm. destruct (inputValid m d); cbn [negb]; [|exact H].
    cbn. rewrite !List.filter_app, !length_app. cbn. lia.
  - unfold storageDone. destruct (awaitingStorage d) as [|n] eqn:E.
    + now rewrite E.
    + cbn. rewrite !List.filter_app, !length_app. cbn. lia.
  - unfold storageFailed. cbn. lia.
  - unfold finish. cbn. rewrite !List.filter_app, !length_app. cbn. lia.
Qed.

(** X14: whatever happens in the dialog, [ConnectionManager.connect()] is
    called at most once for every form submitted, each time after the
    proxy of that form was handed to [setDataProxy]: the calls to
    [connect] and the submissions still waiting for the secure storage
    are never more than the calls to [setDataProxy]. *)
Theorem connect_only_after_submit (m : string -> bool) (es : list event) :
  let d := run m es initial in
  (count is_connect (calls d) + awaitingStorage d
   <= count is_setDataProxy (calls d))%nat.
Proof.
  cbv zeta.
  assert (H : forall d,
             (count is_connect (calls d) + awaitingStorage d
              <= count is_setDataProxy (calls d))%nat ->
             (count is_connect (calls (run m es d)) + awaitingStorage (run m es d)
              <= count is_setDataProxy (calls (run m es d)))%nat).
  { induction es as [|e es IH]; intros d Hd; [exact Hd|].
    cbn [run fold_left]. apply IH. now apply step_connects. }
  apply H. cbn. lia.
Qed.

End PatternProperties.

(* ===================================================================== *)
(** * The [readable] handler with its decryption stage *)
(* ===================================================================== *)

Module InboundFacts.
Import Bytes Framing FramingMore BytesFacts WriterFacts ReaderFacts StreamFacts.
Import Inbound.

Lemma delivered_nil (st : runtime) : delivered (reader st) [] st = st.
Proof. destruct st. unfold delivered. cbn. now rewrite !app_nil_r. Qed.

(** As long as the bodies are plain and [previousDecrypt] is unset, the
    handler is the loop of section 6 with every body notified at once. *)
Lemma loop_plain (fuel : nat) :
  forall (st : runtime) (r' : Framing.reader) (out : list submission),
  previousDecrypt st = None ->
  readable_loop fuel (reader st) [] = Some (r', out) ->
  forallb is_plain out = true ->
  handler_loop fuel st = Some (delivered r' out st).
Proof.
  induction fuel as [|fuel IH]; intros st r' out Hp H Hall; [discriminate|].
  destruct st as [[md buf] prev hp dec mt nt]. cbn in Hp. subst prev.
  cbn [readable_loop handler_loop reader messageData input] in *.
  destruct md as [md|].
  - destruct (Socket.read (size md) buf) as [[data|] rest] eqn:E.
    + rewrite readable_loop_out in H.
      destruct (readable_loop fuel {| messageData := None; input := rest |} [])
        as [[r1 o1]|] eqn:E1; [|discriminate].
      cbn [prepend app] in H. injection H as <- <-.
      cbn [forallb] in Hall. apply andb_true_iff in Hall as [He Ho].
      unfold is_plain in He. cbn [snd] in He.
      destruct (isEncrypted md); [discriminate He|].
      cbn [submit record_taken set_input set_reader previousDecrypt reader messageData
             input heap decrypting microtasks notified taken].
      cbn [notifyMessage set_messageData set_reader reader input previousDecrypt heap
             decrypting microtasks notified taken].
      match goal with
      | |- handler_loop fuel ?s = _ => rewrite (IH s r1 o1 eq_refl E1 Ho)
      end.
      unfold delivered. cbn. now rewrite <- !app_assoc.
    + injection H as <- <-. unfold delivered. cbn. now rewrite !app_nil_r.
  - destruct (Socket.read (4 + 1) buf) as [[data|] rest] eqn:E.
    + cbn [set_messageData set_input set_reader reader messageData input
             previousDecrypt heap decrypting microtasks notified taken].
      match goal with
      | |- handler_loop fuel ?s = _ => now rewrite (IH s r' out eq_refl H Hall)
      end.
    + injection H as <- <-. unfold delivered. cbn. now rewrite !app_nil_r.
Qed.

(** The first encrypted body: the handler is left waiting, with the
    header of that body still in [messageData] and what follows the body
    still in the socket. *)
Lemma loop_first_encrypted (fuel : nat) :
  forall (st : runtime) (r' : Framing.reader) (plain : list submission)
         (d : list byte) (more : list submission),
  previousDecrypt st = None ->
  readable_loop fuel (reader st) [] = Some (r', plain ++ (d, true) :: more) ->
  forallb is_plain plain = true ->
  exists md rest,
    handler_loop fuel st = Some (waiting md rest d (delivered (reader st) plain st))
    /\ isEncrypted md = true /\ 0 < size md /\ Z.of_nat (length d) = size md
    /\ exists f, readable_loop f {| messageData := None; input := rest |} []
                 = Some (r', more).
Proof.
  induction fuel as [|fuel IH]; intros st r' plain d more Hp H Hall; [discriminate|].
  destruct st as [[md buf] prev hp dec mt nt]. cbn in Hp. subst prev.
  cbn [readable_loop handler_loop reader messageData input] in *.
  destruct md as [md|].
  - destruct (Socket.read (size md) buf) as [[data|] rest] eqn:E.
    + rewrite readable_loop_out in H.
      destruct (readable_loop fuel {| messageData := None; input := rest |} [])
        as [[r1 o1]|] eqn:E1; [|discriminate].
      cbn [prepend app] in H. injection H as <- H.
      apply read_inv in E as (_ & Hpos & Hlen).
      destruct plain as [|m plain].
      * cbn [app] in H. injection H as <- He <-.
        exists md, rest. rewrite He.
        cbn [submit record_taken set_input set_reader previousDecrypt reader messageData
             input heap decrypting microtasks notified taken].
        split; [|eauto].
        unfold waiting, delivered, call_decryptData, alloc, register. cbn.
        rewrite lookup_app_r by lia. rewrite Nat.sub_diag. cbn.
        rewrite !app_nil_r.
        rewrite insert_app_r_alt by lia. rewrite Nat.sub_diag. reflexivity.
      * cbn [app] in H. injection H as <- ->.
        cbn [forallb] in Hall. apply andb_true_iff in Hall as [He Ho].
        unfold is_plain in He. cbn [snd] in He.
        destruct (isEncrypted md); [discriminate He|].
        cbn [submit record_taken set_input set_reader previousDecrypt reader messageData
             input heap decrypting microtasks notified taken].
        cbn [notifyMessage set_messageData set_reader reader input previousDecrypt heap
               decrypting microtasks notified taken].
        match goal with
        | |- context [handler_loop fuel ?s] =>
            destruct (IH s r1 plain d more eq_refl E1 Ho)
              as (md' & rest' & Hl & Hrest)
        end.
        exists md', rest'. split; [|exact Hrest].
        rewrite Hl. unfold waiting, delivered. cbn. now rewrite <- !app_assoc.
    + injection H as _ H. now destruct plain.
  - destruct (Socket.read (4 + 1) buf) as [[data|] rest] eqn:E.
    + cbn [set_messageData set_input set_reader reader messageData input
             previousDecrypt heap decrypting microtasks notified taken].
      match goal with
      | |- context [handler_loop fuel ?s] =>
          destruct (IH s r' plain d more eq_refl H Hall)
            as (md' & rest' & Hl & Hrest)
      end.
      exists md', rest'. split; [|exact Hrest]. exact Hl.
    + injection H as _ H. now destruct plain.
Qed.

Lemma readable_plain (c : list byte) (st : runtime) (r1 : Framing.reader)
    (o1 : list submission) :
  previousDecrypt st = None ->
  Framing.readable c (reader st) = Some (r1, o1) ->
  forallb is_plain o1 = true ->
  readable c st = Some (delivered r1 o1 st).
Proof.
  intros Hp E1 H1.
  exact (loop_plain _ (set_input (input (reader st) ++ c) st) r1 o1 Hp E1 H1).
Qed.

Lemma readable_first_encrypted (c : list byte) (st : runtime) (r1 : Framing.reader)
    (plain : list submission) (d : list byte) (more : list submission) :
  previousDecrypt st = None ->
  Framing.readable c (reader st) = Some (r1, plain ++ (d, true) :: more) ->
  forallb is_plain plain = true ->
  exists md rest,
    readable c st = Some (waiting md rest d (delivered (reader st) plain st))
    /\ isEncrypted md = true /\ 0 < size md /\ Z.of_nat (length d) = size md
    /\ exists f, readable_loop f {| messageData := None; input := rest |} []
                 = Some (r1, more).
Proof.
  intros Hp E1 H1.
  exact (loop_first_encrypted _ (set_input (input (reader st) ++ c) st)
           r1 plain d more Hp E1 H1).
Qed.

(** A chunk of the size of the body being decrypted, arriving while the
    handler waits: it is read as a body, under the same header. *)
Lemma readable_while_waiting (n : Z) (d c : list byte) :
  0 < n -> Z.of_nat (length c) = n ->
  readable c
    (waiting {| size := n; isEncrypted := true |} [] d
       (delivered Framing.initial [] initial))
  = Some {| reader := Framing.initial; previousDecrypt := Some 1%nat;
            heap := [Pending [ResumeHandler; ThenCallback c true 1%nat]; Pending []];
            decrypting := [(0%nat, d)]; microtasks := []; notified := [];
            taken := [(d, true); (c, true)] |}.
Proof.
  intros Hn Hc. unfold readable.
  change (set_input _ _)
    with {| reader := {| messageData := Some {| size := n; isEncrypted := true |};
                         input := c |};
            previousDecrypt := Some 0%nat; heap := [Pending [ResumeHandler]];
            decrypting := [(0%nat, d)]; microtasks := []; notified := [];
            taken := [(d, true)] |}.
  unfold handler_fuel.
  cbn [handler_loop reader messageData input size isEncrypted].
  pose proof (read_enough n c [] Hn Hc) as Hr. rewrite app_nil_r in Hr.
  rewrite Hr.
  destruct (length c) as [|k] eqn:Ek; [cbn in Hc; lia|].
  reflexivity.
Qed.

Section Runs.
Variable decryptData : list byte -> list byte.

Local Abbreviation run := (run decryptData).

Lemma run_app (l1 l2 : list label) (st : runtime) :
  run (l1 ++ l2) st
  = match run l1 st with
    | Some st' => run l2 st'
    | None => None
    end.
Proof.
  revert st. induction l1 as [|l l1 IH]; intros st; [reflexivity|].
  cbn [app Inbound.run]. destruct (step decryptData st l); [apply IH | reflexivity].
Qed.

Lemma run_plain (chunks : list (list byte)) :
  forall (st : runtime) (r' : Framing.reader) (out : list submission),
  previousDecrypt st = None ->
  feed chunks (reader st) = Some (r', out) ->
  forallb is_plain out = true ->
  run (map Readable chunks) st = Some (delivered r' out st).
Proof.
  induction chunks as [|c chunks IH]; intros st r' out Hp H Hall.
  - injection H as <- <-. cbn. now rewrite delivered_nil.
  - cbn [feed] in H.
    destruct (Framing.readable c (reader st)) as [[r1 o1]|] eqn:E1; [|discriminate].
    destruct (feed chunks r1) as [[r2 o2]|] eqn:E2; [|discriminate].
    injection H as <- <-. rewrite forallb_app in Hall.
    apply andb_true_iff in Hall as [H1 H2].
    cbn [map Inbound.run step].
    rewrite (readable_plain c st r1 o1 Hp E1 H1).
    rewrite (IH (delivered r1 o1 st) r2 o2 Hp E2 H2). unfold delivered. cbn.
    now rewrite map_app, !app_assoc.
Qed.

(** Events that bring no byte leave a waiting handler as it is. *)
Lemma run_idle (md : MessageData) (d : list byte) (st : runtime)
    (chunks : list (list byte)) :
  0 < size md -> concat chunks = [] ->
  run (map Readable chunks) (waiting md [] d st) = Some (waiting md [] d st).
Proof.
  intros Hpos. induction chunks as [|c chunks IH]; intros Hc; [reflexivity|].
  cbn [concat] in Hc. apply app_eq_nil in Hc as [-> Hc].
  cbn [map Inbound.run step]. unfold readable, handler_fuel.
  cbn [waiting set_input set_reader reader messageData input app length handler_loop].
  rewrite read_short by (right; cbn; lia). now apply IH.
Qed.

Lemma run_first_encrypted (chunks : list (list byte)) :
  forall (st : runtime) (plain : list submission) (d : list byte),
  previousDecrypt st = None ->
  feed chunks (reader st) = Some (Framing.initial, plain ++ [(d, true)]) ->
  forallb is_plain plain = true ->
  exists md,
    run (map Readable chunks) st
    = Some (waiting md [] d (delivered (reader st) plain st))
    /\ isEncrypted md = true /\ 0 < size md /\ Z.of_nat (length d) = size md.
Proof.
  induction chunks as [|c chunks IH]; intros st plain d Hp H Hall.
  - injection H as _ H. now destruct plain.
  - cbn [feed] in H.
    destruct (Framing.readable c (reader st)) as [[r1 o1]|] eqn:E1; [|discriminate].
    destruct (feed chunks r1) as [[r2 o2]|] eqn:E2; [|discriminate].
    injection H as -> H.
    assert (Hcases : (exists l, plain = o1 ++ l /\ o2 = l ++ [(d, true)])
                     \/ (o1 = plain ++ [(d, true)] /\ o2 = [])).
    { apply app_eq_app in H as [l [[-> H]|[-> ->]]].
      - destruct l as [|x l].
        + left. exists []. cbn in H. subst o2. now rewrite !app_nil_r.
        + right. injection H as <- H. symmetry in H.
          apply app_eq_nil in H as [-> ->]. auto.
      - left. eauto. }
    cbn [map Inbound.run step].
    destruct Hcases as [(l & -> & ->)|[-> ->]].
    + rewrite forallb_app in Hall. apply andb_true_iff in Hall as [H1 H2].
      rewrite (readable_plain c st r1 o1 Hp E1 H1).
      destruct (IH (delivered r1 o1 st) l d Hp E2 H2) as (md & Hrun & Hmd).
      exists md. split; [|exact Hmd]. rewrite Hrun. unfold waiting, delivered. cbn.
      now rewrite map_app, !app_assoc.
    + destruct (readable_first_encrypted c st r1 plain d [] Hp E1 Hall)
        as (md & rest & Hl & He & Hpos & Hlen & f & Hrest).
      apply loop_conserves in Hrest. apply feed_conserves in E2.
      unfold held, wire_size in Hrest, E2. cbn in Hrest, E2.
      assert (Hr : rest = []) by (destruct rest; [reflexivity | cbn in Hrest; lia]).
      assert (Hc : concat chunks = [])
        by (destruct (concat chunks); [reflexivity | cbn in E2; lia]).
      subst rest. exists md. split; [|auto].
      rewrite Hl. now apply run_idle.
Qed.

(** Once the plaintext is there and the handler has gone on, the message
    is notified and the handler is back at the top of its loop. *)
Lemma waiting_resumed (md : MessageData) (d : list byte) (nt : list (value * bool))
    (tk : list submission) :
  run [Decrypted 0%nat; Tick]
    (waiting md [] d
       {| reader := Framing.initial; previousDecrypt := None; heap := [];
          decrypting := []; microtasks := []; notified := nt; taken := tk |})
  = Some {| reader := Framing.initial; previousDecrypt := Some 0%nat;
            heap := [Fulfilled (Buffer (decryptData d))];
            decrypting := []; microtasks := [];
            notified := nt ++ [(Buffer (decryptData d), true)];
            taken := tk ++ [(d, true)] |}.
Proof. reflexivity. Qed.

(** A history without a rejection is a run of [Inbound]. *)
Lemma inbound_outcomes_fulfilled (hs : list InboundOutcomes.outcome) (st : runtime) :
  InboundOutcomes.fulfilled_only hs = true ->
  InboundOutcomes.run_outcomes decryptData hs st
  = run (InboundOutcomes.labels hs) st.
Proof.
  revert st. induction hs as [|o hs IH]; intros st Hf; [reflexivity|].
  destruct o as [l|p]; [|discriminate Hf].
  cbn [InboundOutcomes.fulfilled_only forallb andb] in Hf.
  cbn [InboundOutcomes.run_outcomes InboundOutcomes.step_outcome
         InboundOutcomes.labels flat_map app Inbound.run].
  destruct (step decryptData st l); [now apply IH | reflexivity].
Qed.

(** Bytes that arrive while the handler waits for its first decryption,
    as many as the body being decrypted had. *)
Lemma stale_header_run (d c : list byte) :
  (0 < length d)%nat -> Z.of_nat (length d) < 2 ^ 31 ->
  length c = length d ->
  run [Readable (frame d true); Readable c;
       Decrypted 0%nat; Tick; Tick; Tick; Decrypted 3%nat; Tick; Tick] initial
  = Some {| reader := Framing.initial; previousDecrypt := Some 1%nat;
            heap := [Fulfilled (Buffer (decryptData d)); Fulfilled Undefined;
                     Fulfilled Undefined; Fulfilled (Buffer (decryptData c))];
            decrypting := []; microtasks := [];
            notified := [(Buffer (decryptData d), true);
                         (Buffer (decryptData c), true)];
            taken := [(d, true); (c, true)] |}.
Proof.
  intros Hpos Hlt Hlen.
  assert (Hfeed : feed [frame d true] (reader initial)
                  = Some (Framing.initial, [] ++ [(d, true)])).
  { apply feed_stream.
    - repeat constructor; cbn; lia.
    - cbn. now rewrite !app_nil_r. }
  destruct (run_first_encrypted [frame d true] initial [] d
              eq_refl Hfeed eq_refl) as ([n e] & Hrun & He & Hn & Hd).
  cbn [isEncrypted size] in He, Hn, Hd. subst e.
  change [Readable (frame d true); Readable c;
          Decrypted 0%nat; Tick; Tick; Tick; Decrypted 3%nat; Tick; Tick]
    with (map Readable [frame d true]
          ++ [Readable c; Decrypted 0%nat; Tick; Tick; Tick; Decrypted 3%nat; Tick; Tick]).
  rewrite run_app, Hrun. clear Hrun Hfeed.
  cbn [Inbound.run step].
  change (reader initial) with Framing.initial.
  rewrite (readable_while_waiting n d c) by lia.
  reflexivity.
Qed.

(** A plain frame that arrives once the first decryption is done and the
    handler has gone on: its header is read, then its body, which goes
    on the chain with the flag of that header. *)
Lemma readable_plain_chained (v : value) (b : list byte)
    (nt : list (value * bool)) (tk : list submission) :
  (0 < length b)%nat -> Z.of_nat (length b) < 2 ^ 31 ->
  readable (frame b false)
    {| reader := Framing.initial; previousDecrypt := Some 0%nat;
       heap := [Fulfilled v]; decrypting := []; microtasks := [];
       notified := nt; taken := tk |}
  = Some {| reader := Framing.initial; previousDecrypt := Some 1%nat;
            heap := [Fulfilled v; Pending []]; decrypting := [];
            microtasks := [Reaction (ThenCallback b false 1%nat) v];
            notified := nt; taken := tk ++ [(b, false)] |}.
Proof.
  intros Hpos Hlt.
  unfold readable. rewrite frame_layout.
  set (hdr := int32_bytes_BE (toInt32 (Z.of_nat (length b))) ++ [flag_byte false]).
  assert (Hh : length hdr = 5%nat) by reflexivity.
  assert (Hp : parse_header hdr = {| size := Z.of_nat (length b); isEncrypted := false |}).
  { unfold hdr. rewrite parse_header_frame, toInt32_small by lia. reflexivity. }
  change (set_input _ _)
    with {| reader := {| messageData := None; input := hdr ++ b |};
            previousDecrypt := Some 0%nat; heap := [Fulfilled v];
            decrypting := []; microtasks := []; notified := nt; taken := tk |}.
  unfold handler_fuel. cbn [reader input]. rewrite length_app, Hh.
  destruct (length b) as [|k] eqn:Ek; [lia|].
  cbn [Nat.add handler_loop reader messageData input].
  rewrite (read_enough (4 + 1) hdr b) by lia.
  cbn [set_messageData set_input set_reader reader messageData input].
  rewrite Hp. cbn [handler_loop reader messageData input size isEncrypted].
  pose proof (read_enough (Z.of_nat (S k)) b [] ltac:(lia) ltac:(lia)) as Hr.
  rewrite app_nil_r in Hr. rewrite Hr.
  reflexivity.
Qed.

(** The same two frames, the second one arriving once the first has been
    decrypted and notified. *)
Lemma settled_header_run (a b : list byte) :
  (0 < length a)%nat -> Z.of_nat (length a) < 2 ^ 31 ->
  (0 < length b)%nat -> Z.of_nat (length b) < 2 ^ 31 ->
  run [Readable (frame a true); Decrypted 0%nat; Tick;
       Readable (frame b false); Tick; Tick; Tick] initial
  = Some {| reader := Framing.initial; previousDecrypt := Some 1%nat;
            heap := [Fulfilled (Buffer (decryptData a)); Fulfilled Undefined;
                     Fulfilled Undefined];
            decrypting := []; microtasks := [];
            notified := [(Buffer (decryptData a), true); (Buffer b, false)];
            taken := [(a, true); (b, false)] |}.
Proof.
  intros Ha Hla Hb Hlb.
  assert (Hfeed : feed [frame a true] (reader initial)
                  = Some (Framing.initial, [] ++ [(a, true)])).
  { apply feed_stream.
    - repeat constructor; cbn; lia.
    - cbn. now rewrite !app_nil_r. }
  destruct (run_first_encrypted [frame a true] initial [] a
              eq_refl Hfeed eq_refl) as (md & Hrun & _).
  change [Readable (frame a true); Decrypted 0%nat; Tick;
          Readable (frame b false); Tick; Tick; Tick]
    with (map Readable [frame a true]
          ++ [Decrypted 0%nat; Tick]
          ++ [Readable (frame b false); Tick; Tick; Tick]).
  rewrite run_app, Hrun, run_app. clear Hrun Hfeed.
  change (delivered (reader initial) [] initial)
    with {| reader := Framing.initial; previousDecrypt := None; heap := [];
            decrypting := []; microtasks := []; notified := []; taken := [] |}.
  rewrite waiting_resumed.
  cbn [Inbound.run step app].
  rewrite (readable_plain_chained _ b _ _ Hb Hlb).
  reflexivity.
Qed.

End Runs.

End InboundFacts.

Module InboundProperties.
Import Bytes Framing FramingMore BytesFacts WriterFacts ReaderFacts StreamFacts.
Import Inbound InboundFacts.







(** X18: bytes that arrive while the handler waits for its first
    decryption are read with the header of the message being decrypted,
    which is still in [messageData]: as many bytes as that message had,
    whatever they are (the header of the next frame to begin with), are
    taken for the body of a second encrypted message, and both are
    notified once decrypted. *)
Theorem stale_header_while_decrypting (decryptData : list byte -> list byte)
    (d c : list byte) :
  (0 < length d)%nat -> Z.of_nat (length d) < 2 ^ 31 ->
  length c = length d ->
  run decryptData
    [Readable (frame d true); Readable c;
     Decrypted 0%nat; Tick; Tick; Tick; Decrypted 3%nat; Tick; Tick] initial
  = Some {| reader := Framing.initial; previousDecrypt := Some 1%nat;
            heap := [Fulfilled (Buffer (decryptData d)); Fulfilled Undefined;
                     Fulfilled Undefined; Fulfilled (Buffer (decryptData c))];
            decrypting := []; microtasks := [];
            notified := [(Buffer (decryptData d), true);
                         (Buffer (decryptData c), true)];
            taken := [(d, true); (c, true)] |}.
Proof. apply stale_header_run. Qed.

Lemma stale_header_while_decrypting_witness :
  (0 < length [x01; x02; x03; x04; x05; x06])%nat
  /\ Z.of_nat (length [x01; x02; x03; x04; x05; x06]) < 2 ^ 31
  /\ length (frame [x41] false) = length [x01; x02; x03; x04; x05; x06]
  /\ run Samples.rot
       [Readable (frame [x01; x02; x03; x04; x05; x06] true);
        Readable (frame [x41] false);
        Decrypted 0%nat; Tick; Tick; Tick; Decrypted 3%nat; Tick; Tick] initial
     = Some {| reader := Framing.initial; previousDecrypt := Some 1%nat;
               heap := [Fulfilled (Buffer (Samples.rot [x01; x02; x03; x04; x05; x06]));
                        Fulfilled Undefined; Fulfilled Undefined;
                        Fulfilled (Buffer (Samples.rot (frame [x41] false)))];
               decrypting := []; microtasks := [];
               notified := [(Buffer (Samples.rot [x01; x02; x03; x04; x05; x06]), true);
                            (Buffer (Samples.rot (frame [x41] false)), true)];
               taken := [([x01; x02; x03; x04; x05; x06], true);
                         (frame [x41] false, true)] |}.
Proof.
  split; [cbn; lia|]. split; [cbn; lia|]. split; [reflexivity|].
  apply (stale_header_while_decrypting Samples.rot [x01; x02; x03; x04; x05; x06]
           (frame [x41] false)); [cbn; lia | cbn; lia | reflexivity].
Defined.

End InboundProperties.

(* ===================================================================== *)
(** * The order of the notifications *)
(* ===================================================================== *)

Module InboundChainFacts.
Import Bytes Framing InboundChain.

Lemma lookup_map {A B : Type} (f : A -> B) (l : list A) (i : nat) :
  map f l !! i = option_map f (l !! i).
Proof. revert i. induction l as [|a l IH]; intros [|i]; cbn; auto. Qed.

Lemma insert_map {A B : Type} (f : A -> B) (l : list A) (i : nat) (x : A) :
  map f (<[i := x]> l) = <[i := f x]> (map f l).
Proof.
  revert i. induction l as [|a l IH]; intros [|i]; cbn; auto. now rewrite IH.
Qed.

(** ** The operations on promises, one by one *)

Lemma sim_enqueue (j : I.job) (st : I.runtime) :
  to_pipeline (I.enqueue j st) = S.enqueue (to_job j) (to_pipeline st).
Proof. unfold to_pipeline, I.enqueue, S.enqueue. cbn. now rewrite map_app. Qed.

Lemma sim_alloc (s : I.promise) (st : I.runtime) :
  S.alloc (to_promise s) (to_pipeline st)
  = (fst (I.alloc s st), to_pipeline (snd (I.alloc s st))).
Proof.
  unfold to_pipeline, I.alloc, S.alloc. cbn. now rewrite length_map, map_app.
Qed.

Lemma sim_register (p : nat) (k : I.reaction) (st : I.runtime) :
  to_pipeline (I.register p k st) = S.register p (to_reaction k) (to_pipeline st).
Proof.
  unfold I.register, S.register.
  change (S.heap (to_pipeline st)) with (map to_promise (I.heap st)).
  rewrite lookup_map. destruct (I.heap st !! p) as [[ks|v]|]; cbn [option_map to_promise].
  - unfold to_pipeline. cbn. rewrite insert_map. cbn [to_promise].
    now rewrite map_app.
  - apply sim_enqueue.
  - reflexivity.
Qed.

Lemma sim_fulfil (p : nat) (v : I.value) (st : I.runtime) :
  to_pipeline (I.fulfil p v st) = S.fulfil p (to_value v) (to_pipeline st).
Proof.
  unfold I.fulfil, S.fulfil.
  change (S.heap (to_pipeline st)) with (map to_promise (I.heap st)).
  rewrite lookup_map. destruct (I.heap st !! p) as [[ks|w]|]; cbn [option_map to_promise];
    [|reflexivity|reflexivity].
  unfold to_pipeline. cbn. rewrite insert_map, map_app, !map_map. reflexivity.
Qed.

Lemma sim_notify (v : I.value) (e : bool) (st : I.runtime) :
  to_pipeline (I.notifyMessage v e st) = S.writeSync (to_value v) e (to_pipeline st).
Proof.
  unfold to_pipeline, I.notifyMessage, S.writeSync. cbn. rewrite flat_map_app.
  destruct v; cbn; [now rewrite app_nil_r | reflexivity].
Qed.

Lemma sim_call (data : list byte) (st : I.runtime) :
  S.call_encryptData data (to_pipeline st)
  = (fst (I.call_decryptData data st), to_pipeline (snd (I.call_decryptData data st))).
Proof.
  unfold I.call_decryptData, S.call_encryptData.
  change (S.Pending []) with (to_promise (I.Pending [])).
  rewrite sim_alloc. reflexivity.
Qed.

Lemma sim_set_previous (p : option nat) (st : I.runtime) :
  to_pipeline (I.set_previousDecrypt p st) = S.set_previousEncrypt p (to_pipeline st).
Proof. reflexivity. Qed.

Lemma sim_submit (data : list byte) (e : bool) (st : I.runtime) :
  to_pipeline (fst (I.submit data e st)) = S.send data e (to_pipeline st).
Proof.
  unfold I.submit, S.send.
  change (S.previousEncrypt (to_pipeline st)) with (I.previousDecrypt st).
  cbn [I.record_taken I.previousDecrypt].
  destruct (I.previousDecrypt st) as [previous|].
  - change (S.Pending []) with (to_promise (I.Pending [])).
    rewrite sim_alloc. cbn. now rewrite sim_set_previous, sim_register.
  - destruct e.
    + rewrite sim_call. cbn. now rewrite sim_register.
    + cbn [fst]. now rewrite sim_notify.
Qed.

(** ** What the steps do to [taken] and to [notified] *)

Lemma register_keeps (p : nat) (k : I.reaction) (st : I.runtime) :
  I.taken (I.register p k st) = I.taken st
  /\ I.notified (I.register p k st) = I.notified st.
Proof. unfold I.register. now destruct (I.heap st !! p) as [[ks|v]|]. Qed.

Lemma fulfil_keeps (p : nat) (v : I.value) (st : I.runtime) :
  I.taken (I.fulfil p v st) = I.taken st
  /\ I.notified (I.fulfil p v st) = I.notified st.
Proof. unfold I.fulfil. now destruct (I.heap st !! p) as [[ks|w]|]. Qed.

Lemma submit_keeps (data : list byte) (e : bool) (st : I.runtime) :
  I.taken (fst (I.submit data e st)) = I.taken st ++ [(data, e)]
  /\ (Forall is_buffer (I.notified st) ->
      Forall is_buffer (I.notified (fst (I.submit data e st)))).
Proof.
  unfold I.submit. cbn [I.record_taken I.previousDecrypt].
  destruct (I.previousDecrypt st) as [previous|].
  - cbn. match goal with |- context [I.register ?p ?k ?s] =>
      destruct (register_keeps p k s) as [-> ->] end. cbn. auto.
  - destruct e; cbn.
    + match goal with |- context [I.register ?p ?k ?s] =>
        destruct (register_keeps p k s) as [-> ->] end. cbn. auto.
    + split; [reflexivity|]. intros H. apply Forall_app. split; [exact H|].
      repeat constructor.
Qed.

Section Runs.
Variable decryptData : list byte -> list byte.

Local Abbreviation srun := (S.run decryptData).

Lemma srun_app (l1 l2 : list S.label) (st : S.runtime) :
  srun (l1 ++ l2) st
  = match srun l1 st with
    | Some st' => srun l2 st'
    | None => None
    end.
Proof.
  revert st. induction l1 as [|l l1 IH]; intros st; [reflexivity|].
  cbn [app S.run]. destruct (S.step decryptData st l); [apply IH | reflexivity].
Qed.

(** The handler's loop is a series of [send] calls, one for each body it
    takes. *)
Lemma sim_loop (fuel : nat) :
  forall st st' : I.runtime,
  I.handler_loop fuel st = Some st' ->
  exists bodies,
    I.taken st' = I.taken st ++ bodies
    /\ srun (to_sends bodies) (to_pipeline st) = Some (to_pipeline st')
    /\ (Forall is_buffer (I.notified st) -> Forall is_buffer (I.notified st')).
Proof.
  induction fuel as [|fuel IH]; intros st st' H; [discriminate|].
  cbn [I.handler_loop] in H.
  destruct (messageData (I.reader st)) as [md|].
  - destruct (Socket.read (size md) (input (I.reader st))) as [[data|] rest].
    + destruct (I.submit data (isEncrypted md) (I.set_input rest st))
        as [st1 waiting] eqn:E.
      pose proof (sim_submit data (isEncrypted md) (I.set_input rest st)) as Hs.
      destruct (submit_keeps data (isEncrypted md) (I.set_input rest st)) as [Ht Hn].
      rewrite E in Hs, Ht, Hn. cbn [fst] in Hs, Ht, Hn.
      change (to_pipeline (I.set_input rest st)) with (to_pipeline st) in Hs.
      change (I.taken (I.set_input rest st)) with (I.taken st) in Ht.
      change (I.notified (I.set_input rest st)) with (I.notified st) in Hn.
      destruct waiting.
      * injection H as <-. exists [(data, isEncrypted md)].
        split; [exact Ht|]. split; [|exact Hn].
        cbn. now rewrite Hs.
      * destruct (IH _ _ H) as (bodies & Ht' & Hrun & Hn').
        change (to_pipeline (I.set_messageData None st1)) with (to_pipeline st1) in Hrun.
        change (I.taken (I.set_messageData None st1)) with (I.taken st1) in Ht'.
        change (I.notified (I.set_messageData None st1)) with (I.notified st1) in Hn'.
        exists ((data, isEncrypted md) :: bodies).
        split; [rewrite Ht', Ht, <- app_assoc; reflexivity|].
        split; [|auto].
        cbn. now rewrite <- Hs.
    + injection H as <-. exists []. rewrite app_nil_r. auto.
  - destruct (Socket.read (4 + 1) (input (I.reader st))) as [[data|] rest].
    + destruct (IH _ _ H) as (bodies & Ht' & Hrun & Hn'). exists bodies. auto.
    + injection H as <-. exists []. rewrite app_nil_r. auto.
Qed.

Lemma submitted_sends (bodies : list submission) :
  S.submitted decryptData (to_sends bodies)
  = map frame_note (map (deliver decryptData) bodies).
Proof.
  induction bodies as [|[d e] bodies IH]; [reflexivity|].
  change (S.submitted decryptData (to_sends ((d, e) :: bodies)))
    with (S.frame_of decryptData d e :: S.submitted decryptData (to_sends bodies)).
  rewrite IH. reflexivity.
Qed.

(** A microtask that notifies carries a buffer. *)
Lemma shaped_job_value (st : S.runtime) (todo : list Socket.call)
    (k : S.reaction) (v : S.value) (rest : list S.job) :
  SendShape.shape decryptData st todo ->
  S.microtasks st = S.Reaction k v :: rest ->
  match k with
  | S.ResumeSend | S.ResumeCallback _ => exists w, v = S.Buffer w
  | _ => True
  end.
Proof.
  intros Hs Hm. destruct Hs as [_ Ht _|x h cs Hch].
  - rewrite Ht in Hm. discriminate.
  - destruct Hch as [_ _ _ _ _ Ht _]. rewrite Ht in Hm.
    destruct h; cbn in Hm; try discriminate;
      try (injection Hm as <- <- _; cbn; eauto; fail).
    destruct cs as [|c cs]; cbn in Hm; [discriminate|].
    injection Hm as <- <- _. exact I.
Qed.

Lemma sim_decrypted (p : nat) (st st' : I.runtime) :
  I.decrypted decryptData p st = Some st' ->
  S.encrypted decryptData p (to_pipeline st) = Some (to_pipeline st')
  /\ I.taken st' = I.taken st /\ I.notified st' = I.notified st.
Proof.
  unfold I.decrypted, S.encrypted.
  change (S.take_encrypting p (S.encrypting (to_pipeline st)))
    with (I.take_decrypting p (I.decrypting st)).
  destruct (I.take_decrypting p (I.decrypting st)) as [[data rest]|]; [|discriminate].
  intros [= <-].
  change (S.Buffer (decryptData data)) with (to_value (I.Buffer (decryptData data))).
  rewrite sim_fulfil.
  destruct (fulfil_keeps p (I.Buffer (decryptData data)) (I.set_decrypting rest st))
    as [-> ->].
  auto.
Qed.

Lemma sim_tick (st st' : I.runtime) :
  I.tick st = Some st' ->
  exists bodies,
    I.taken st' = I.taken st ++ bodies
    /\ srun (S.Tick :: to_sends bodies) (to_pipeline st) = Some (to_pipeline st')
    /\ (Forall is_buffer (I.notified st) ->
        (forall k v rest,
           S.microtasks (to_pipeline st) = S.Reaction k v :: rest ->
           match k with
           | S.ResumeSend | S.ResumeCallback _ => exists w, v = S.Buffer w
           | _ => True
           end) ->
        Forall is_buffer (I.notified st')).
Proof.
  unfold I.tick. destruct (I.microtasks st) as [|j rest] eqn:Em; [discriminate|].
  intros H. cbn [S.run S.step]. unfold S.tick.
  change (S.microtasks (to_pipeline st)) with (map to_job (I.microtasks st)).
  rewrite Em. cbn [map].
  change (S.set_microtasks (map to_job rest) (to_pipeline st))
    with (to_pipeline (I.set_microtasks rest st)).
  set (st0 := I.set_microtasks rest st) in *.
  assert (Ht0 : I.taken st0 = I.taken st) by reflexivity.
  assert (Hn0 : I.notified st0 = I.notified st) by reflexivity.
  destruct j as [[|d e derived|result|derived] v|derived result];
    cbn [I.run_job to_job to_reaction S.run_job] in *.
  - apply sim_loop in H as (bodies & Ht & Hrun & Hn).
    exists bodies. split; [exact Ht|]. split.
    + rewrite <- sim_notify. exact Hrun.
    + intros Hb Hv. apply Hn. cbn. apply Forall_app. split; [exact Hb|].
      specialize (Hv _ _ _ eq_refl). cbn in Hv. destruct Hv as [w Hw].
      destruct v; [discriminate Hw|]. repeat constructor.
  - exists []. rewrite app_nil_r. destruct e.
    + injection H as <-.
      change (S.Pending []) with (to_promise (I.Pending [])).
      rewrite sim_alloc. cbn [fst snd].
      unfold S.call_encryptData, I.call_decryptData.
      change (S.Pending []) with (to_promise (I.Pending [])).
      rewrite sim_alloc. cbn [fst snd I.alloc].
      split; [|split].
      * cbn. match goal with |- context [I.register ?p ?k ?s] =>
          destruct (register_keeps p k s) as [-> _] end. reflexivity.
      * cbn. rewrite sim_enqueue, sim_register. reflexivity.
      * intros Hb _. cbn. match goal with |- context [I.register ?p ?k ?s] =>
          destruct (register_keeps p k s) as [_ ->] end. exact Hb.
    + injection H as <-.
      change (S.Fulfilled S.Undefined) with (to_promise (I.Fulfilled I.Undefined)).
      change (S.Buffer d) with (to_value (I.Buffer d)).
      rewrite <- sim_notify, sim_alloc. cbn [fst snd I.alloc].
      split; [reflexivity|]. split.
      * cbn. now rewrite sim_enqueue.
      * intros Hb _. cbn. apply Forall_app. split; [exact Hb|]. repeat constructor.
  - exists []. rewrite app_nil_r. injection H as <-.
    destruct (fulfil_keeps result I.Undefined (I.notifyMessage v true st0)) as [Ht Hn].
    split; [exact Ht|]. split.
    + cbn. change S.Undefined with (to_value I.Undefined).
      now rewrite sim_fulfil, sim_notify.
    + intros Hb Hv. rewrite Hn. cbn. apply Forall_app. split; [exact Hb|].
      specialize (Hv _ _ _ eq_refl). cbn in Hv. destruct Hv as [w Hw].
      destruct v; [discriminate Hw|]. repeat constructor.
  - exists []. rewrite app_nil_r. injection H as <-.
    destruct (fulfil_keeps derived v st0) as [Ht Hn].
    split; [exact Ht|]. split.
    + cbn. now rewrite sim_fulfil.
    + intros Hb _. now rewrite Hn.
  - exists []. rewrite app_nil_r. injection H as <-.
    destruct (register_keeps result (I.ResolveDerived derived) st0) as [Ht Hn].
    split; [exact Ht|]. split.
    + cbn. now rewrite sim_register.
    + intros Hb _. now rewrite Hn.
Qed.

Lemma sim_readable (chunk : list byte) (st st' : I.runtime) :
  I.readable chunk st = Some st' ->
  exists bodies,
    I.taken st' = I.taken st ++ bodies
    /\ srun (to_sends bodies) (to_pipeline st) = Some (to_pipeline st')
    /\ (Forall is_buffer (I.notified st) -> Forall is_buffer (I.notified st')).
Proof. intros H. exact (sim_loop _ _ _ H). Qed.

(** ** The invariant *)

Lemma initial_in_order : in_order decryptData I.initial.
Proof.
  split; [|constructor]. exists []. split; [|reflexivity].
  apply (SendOrder.initial_shape decryptData).
Qed.

Lemma step_in_order (st st' : I.runtime) (l : I.label) :
  in_order decryptData st -> I.step decryptData st l = Some st' ->
  in_order decryptData st'.
Proof.
  intros [(todo & Hs & Hsock) Hb] Hstep.
  assert (Hsim : exists ls bodies,
             I.taken st' = I.taken st ++ bodies
             /\ srun ls (to_pipeline st) = Some (to_pipeline st')
             /\ S.submitted decryptData ls
                = map frame_note (map (deliver decryptData) bodies)
             /\ Forall is_buffer (I.notified st')).
  { destruct l as [chunk|p|]; cbn [I.step] in Hstep.
    - apply sim_readable in Hstep as (bodies & Ht & Hrun & Hn).
      exists (to_sends bodies), bodies. rewrite submitted_sends. auto.
    - apply sim_decrypted in Hstep as (Hrun & Ht & Hn).
      exists [S.Encrypted p], []. rewrite app_nil_r, Hn.
      split; [exact Ht|]. split; [|auto]. cbn. now rewrite Hrun.
    - apply sim_tick in Hstep as (bodies & Ht & Hrun & Hn).
      exists (S.Tick :: to_sends bodies), bodies.
      split; [exact Ht|]. split; [exact Hrun|]. split.
      + change (S.submitted decryptData (S.Tick :: to_sends bodies))
          with (S.submitted decryptData (to_sends bodies)).
        apply submitted_sends.
      + apply Hn; [exact Hb|]. intros k v rest Hm.
        exact (shaped_job_value _ todo k v rest Hs Hm). }
  destruct Hsim as (ls & bodies & Ht & Hrun & Hsub & Hb').
  split; [|exact Hb'].
  destruct (SendOrder.run_shape decryptData ls _ _ todo Hs Hrun) as (todo' & Hs' & H').
  exists todo'. split; [exact Hs'|].
  rewrite H', Hsock, Hsub, Ht, !map_app. reflexivity.
Qed.

Lemma run_in_order (ls : list I.label) (st st' : I.runtime) :
  in_order decryptData st -> I.run decryptData ls st = Some st' ->
  in_order decryptData st'.
Proof.
  revert st. induction ls as [|l ls IH]; intros st Hi Hrun.
  - now injection Hrun as <-.
  - cbn [I.run] in Hrun.
    destruct (I.step decryptData st l) as [st1|] eqn:E; [|discriminate].
    eapply IH; [|exact Hrun]. eapply step_in_order; eassumption.
Qed.

(** ** From frames back to notifications *)

Lemma notes_prefix (notes : list (I.value * bool)) :
  Forall is_buffer notes ->
  forall (bodies : list submission) (todo : list Socket.call),
  flat_map note_frames notes ++ todo
  = map frame_note (map (deliver decryptData) bodies) ->
  notes = map (deliver decryptData) (take (length notes) bodies)
  /\ (todo = [] -> length notes = length bodies).
Proof.
  induction 1 as [|[v e] notes Hv Hall IH]; intros bodies todo H.
  - cbn. rewrite take_0. split; [reflexivity|]. intros ->. cbn in H.
    destruct bodies; [reflexivity | discriminate].
  - unfold is_buffer in Hv. cbn [fst] in Hv. destruct v as [|d]; [destruct Hv|].
    destruct bodies as [|[d' e'] bodies]; [discriminate H|].
    cbn in H. injection H as Hf H.
    apply StreamFacts.frame_inj in Hf as [-> ->].
    destruct (IH bodies todo H) as [IH1 IH2].
    split.
    + cbn [length take map]. rewrite <- IH1. reflexivity.
    + intros Ht. cbn [length]. now rewrite IH2.
Qed.

Lemma idle_all_notified (ls : list I.label) (st : I.runtime) :
  I.run decryptData ls I.initial = Some st ->
  I.microtasks st = [] -> I.decrypting st = [] ->
  I.notified st = map (deliver decryptData) (I.taken st).
Proof.
  intros Hrun Hm Hd.
  destruct (run_in_order ls _ _ initial_in_order Hrun) as [(todo & Hs & Hsock) Hb].
  assert (Ht : todo = []).
  { destruct Hs as [_ _ _|x h cs Hch]; [reflexivity|].
    apply (SendOrder.chained_quiescent decryptData _ x h cs Hch).
    unfold S.next_label.
    change (S.microtasks (to_pipeline st)) with (map to_job (I.microtasks st)).
    change (S.encrypting (to_pipeline st)) with (I.decrypting st).
    now rewrite Hm, Hd. }
  destruct (notes_prefix _ Hb _ todo Hsock) as [Hp Hl].
  rewrite Hp at 1. rewrite (Hl Ht). now rewrite firstn_all.
Qed.

End Runs.

End InboundChainFacts.

Module InboundOrder.
Import Bytes Framing InboundChain InboundChainFacts.

(** X19: whatever arrives and whenever the decryptions complete, the
    [notifyMessage] calls made so far are those due to the first bodies
    taken off the socket, in the order the bodies were taken: each body as
    it is with flag false, or its plaintext with flag true.  A message
    whose decryption takes long holds back the ones read after it; none
    overtakes it. *)
Theorem notifications_follow_reading_order (decryptData : list byte -> list byte)
    (ls : list I.label) (st : I.runtime) :
  I.run decryptData ls I.initial = Some st ->
  I.notified st
  = map (deliver decryptData) (take (length (I.notified st)) (I.taken st)).
Proof.
  intros Hrun.
  destruct (run_in_order decryptData ls _ _ (initial_in_order decryptData) Hrun)
    as [(todo & _ & Hsock) Hb].
  exact (proj1 (notes_prefix decryptData _ Hb _ todo Hsock)).
Qed.

Lemma notifications_follow_reading_order_witness :
  exists st,
    I.run Samples.rot
      [I.Readable (frame [x01; x02] true ++ frame [x03] false);
       I.Readable (frame [x04] true); I.Decrypted 0%nat; I.Tick; I.Tick]
      I.initial = Some st
    /\ I.notified st
       = map (deliver Samples.rot) (take (length (I.notified st)) (I.taken st)).
Proof.
  eexists. split; [vm_compute; reflexivity|].
  apply (notifications_follow_reading_order Samples.rot
           [I.Readable (frame [x01; x02] true ++ frame [x03] false);
            I.Readable (frame [x04] true); I.Decrypted 0%nat; I.Tick; I.Tick]).
  vm_compute. reflexivity.
Defined.

(** X20: in a history in which no promise of [decryptData] is rejected,
    when the microtask queue is empty and no decryption is under way,
    every body taken off the socket so far has been notified, in the order
    the bodies were taken.  The condition is needed: the handler does not
    handle a rejection, and the bodies chained behind a rejected
    decryption are not notified (see [rejected_decryption_holds_back]). *)
Theorem idle_means_all_notified (decryptData : list byte -> list byte)
    (hs : list InboundOutcomes.outcome) (st : I.runtime) :
  InboundOutcomes.fulfilled_only hs = true ->
  InboundOutcomes.run_outcomes decryptData hs I.initial = Some st ->
  I.microtasks st = [] -> I.decrypting st = [] ->
  I.notified st = map (deliver decryptData) (I.taken st).
Proof.
  intros Hf Hrun.
  rewrite (InboundFacts.inbound_outcomes_fulfilled decryptData hs I.initial Hf) in Hrun.
  now apply idle_all_notified with (ls := InboundOutcomes.labels hs).
Qed.

Lemma idle_means_all_notified_witness :
  let hs := map InboundOutcomes.Happens
              [I.Readable (frame [x01; x02] true ++ frame [x03] false);
               I.Decrypted 0%nat; I.Tick; I.Tick; I.Tick; I.Tick] in
  exists st,
    InboundOutcomes.fulfilled_only hs = true
    /\ InboundOutcomes.run_outcomes Samples.rot hs I.initial = Some st
    /\ I.microtasks st = [] /\ I.decrypting st = []
    /\ I.notified st = map (deliver Samples.rot) (I.taken st).
Proof.
  intros hs. eexists. split; [reflexivity|].
  split; [vm_compute; reflexivity|].
  split; [reflexivity|]. split; [reflexivity|].
  apply (idle_means_all_notified Samples.rot hs); vm_compute; reflexivity.
Defined.

(** With a rejection the conclusion fails: an encrypted frame and a plain
    one behind it arrive together, the first decryption is fulfilled and
    notified, a second encrypted frame arrives and its decryption is
    rejected, then a plain frame arrives.  The queue is empty and no
    decryption is under way; the last two bodies were taken off the
    socket and neither has been notified. *)
Example rejected_decryption_holds_back :
  let hs := [InboundOutcomes.Happens
               (I.Readable (frame [x01; x02] true ++ frame [x03] false));
             InboundOutcomes.Happens (I.Decrypted 0%nat);
             InboundOutcomes.Happens I.Tick; InboundOutcomes.Happens I.Tick;
             InboundOutcomes.Happens I.Tick; InboundOutcomes.Happens I.Tick;
             InboundOutcomes.Happens (I.Readable (frame [x04] true));
             InboundOutcomes.Happens I.Tick; InboundOutcomes.Happens I.Tick;
             InboundOutcomes.DecryptionRejected 5%nat;
             InboundOutcomes.Happens (I.Readable (frame [x05] false))] in
  exists st,
    InboundOutcomes.run_outcomes Samples.rot hs I.initial = Some st
    /\ I.microtasks st = [] /\ I.decrypting st = []
    /\ I.taken st = [([x01; x02], true); ([x03], false); ([x04], true); ([x05], false)]
    /\ I.notified st = [(I.Buffer (Samples.rot [x01; x02]), true); (I.Buffer [x03], false)].
Proof.
  intros hs. eexists. split; [vm_compute; reflexivity|].
  split; [reflexivity|]. split; [reflexivity|]. split; reflexivity.
Qed.

End InboundOrder.

(* ===================================================================== *)
(** * Calm runs: the handler frames the stream as the loop of section 6 *)
(* ===================================================================== *)

Module InboundCalmFacts.
Import Bytes Framing FramingMore BytesFacts WriterFacts ReaderFacts StreamFacts.
Import Inbound InboundFacts InboundCalm.

Local Open Scope nat_scope.

Lemma readable_loop_mono (f : nat) :
  forall (f' : nat) (r : Framing.reader) (out : list submission) x,
  readable_loop f r out = Some x -> f <= f' -> readable_loop f' r out = Some x.
Proof.
  induction f as [|f IH]; intros f' r out x H Hle; [discriminate|].
  destruct f' as [|f']; [lia|]. cbn [readable_loop] in *.
  destruct (messageData r) as [md|].
  - destruct (Socket.read (size md) (input r)) as [[data|] rest]; [|exact H].
    apply IH; [exact H | lia].
  - destruct (Socket.read (4 + 1)%Z (input r)) as [[data|] rest]; [|exact H].
    apply IH; [exact H | lia].
Qed.

Lemma readable_loop_enough (f : nat) (r : Framing.reader) x :
  readable_loop f r [] = Some x ->
  readable_loop (S (length (input r))) r [] = Some x.
Proof.
  intros H.
  rewrite (readable_loop_fuel (S (length (input r))) (f + S (length (input r))))
    by lia.
  apply (readable_loop_mono f); [exact H | lia].
Qed.

(** ** Counting the suspended runs *)

Lemma list_sum_cons (n : nat) (l : list nat) : list_sum (n :: l) = n + list_sum l.
Proof. reflexivity. Qed.

Lemma list_sum_snoc (l : list nat) (n : nat) : list_sum (l ++ [n]) = list_sum l + n.
Proof. rewrite list_sum_app, list_sum_cons. cbn. lia. Qed.

Lemma list_sum_map_snoc {A : Type} (f : A -> nat) (l : list A) (x : A) :
  list_sum (map f (l ++ [x])) = list_sum (map f l) + f x.
Proof. rewrite map_app. cbn [map]. apply list_sum_snoc. Qed.

Lemma list_sum_insert {A : Type} (f : A -> nat) (l : list A) (p : nat) (x y : A) :
  l !! p = Some x ->
  list_sum (map f (<[p := y]> l)) + f x = list_sum (map f l) + f y.
Proof.
  revert p. induction l as [|a l IH]; intros [|p] H; cbn in *; try discriminate.
  - injection H as ->. lia.
  - specialize (IH p H). rewrite <- !Nat.add_assoc. f_equal. exact IH.
Qed.

Lemma resumes_of_reactions (v : value) (ks : list reaction) :
  list_sum (map job_resumes (map (fun k => Reaction k v) ks))
  = length (List.filter is_resume ks).
Proof.
  induction ks as [|k ks IH]; [reflexivity|].
  cbn [map List.filter]. rewrite list_sum_cons, IH.
  destruct k; reflexivity.
Qed.

Lemma sus_alloc (s : promise) (st : runtime) :
  suspended (snd (alloc s st)) = suspended st + waits_in s.
Proof.
  unfold suspended, alloc. cbn [snd heap microtasks set_heap].
  rewrite list_sum_map_snoc. lia.
Qed.

Lemma sus_enqueue (j : job) (st : runtime) :
  suspended (enqueue j st) = suspended st + job_resumes j.
Proof.
  unfold suspended, enqueue. cbn [heap microtasks set_microtasks].
  rewrite list_sum_map_snoc. lia.
Qed.

Lemma sus_register (p : pid) (k : reaction) (st : runtime) :
  is_resume k = false -> suspended (register p k st) = suspended st.
Proof.
  intros Hk. unfold register. destruct (heap st !! p) as [[ks|v]|] eqn:E.
  - unfold suspended. cbn [heap microtasks set_heap].
    pose proof (list_sum_insert waits_in (heap st) p (Pending ks)
                  (Pending (ks ++ [k])) E) as H.
    cbn [waits_in] in H. rewrite List.filter_app, length_app in H.
    cbn [List.filter] in H. rewrite Hk in H. cbn [length] in H. lia.
  - rewrite sus_enqueue. destruct k; (discriminate Hk || (cbn [job_resumes]; lia)).
  - reflexivity.
Qed.

Lemma sus_fulfil (p : pid) (v : value) (st : runtime) :
  suspended (fulfil p v st) = suspended st.
Proof.
  unfold fulfil. destruct (heap st !! p) as [[ks|w]|] eqn:E; [|reflexivity|reflexivity].
  unfold suspended. cbn [heap microtasks set_heap set_microtasks].
  pose proof (list_sum_insert waits_in (heap st) p (Pending ks) (Fulfilled v) E) as H.
  cbn [waits_in] in H. rewrite map_app, list_sum_app, resumes_of_reactions. lia.
Qed.

Lemma sus_call (data : list byte) (st : runtime) :
  suspended (snd (call_decryptData data st)) = suspended st.
Proof.
  unfold call_decryptData, alloc, suspended.
  cbn [snd heap microtasks set_heap set_decrypting].
  rewrite list_sum_map_snoc. cbn [waits_in List.filter length]. lia.
Qed.

(** ** The loop, once [previousDecrypt] is set: it never waits *)

Lemma register_fields (p : pid) (k : reaction) (st : runtime) :
  reader (register p k st) = reader st
  /\ taken (register p k st) = taken st
  /\ previousDecrypt (register p k st) = previousDecrypt st.
Proof. unfold register. now destruct (heap st !! p) as [[ks|v]|]. Qed.

Lemma submit_chained (data : list byte) (e : bool) (st : runtime) (p : pid) :
  previousDecrypt st = Some p ->
  exists st1,
    submit data e st = (st1, false)
    /\ reader st1 = reader st /\ taken st1 = taken st ++ [(data, e)]
    /\ suspended st1 = suspended st
    /\ exists p', previousDecrypt st1 = Some p'.
Proof.
  intros Hp. unfold submit. cbn [record_taken previousDecrypt]. rewrite Hp.
  cbn [alloc heap set_heap].
  eexists. split; [reflexivity|].
  match goal with
  | |- context [register ?a ?b ?c] =>
      destruct (register_fields a b c) as (Hr & Ht & _);
      pose proof (sus_register a b c eq_refl) as Hs
  end.
  cbn [set_previousDecrypt reader taken previousDecrypt].
  split; [exact Hr|]. split; [exact Ht|]. split; [|eauto].
  unfold suspended in *. cbn [heap microtasks set_previousDecrypt] in *.
  rewrite Hs. cbn [heap microtasks set_heap record_taken].
  rewrite list_sum_map_snoc. cbn [waits_in List.filter length]. lia.
Qed.

Lemma loop_chained (fuel : nat) :
  forall (st : runtime) (r' : Framing.reader) (out : list submission) (p : pid),
  previousDecrypt st = Some p ->
  readable_loop fuel (reader st) [] = Some (r', out) ->
  exists st',
    handler_loop fuel st = Some st'
    /\ reader st' = r' /\ taken st' = taken st ++ out
    /\ suspended st' = suspended st
    /\ exists p', previousDecrypt st' = Some p'.
Proof.
  induction fuel as [|fuel IH]; intros st r' out p Hp H; [discriminate|].
  cbn [readable_loop handler_loop] in *.
  destruct (messageData (reader st)) as [md|] eqn:Emd.
  - destruct (Socket.read (size md) (input (reader st))) as [[data|] rest] eqn:E.
    + rewrite readable_loop_out in H.
      destruct (readable_loop fuel {| messageData := None; input := rest |} [])
        as [[r1 o1]|] eqn:E1; [|discriminate].
      cbn [prepend app] in H. injection H as <- <-.
      destruct (submit_chained data (isEncrypted md) (set_input rest st) p Hp)
        as (st1 & Hsub & Hr1 & Ht1 & Hs1 & p1 & Hp1).
      rewrite Hsub.
      assert (E1' : readable_loop fuel (reader (set_messageData None st1)) []
                    = Some (r1, o1)).
      { cbn [set_messageData set_reader reader]. rewrite Hr1. exact E1. }
      destruct (IH (set_messageData None st1) r1 o1 p1 Hp1 E1')
        as (st' & Hl & Hr & Ht & Hs & Hp').
      exists st'. split; [exact Hl|]. split; [exact Hr|].
      split; [rewrite Ht; cbn [set_messageData set_reader taken]; rewrite Ht1;
              cbn [set_input set_reader taken]; now rewrite <- app_assoc|].
      split; [|exact Hp'].
      rewrite Hs. exact Hs1.
    + injection H as <- <-. exists st. rewrite app_nil_r. eauto 10.
  - destruct (Socket.read (4 + 1)%Z (input (reader st))) as [[data|] rest] eqn:E.
    + destruct (IH (set_messageData (Some (parse_header data)) (set_input rest st))
                  r' out p Hp H) as (st' & Hl & Hr & Ht & Hs & Hp').
      exists st'. auto.
    + injection H as <- <-. exists st. rewrite app_nil_r. eauto 10.
Qed.

(** ** What a step keeps *)

Lemma fulfil_fields (p : pid) (v : value) (st : runtime) :
  reader (fulfil p v st) = reader st
  /\ taken (fulfil p v st) = taken st
  /\ previousDecrypt (fulfil p v st) = previousDecrypt st.
Proof. unfold fulfil. now destruct (heap st !! p) as [[ks|w]|]. Qed.

Lemma framed_ext (r : Framing.reader) (out : list submission) (st st' : runtime) :
  reader st' = reader st -> taken st' = taken st ->
  previousDecrypt st' = previousDecrypt st -> suspended st' = suspended st ->
  framed r out st -> framed r out st'.
Proof.
  intros Hr Ht Hp Hs (H1 & H2 & H3 & H4). unfold framed.
  rewrite Hr, Ht, Hp, Hs. auto.
Qed.

(** A microtask other than the handler going on. *)
Lemma run_job_other (j : job) (st st' : runtime) :
  job_resumes j = 0 -> run_job j st = Some st' ->
  reader st' = reader st /\ taken st' = taken st
  /\ previousDecrypt st' = previousDecrypt st /\ suspended st' = suspended st.
Proof.
  intros Hj H.
  destruct j as [[|d e derived|result|derived] v|derived result];
    cbn [run_job job_resumes] in *; try discriminate Hj.
  - destruct e; injection H as <-.
    + cbn [alloc call_decryptData fst snd].
      match goal with
      | |- context [register ?a ?b ?c] =>
          destruct (register_fields a b c) as (Hr & Ht & Hp);
          pose proof (sus_register a b c eq_refl) as Hs
      end.
      rewrite sus_enqueue.
      cbn [enqueue set_microtasks reader taken previousDecrypt job_resumes].
      rewrite Hr, Ht, Hp, Hs. repeat split.
      unfold suspended. cbn [heap microtasks set_decrypting set_heap].
      rewrite !list_sum_map_snoc. cbn [waits_in List.filter length]. lia.
    + cbn [alloc fst snd]. rewrite sus_enqueue.
      cbn [enqueue set_microtasks set_heap notifyMessage reader taken previousDecrypt
             job_resumes].
      repeat split.
      unfold suspended. cbn [heap microtasks set_heap notifyMessage].
      rewrite list_sum_map_snoc. cbn [waits_in]. lia.
  - injection H as <-.
    destruct (fulfil_fields result Undefined (notifyMessage v true st)) as (Hr & Ht & Hp).
    rewrite Hr, Ht, Hp, sus_fulfil. repeat split.
  - injection H as <-.
    destruct (fulfil_fields derived v st) as (Hr & Ht & Hp).
    rewrite Hr, Ht, Hp, sus_fulfil. repeat split.
  - injection H as <-.
    destruct (register_fields result (ResolveDerived derived) st) as (Hr & Ht & Hp).
    rewrite Hr, Ht, Hp, sus_register by reflexivity. repeat split.
Qed.

Lemma plain_or_first (o : list submission) :
  forallb is_plain o = true
  \/ exists plain d more,
       o = plain ++ (d, true) :: more /\ forallb is_plain plain = true.
Proof.
  induction o as [|[d e] o IH]; [now left|].
  destruct e.
  - right. exists [], d, o. auto.
  - destruct IH as [IH|(plain & d' & more & -> & Hp)].
    + left. cbn. exact IH.
    + right. exists ((d, false) :: plain), d', more. auto.
Qed.

Lemma feed_app (l1 l2 : list (list byte)) (r : Framing.reader) :
  feed (l1 ++ l2) r
  = match feed l1 r with
    | Some (r1, o1) => prepend o1 (feed l2 r1)
    | None => None
    end.
Proof.
  revert r. induction l1 as [|c l1 IH]; intros r.
  - cbn. destruct (feed l2 r) as [[r2 o2]|]; reflexivity.
  - cbn [app feed]. destruct (Framing.readable c r) as [[r1 o1]|]; [|reflexivity].
    rewrite IH. destruct (feed l1 r1) as [[r2 o2]|]; [|reflexivity].
    destruct (feed l2 r2) as [[r3 o3]|]; cbn; [now rewrite app_assoc | reflexivity].
Qed.

(** ** The steps of a calm run *)

Lemma readable_framed (c : list byte) (r r' : Framing.reader)
    (out o : list submission) (st st' : runtime) :
  framed r out st -> suspended st = 0 ->
  Framing.readable c r = Some (r', o) ->
  readable c st = Some st' ->
  framed r' (out ++ o) st'.
Proof.
  intros (H1 & H2 & H3 & H4) H0 Hf Hst.
  destruct (H3 H0) as [Hr Ht]. subst r out.
  destruct (previousDecrypt st) as [p|] eqn:Hp.
  - destruct (loop_chained _ (set_input (input (reader st) ++ c) st) r' o p Hp Hf)
      as (st1 & Hl & Hr & Ht & Hs & p' & Hp').
    unfold readable in Hst. unfold handler_fuel in Hst.
    change (readable_fuel _) with
      (S (length (input (reader (set_input (input (reader st) ++ c) st))))) in Hl.
    rewrite Hl in Hst. injection Hst as <-.
    change (suspended (set_input (input (reader st) ++ c) st)) with (suspended st) in Hs.
    change (taken (set_input (input (reader st) ++ c) st)) with (taken st) in Ht.
    rewrite H0 in Hs. unfold framed. rewrite Hs, Hp'.
    split; [lia|]. split; [discriminate|]. split; [auto|]. discriminate.
  - destruct (plain_or_first o) as [Hall|(plain & d & more & -> & Hall)].
    + rewrite (readable_plain c st r' o Hp Hf Hall) in Hst. injection Hst as <-.
      unfold framed.
      change (suspended (delivered r' o st)) with (suspended st).
      rewrite H0. split; [lia|]. split; [reflexivity|]. split; [|discriminate].
      intros _. split; reflexivity.
    + destruct (readable_first_encrypted c st r' plain d more Hp Hf Hall)
        as (md & rest & Hl & _ & _ & _ & f & Hrest).
      rewrite Hl in Hst. injection Hst as <-.
      assert (Hs : suspended (waiting md rest d (delivered (reader st) plain st)) = 1).
      { unfold suspended.
        cbn [waiting delivered heap microtasks].
        rewrite list_sum_map_snoc. cbn [waits_in List.filter is_resume length].
        unfold suspended in H0. lia. }
      unfold framed. rewrite Hs.
      split; [lia|]. split; [discriminate|]. split; [discriminate|].
      intros _. exists more.
      cbn [waiting delivered reader input taken]. split.
      * exact (readable_loop_enough f {| messageData := None; input := rest |} _ Hrest).
      * now rewrite <- !app_assoc.
Qed.

Section Runs.
Variable decryptData : list byte -> list byte.

Lemma decrypted_framed (p : pid) (r : Framing.reader) (out : list submission)
    (st st' : runtime) :
  framed r out st -> decrypted decryptData p st = Some st' -> framed r out st'.
Proof.
  intros Hf H. unfold decrypted in H.
  destruct (take_decrypting p (decrypting st)) as [[data rest]|]; [|discriminate].
  injection H as <-.
  destruct (fulfil_fields p (Buffer (decryptData data)) (set_decrypting rest st))
    as (Hr & Ht & Hp).
  apply (framed_ext r out st); [exact Hr | exact Ht | exact Hp | | exact Hf].
  now rewrite sus_fulfil.
Qed.

Lemma tick_framed (r : Framing.reader) (out : list submission) (st st' : runtime) :
  framed r out st -> tick st = Some st' -> framed r out st'.
Proof.
  intros Hf H. unfold tick in H.
  destruct (microtasks st) as [|j rest] eqn:Em; [discriminate|].
  assert (Hs0 : suspended st = suspended (set_microtasks rest st) + job_resumes j).
  { unfold suspended. cbn [heap microtasks set_microtasks]. rewrite Em.
    cbn [map]. rewrite list_sum_cons. lia. }
  destruct (job_resumes j) as [|n] eqn:Ej.
  - destruct (run_job_other j _ _ Ej H) as (Hr & Ht & Hp & Hs).
    apply (framed_ext r out st); try assumption. rewrite Hs. lia.
  - destruct j as [[|d e derived|result|derived] v|derived result];
      cbn [job_resumes] in Ej; try discriminate Ej.
    injection Ej as <-. cbn [run_job] in H.
    destruct Hf as (H1 & H2 & H3 & H4).
    assert (Hone : suspended st = 1) by lia.
    destruct (previousDecrypt st) as [p|] eqn:Hp; [|specialize (H2 eq_refl); lia].
    destruct (H4 Hone) as (more & Hloop & Hout).
    set (st1 := set_messageData None (notifyMessage v true (set_microtasks rest st))) in *.
    destruct (loop_chained _ st1 r more p Hp Hloop)
      as (st2 & Hl & Hr & Ht & Hs & p' & Hp').
    unfold handler_fuel in H.
    change (input (reader st1)) with (input (reader st)) in H.
    rewrite Hl in H. injection H as <-.
    change (suspended st1) with (suspended (set_microtasks rest st)) in Hs.
    change (taken st1) with (taken st) in Ht.
    unfold framed. rewrite Hs, Hp', Hr, Ht, Hout.
    split; [lia|]. split; [discriminate|]. split; [auto|]. intros Hc. lia.
Qed.

(** Through a calm run the read side is where the loop of section 6 is
    on the chunks received so far, or on its way there while the handler
    waits. *)
Lemma run_framed (ls : list label) :
  forall (st st' : runtime) (cs : list (list byte)) (r : Framing.reader)
         (out : list submission),
  framed r out st ->
  feed cs Framing.initial = Some (r, out) ->
  run decryptData ls st = Some st' ->
  calm decryptData ls st = true ->
  exists r' out',
    feed (cs ++ chunks_of ls) Framing.initial = Some (r', out')
    /\ framed r' out' st'.
Proof.
  induction ls as [|l ls IH]; intros st st' cs r out Hf Hfeed Hrun Hcalm.
  - injection Hrun as <-. exists r, out. cbn. now rewrite app_nil_r.
  - cbn [run calm] in Hrun, Hcalm.
    destruct (step decryptData st l) as [st1|] eqn:E; [|discriminate].
    apply andb_true_iff in Hcalm as [Hnow Hcalm].
    destruct l as [c|p|]; cbn [step] in E.
    + destruct (readable_total c r) as [[r1 o1] Hr1].
      assert (H0 : suspended st = 0).
      { unfold handler_waiting in Hnow. apply negb_true_iff in Hnow.
        apply Nat.ltb_ge in Hnow. lia. }
      pose proof (readable_framed c r r1 out o1 st st1 Hf H0 Hr1 E) as Hf1.
      assert (Hfeed1 : feed (cs ++ [c]) Framing.initial = Some (r1, out ++ o1)).
      { rewrite feed_app, Hfeed. cbn [feed]. rewrite Hr1. cbn.
        now rewrite app_nil_r. }
      destruct (IH st1 st' (cs ++ [c]) r1 (out ++ o1) Hf1 Hfeed1 Hrun Hcalm)
        as (r' & out' & H1 & H2).
      exists r', out'. split; [|exact H2].
      change (chunks_of (Readable c :: ls)) with ([c] ++ chunks_of ls).
      now rewrite app_assoc.
    + pose proof (decrypted_framed p r out st st1 Hf E) as Hf1.
      destruct (IH st1 st' cs r out Hf1 Hfeed Hrun Hcalm) as (r' & out' & H1 & H2).
      exists r', out'. auto.
    + pose proof (tick_framed r out st st1 Hf E) as Hf1.
      destruct (IH st1 st' cs r out Hf1 Hfeed Hrun Hcalm) as (r' & out' & H1 & H2).
      exists r', out'. auto.
Qed.

Lemma initial_framed : framed Framing.initial [] initial.
Proof.
  unfold framed. change (suspended initial) with 0.
  split; [lia|]. split; [reflexivity|]. split; [auto|]. discriminate.
Qed.

Lemma calm_run_feed (ls : list label) (st : runtime) :
  run decryptData ls initial = Some st ->
  calm decryptData ls initial = true ->
  handler_waiting st = false ->
  feed (chunks_of ls) Framing.initial = Some (reader st, taken st).
Proof.
  intros Hrun Hcalm Hw.
  destruct (run_framed ls initial st [] Framing.initial [] initial_framed eq_refl
              Hrun Hcalm) as (r & out & Hfeed & (_ & _ & H3 & _)).
  unfold handler_waiting in Hw. apply Nat.ltb_ge in Hw.
  destruct H3 as [-> ->]; [lia|]. exact Hfeed.
Qed.

End Runs.

End InboundCalmFacts.

Module InboundCalmProperties.
Import Bytes Framing FramingMore StreamFacts WriterFacts.
Import Inbound InboundCalm InboundCalmFacts.





End InboundCalmProperties.

(* ===================================================================== *)
(** * The flag byte of a frame read while a decryption is under way *)
(* ===================================================================== *)

Module FlagClaims.
Import Bytes Framing BytesFacts WriterFacts ReaderFacts Inbound InboundFacts.

(** C10 (the code departs from the claim): on the write side the flag byte
    is 1 or 0, and a header read at the top of the loop is taken as
    encrypted exactly when its fifth byte is not 0.  But the handler
    clears [messageData] only after the [await] of line 150.  A frame B
    with flag byte 0 that arrives while the first decryption is under way
    is read by a second run of the handler under the header of the message
    being decrypted: its five header bytes are taken for body bytes, its
    flag byte is never looked at, and B, here as long as that body, is
    decrypted and notified with flag true.  Had B arrived once the first
    message was notified, its payload would have been notified as it is,
    with flag false. *)
Theorem flag_byte_skipped_while_decrypting (decryptData : list byte -> list byte)
    (a b : list byte) :
  (0 < length b)%nat -> Z.of_nat (length a) < 2 ^ 31 ->
  length a = (5 + length b)%nat ->
  let B := frame b false in
  (forall data e, frame data e !! 4%nat = Some (if e then x01 else x00))
  /\ (forall b0 b1 b2 b3 f,
        isEncrypted (parse_header [b0; b1; b2; b3; f]) = true <-> f <> x00)
  /\ B !! 4%nat = Some x00
  /\ isEncrypted (parse_header (take 5 B)) = false
  /\ run decryptData
       [Readable (frame a true); Decrypted 0%nat; Tick;
        Readable B; Tick; Tick; Tick] initial
     = Some {| reader := Framing.initial; previousDecrypt := Some 1%nat;
               heap := [Fulfilled (Buffer (decryptData a)); Fulfilled Undefined;
                        Fulfilled Undefined];
               decrypting := []; microtasks := [];
               notified := [(Buffer (decryptData a), true); (Buffer b, false)];
               taken := [(a, true); (b, false)] |}
  /\ run decryptData
       [Readable (frame a true); Readable B;
        Decrypted 0%nat; Tick; Tick; Tick; Decrypted 3%nat; Tick; Tick] initial
     = Some {| reader := Framing.initial; previousDecrypt := Some 1%nat;
               heap := [Fulfilled (Buffer (decryptData a)); Fulfilled Undefined;
                        Fulfilled Undefined; Fulfilled (Buffer (decryptData B))];
               decrypting := []; microtasks := [];
               notified := [(Buffer (decryptData a), true);
                            (Buffer (decryptData B), true)];
               taken := [(a, true); (B, true)] |}.
Proof.
  intros Hb Ha Hlen B.
  assert (Hflag : forall data e, frame data e !! 4%nat = Some (if e then x01 else x00)).
  { intros data e. rewrite frame_layout. destruct e; reflexivity. }
  split; [exact Hflag|]. split.
  { intros b0 b1 b2 b3 f. unfold parse_header, byte_at.
    cbn [lookup list_lookup fmap option_fmap option_map isEncrypted].
    rewrite FramingClaims.flag_test. apply FramingClaims.flag_nonzero. }
  split; [exact (Hflag b false)|]. split.
  { unfold B. rewrite frame_layout.
    change (take 5 (int32_bytes_BE (toInt32 (Z.of_nat (length b)))
                    ++ [flag_byte false] ++ b))
      with (int32_bytes_BE (toInt32 (Z.of_nat (length b))) ++ [flag_byte false]).
    now rewrite parse_header_frame. }
  split.
  - apply settled_header_run; lia.
  - apply stale_header_run; [lia | lia |].
    unfold B. rewrite frame_length. lia.
Qed.

Lemma flag_byte_skipped_while_decrypting_witness :
  let a := [x01; x02; x03; x04; x05; x06] in
  let b := [x41] in
  (0 < length b)%nat /\ Z.of_nat (length a) < 2 ^ 31
  /\ length a = (5 + length b)%nat
  /\ (let B := frame b false in
      (forall data e, frame data e !! 4%nat = Some (if e then x01 else x00))
      /\ (forall b0 b1 b2 b3 f,
            isEncrypted (parse_header [b0; b1; b2; b3; f]) = true <-> f <> x00)
      /\ B !! 4%nat = Some x00
      /\ isEncrypted (parse_header (take 5 B)) = false
      /\ run Samples.rot
           [Readable (frame a true); Decrypted 0%nat; Tick;
            Readable B; Tick; Tick; Tick] initial
         = Some {| reader := Framing.initial; previousDecrypt := Some 1%nat;
                   heap := [Fulfilled (Buffer (Samples.rot a)); Fulfilled Undefined;
                            Fulfilled Undefined];
                   decrypting := []; microtasks := [];
                   notified := [(Buffer (Samples.rot a), true); (Buffer b, false)];
                   taken := [(a, true); (b, false)] |}
      /\ run Samples.rot
           [Readable (frame a true); Readable B;
            Decrypted 0%nat; Tick; Tick; Tick; Decrypted 3%nat; Tick; Tick] initial
         = Some {| reader := Framing.initial; previousDecrypt := Some 1%nat;
                   heap := [Fulfilled (Buffer (Samples.rot a)); Fulfilled Undefined;
                            Fulfilled Undefined; Fulfilled (Buffer (Samples.rot B))];
                   decrypting := []; microtasks := [];
                   notified := [(Buffer (Samples.rot a), true);
                                (Buffer (Samples.rot B), true)];
                   taken := [(a, true); (B, true)] |}).
Proof.
  intros a b. split; [cbn; lia|]. split; [cbn; lia|]. split; [reflexivity|].
  apply (flag_byte_skipped_while_decrypting Samples.rot a b);
    [cbn; lia | cbn; lia | reflexivity].
Defined.

End FlagClaims.
